(** * Rummy card game: validators, win-check session and draw phase

    A shallow embedding of [main.py].  Python lists are modelled as Rocq
    lists, Python integers as [Z], exceptions as an error result, and the
    list objects the game mutates in place (the deck, the discard pile, the
    players' hands and the working copy used by the win check) as cells of a
    heap of list objects addressed by references. *)

From Stdlib Require Import ZArith Lia Bool.
From stdpp Require Import base option list sorting gmap strings.

Local Open Scope Z_scope.

(** ** Python primitives *)

(** The exceptions the modelled code can raise. *)
Inductive exn : Set :=
| IndexError
| UnboundLocalError.

Inductive result (A : Type) : Type :=
| Ok (a : A)
| Raise (e : exn).
Arguments Ok {A} a.
Arguments Raise {A} e.

#[global] Instance result_ret : MRet result := fun _ a => Ok a.
#[global] Instance result_bind : MBind result := fun _ _ f m =>
  match m with
  | Ok a => f a
  | Raise e => Raise e
  end.

(** Index normalisation of [l[k]] and [l.pop(k)]: a negative index counts
    from the end; what is still out of range raises [IndexError]. *)
Definition py_norm_index (n : nat) (k : Z) : option nat :=
  let k' := if k <? 0 then k + Z.of_nat n else k in
  if (k' <? 0) || (Z.of_nat n <=? k') then None else Some (Z.to_nat k').

(** [l[k]] *)
Definition py_getitem {A} (l : list A) (k : Z) : result A :=
  match py_norm_index (length l) k with
  | Some i =>
      match l !! i with
      | Some x => Ok x
      | None => Raise IndexError
      end
  | None => Raise IndexError
  end.

(** [l.pop(k)]: the popped element and the list that is left. *)
Definition py_pop {A} (l : list A) (k : Z) : result (A * list A) :=
  match py_norm_index (length l) k with
  | Some i =>
      match l !! i with
      | Some x => Ok (x, delete i l)
      | None => Raise IndexError
      end
  | None => Raise IndexError
  end.

(** [l.sort(key=...)]: Python's sort is stable and ascending; [le x y] is
    [key(x) <= key(y)].  Any stable sort computes the same list; this one
    inserts each element before the first one that is not smaller. *)
Section py_sort.
Context {A : Type} (le : A -> A -> bool).

Fixpoint insert_sorted (x : A) (l : list A) : list A :=
  match l with
  | [] => [x]
  | y :: l' => if le x y then x :: l else y :: insert_sorted x l'
  end.

Definition py_sort (l : list A) : list A := foldr insert_sorted [] l.
End py_sort.

(** [[f(x) for x in l]] where [f] may raise. *)
Fixpoint comprehension {A B} (f : A -> result B) (l : list A) : result (list B) :=
  match l with
  | [] => Ok []
  | x :: l' => y ← f x; ys ← comprehension f l'; Ok (y :: ys)
  end.

(** ** Cards *)

(** [class Card]: suit 0..3 (4 for the Joker), rank 1..13 (14 for the
    Joker). *)
Record Card : Set := mkCard { suit : Z; rank : Z }.

#[global] Instance Card_eq_dec : EqDecision Card.
Proof. solve_decision. Defined.

(** The test both validators make on a card:
    [card.rank == 14 or card.rank == wild_card.rank]. *)
Definition is_wild (wild_card card : Card) : bool :=
  (rank card =? 14) || (rank card =? rank wild_card).

(** [key = lambda card: (card.suit, card.rank)]: tuples compare
    lexicographically. *)
Definition suit_rank_le (a b : Card) : bool :=
  (suit a <? suit b) || ((suit a =? suit b) && (rank a <=? rank b)).

(** ** The validators *)

(** [cards = [hand[ind-1] for ind in cards_ind]] *)
Definition resolve (hand : list Card) (cards_ind : list Z) : result (list Card) :=
  comprehension (fun ind => py_getitem hand (ind - 1)) cards_ind.

(** The loop of [is_valid_set]: [for i, card in enumerate(cards)] with
    [cards.pop(i)] in its body.  The list iterator keeps a position [i],
    stops when [i] is no longer inside the (shrinking) list, and steps by
    one whether or not the body popped.  Each round moves [i] forward, so
    [length cards] rounds are enough (lemma [set_loop_fuel]). *)
Fixpoint set_loop (wild_card : Card) (fuel : nat) (i : nat)
    (cards : list Card) (joker_counter : Z) : result (list Card * Z) :=
  match fuel with
  | O => Ok (cards, joker_counter)
  | S fuel' =>
      match cards !! i with
      | None => Ok (cards, joker_counter)
      | Some card =>
          if is_wild wild_card card then
            '(_, cards') ← py_pop cards (Z.of_nat i);
            set_loop wild_card fuel' (S i) cards' (joker_counter + 1)
          else set_loop wild_card fuel' (S i) cards joker_counter
      end
  end.

(** [len(set(card.rank for card in cards))] *)
Definition distinct_ranks (cards : list Card) : nat :=
  size (list_to_set (rank <$> cards) : gset Z).

Definition is_valid_set (hand : list Card) (cards_ind : list Z) (wild_card : Card)
  : result (list bool) :=
  if (length cards_ind <? 3)%nat then Ok [false]
  else
    cards ← resolve hand cards_ind;
    '(cards, joker_counter) ← set_loop wild_card (length cards) 0 cards 0;
    Ok [(distinct_ranks cards =? 1)%nat; joker_counter =? 0].

(** First loop of [is_valid_run]: [for i in range(len(cards))], the range
    fixed before the loop, reading and popping [cards[i-joker_counter]]. *)
Fixpoint run_strip (wild_card : Card) (range : list nat)
    (cards : list Card) (joker_counter : Z) : result (list Card * Z) :=
  match range with
  | [] => Ok (cards, joker_counter)
  | i :: range' =>
      card ← py_getitem cards (Z.of_nat i - joker_counter);
      if is_wild wild_card card then
        '(_, cards') ← py_pop cards (Z.of_nat i - joker_counter);
        run_strip wild_card range' cards' (joker_counter + 1)
      else run_strip wild_card range' cards joker_counter
  end.

(** Second loop of [is_valid_run]: [for i in range(1, len(cards))];
    [Ok false] is the early [return [False]], [Ok true] the loop running
    to its end. *)
Fixpoint run_walk (range : list nat) (cards : list Card) (wild_card_counter : Z)
  : result bool :=
  match range with
  | [] => Ok true
  | i :: range' =>
      ci ← py_getitem cards (Z.of_nat i);
      cp ← py_getitem cards (Z.of_nat i - 1);
      if negb (suit ci =? suit cp) || (rank ci =? rank cp) then Ok false
      else if rank ci =? rank cp + 1 then run_walk range' cards wild_card_counter
      else if rank ci <=? wild_card_counter + rank cp + 1 then
        run_walk range' cards (wild_card_counter - (rank ci - rank cp - 1))
      else Ok false
  end.

Definition is_valid_run (hand : list Card) (cards_ind : list Z) (wild_card : Card)
  : result (list bool) :=
  if (length cards_ind <? 3)%nat then Ok [false]
  else
    cards ← resolve hand cards_ind;
    '(cards, joker_counter) ← run_strip wild_card (seq 0 (length cards)) cards 0;
    let cards := py_sort suit_rank_le cards in
    ok ← run_walk (seq 1 (length cards - 1)) cards joker_counter;
    match ok with
    | true => Ok [true; joker_counter =? 0]
    | false => Ok [false]
    end.

(** [checkForWin] *)
Definition checkForWin (hand : list Card) (atleast_one_natrual : bool) : bool :=
  if (length hand =? 0)%nat && atleast_one_natrual then true else false.

(** ** List objects

    [play] mutates lists in place and holds several names for one list, so
    a list object lives in a heap cell and a variable holds its reference.
    A computation threads the heap and either finishes or raises; the heap
    at the raise is kept. *)

Abbreviation loc := nat (only parsing).
Abbreviation heap := (gmap nat (list Card)).

Inductive outcome (A : Type) : Type :=
| Done (a : A) (h : heap)
| Crash (e : exn) (h : heap).
Arguments Done {A} a h.
Arguments Crash {A} e h.

Definition hm (A : Type) : Type := heap -> outcome A.

#[global] Instance hm_ret : MRet hm := fun _ a h => Done a h.
#[global] Instance hm_bind : MBind hm := fun _ _ f m h =>
  match m h with
  | Done a h' => f a h'
  | Crash e h' => Crash e h'
  end.

Definition lift {A} (r : result A) : hm A := fun h =>
  match r with
  | Ok a => Done a h
  | Raise e => Crash e h
  end.

(** The list a reference denotes.  Every reference the program holds
    denotes a list; a reference outside the heap reads as the empty list. *)
Definition list_read (l : loc) : hm (list Card) := fun h =>
  Done (default [] (h !! l)) h.

Definition list_write (l : loc) (v : list Card) : hm unit := fun h =>
  Done () (<[l := v]> h).

(** [list(...)] / [copy.deepcopy]: a new list object. *)
Definition list_new (v : list Card) : hm loc := fun h =>
  let l := fresh (dom h) in Done l (<[l := v]> h).

(** [l[k]] *)
Definition list_getitem (l : loc) (k : Z) : hm Card :=
  v ← list_read l; lift (py_getitem v k).

(** [l.pop(k)] *)
Definition list_pop (l : loc) (k : Z) : hm Card :=
  v ← list_read l;
  '(x, v') ← lift (py_pop v k);
  list_write l v';;
  mret x.

(** [l.pop()] *)
Definition list_pop_last (l : loc) : hm Card := list_pop l (-1).

(** [l.append(x)] *)
Definition list_append (l : loc) (x : Card) : hm unit :=
  v ← list_read l; list_write l (v ++ [x]).

(** [l.clear()] *)
Definition list_clear (l : loc) : hm unit := list_write l [].

(** [copy.deepcopy(l)]: cards are immutable values, so the copy is a new
    list object with the same cards. *)
Definition deepcopy (l : loc) : hm loc :=
  v ← list_read l; list_new v.

(** ** Players and the game *)

Record Player : Type := mkPlayer { hand : loc; name : string }.

(** [RummyGame]; [deck_cards] is [self.deck.cards]. *)
Record RummyGame : Type := mkGame {
  players : list Player;
  deck_cards : loc;
  discard_card_pile : loc;
  wild_card : Card
}.

(** [Player.add_card] *)
Definition add_card (self : Player) (new_card : Card) : hm unit :=
  list_append (hand self) new_card.

(** [Player.remove_card] *)
Definition remove_card (self : Player) (ind : Z) : hm Card :=
  card ← list_getitem (hand self) ind;
  list_pop (hand self) ind;;
  mret card.

(** [Deck.pop_card] *)
Definition pop_card (self : RummyGame) : hm Card := list_pop_last (deck_cards self).

(** [Deck.is_empty] *)
Definition is_empty (self : RummyGame) : hm bool :=
  v ← list_read (deck_cards self); mret (length v =? 0)%nat.

(** ** The draw phase of a turn ([play], lines 193-215) *)

(** [discardCardFromHand]; [input] is the integer the player typed. *)
Definition discardCardFromHand (self : RummyGame) (player : Player) (input : Z) : hm unit :=
  let discard_card_pile := discard_card_pile self in
  let dicard_card_from_hand := input - 1 in
  discard_card ← remove_card player dicard_card_from_hand;
  list_append discard_card_pile discard_card.

(** What the player types during the draw phase. *)
Record draw_input : Type := mkDrawInput {
  draw_from_discard_pile : string;
  keepOrDicard : string;
  dicard_choice : Z
}.

Section draw.
(** [random.shuffle]: the permutation the generator picks. *)
Variable shuffle : list Card -> list Card.

(** [Deck._shuffle_card] *)
Definition _shuffle_card (self : RummyGame) : hm unit :=
  v ← list_read (deck_cards self); list_write (deck_cards self) (shuffle v).

(** The body of [if self.deck.is_empty():] (lines 202-206). *)
Definition recycle (self : RummyGame) : hm RummyGame :=
  top_card_from_discard_pile ← list_pop_last (discard_card_pile self);
  cards ← deepcopy (discard_card_pile self);
  let self := mkGame (players self) cards (discard_card_pile self) (wild_card self) in
  _shuffle_card self;;
  list_clear (discard_card_pile self);;
  list_append (discard_card_pile self) top_card_from_discard_pile;;
  mret self.

Definition draw_phase (self : RummyGame) (player : Player) (inp : draw_input)
  : hm RummyGame :=
  if String.eqb (draw_from_discard_pile inp) "y" then
    drawn_card ← list_pop_last (discard_card_pile self);
    discardCardFromHand self player (dicard_choice inp);;
    add_card player drawn_card;;
    mret self
  else
    empty ← is_empty self;
    self ← (if empty : bool then recycle self else mret self);
    drawn_card ← pop_card self;
    if String.eqb (keepOrDicard inp) "y" then
      discardCardFromHand self player (dicard_choice inp);;
      add_card player drawn_card;;
      mret self
    else
      list_append (discard_card_pile self) drawn_card;;
      mret self.
End draw.

(** ** The win check of a turn ([play], lines 240-297) *)

(** The local variables of [play] the win check reads and writes.
    [set_flag] is [None] while the name is still unbound; it is a local of
    [play], not of one win check, so it keeps its value from one win check
    to the next. *)
Record locals : Type := mkLocals {
  player_hand : loc;
  has_atleast_one_natural : bool;
  win_flag : bool;
  set_flag : option (list bool)
}.

(** [for i in card_ind: player_hand.pop(i-1-deleted_counter);
    deleted_counter+=1] *)
Fixpoint pop_each (player_hand : loc) (card_ind : list Z) (deleted_counter : Z)
  : hm unit :=
  match card_ind with
  | [] => mret ()
  | i :: card_ind' =>
      list_pop player_hand (i - 1 - deleted_counter);;
      pop_each player_hand card_ind' (deleted_counter + 1)
  end.

(** Lines 255-259 and 274-278: [deleted_counter = 0; card_ind.sort();] and
    the loop above. *)
Definition remove_group (player_hand : loc) (card_ind : list Z) : hm unit :=
  pop_each player_hand (py_sort Z.leb card_ind) 0.

(** Reading the local [set_flag]. *)
Definition read_set_flag (s : locals) : hm (list bool) :=
  match set_flag s with
  | Some f => mret f
  | None => lift (Raise UnboundLocalError)
  end.

(** [case 1] *)
Definition check_sets (self : RummyGame) (card_ind : list Z) (s : locals) : hm locals :=
  hand ← list_read (player_hand s);
  set_flag ← lift (is_valid_set hand card_ind (wild_card self));
  let s := mkLocals (player_hand s) (has_atleast_one_natural s) (win_flag s) (Some set_flag) in
  valid ← lift (py_getitem set_flag 0);
  if negb valid then mret s
  else
    remove_group (player_hand s) card_ind;;
    natural ← lift (py_getitem set_flag 1);
    let has_atleast_one_natural :=
      if natural : bool then true else has_atleast_one_natural s in
    hand ← list_read (player_hand s);
    let win_flag := checkForWin hand has_atleast_one_natural in
    mret (mkLocals (player_hand s) has_atleast_one_natural win_flag (Some set_flag)).

(** [case 2]; the natural flag is read from [set_flag] (line 280). *)
Definition check_runs (self : RummyGame) (card_ind : list Z) (s : locals) : hm locals :=
  hand ← list_read (player_hand s);
  run_flag ← lift (is_valid_run hand card_ind (wild_card self));
  valid ← lift (py_getitem run_flag 0);
  if negb valid then mret s
  else
    remove_group (player_hand s) card_ind;;
    set_flag ← read_set_flag s;
    natural ← lift (py_getitem set_flag 1);
    let has_atleast_one_natural :=
      if natural : bool then true else has_atleast_one_natural s in
    hand ← list_read (player_hand s);
    let win_flag := checkForWin hand has_atleast_one_natural in
    mret (mkLocals (player_hand s) has_atleast_one_natural win_flag (Some set_flag)).

(** [case 3] *)
Definition reset_cards (player : Player) (s : locals) : hm locals :=
  player_hand ← deepcopy (hand player);
  mret (mkLocals player_hand (has_atleast_one_natural s) (win_flag s) (set_flag s)).

(** One answer to the [Check :] menu, with the card sequence typed after
    it for choices 1 and 2. *)
Record check_input : Type := mkCheckInput { check_type : Z; card_ind : list Z }.

(** The [match] of one round of the loop. *)
Definition check_round (self : RummyGame) (player : Player) (inp : check_input)
    (s : locals) : hm locals :=
  if check_type inp =? 1 then check_sets self (card_ind inp) s
  else if check_type inp =? 2 then check_runs self (card_ind inp) s
  else if check_type inp =? 3 then reset_cards player s
  else mret s.

(** How far the [while len(player_hand)>0] loop got on the answers given:
    it left the loop, or it waits for the next answer. *)
Inductive progress : Set := LoopLeft | AwaitingInput.

Fixpoint check_loop (self : RummyGame) (player : Player)
    (inputs : list check_input) (s : locals) : hm (locals * progress) :=
  hand ← list_read (player_hand s);
  if (0 <? length hand)%nat then
    match inputs with
    | [] => mret (s, AwaitingInput)
    | inp :: inputs' =>
        s ← check_round self player inp s;
        if negb (bool_decide (check_type inp ∈ [1; 2; 3])) || win_flag s
        then mret (s, LoopLeft)
        else check_loop self player inputs' s
    end
  else mret (s, LoopLeft).

(** The body of [if(check_for_win == "y"):]; [set_flag0] is the value the
    local [set_flag] has when the win check starts.  When the loop is
    left with [win_flag] set the program ends with [exit(0)]. *)
Definition win_check (self : RummyGame) (player : Player)
    (set_flag0 : option (list bool)) (inputs : list check_input)
  : hm (locals * progress) :=
  player_hand ← deepcopy (hand player);
  check_loop self player inputs (mkLocals player_hand false false set_flag0).

Definition won (r : locals * progress) : bool :=
  match r with
  | (s, LoopLeft) => win_flag s
  | (_, AwaitingInput) => false
  end.

(** ** Definitions used to state the properties *)

(** The cards of a selection the validators treat as wild, and the rest. *)
Definition wilds (wild_card : Card) (cards : list Card) : list Card :=
  filter (fun c => is_wild wild_card c = true) cards.

Definition non_wilds (wild_card : Card) (cards : list Card) : list Card :=
  filter (fun c => is_wild wild_card c <> true) cards.

Definition wild_count (wild_card : Card) (cards : list Card) : nat :=
  length (wilds wild_card cards).

(** What the loop of [is_valid_set] leaves and counts, read off the list
    instead of the iterator: the card that follows a popped card moves into
    the position just visited and is never looked at. *)
Fixpoint set_kept (wild_card : Card) (cards : list Card) : list Card * Z :=
  match cards with
  | [] => ([], 0)
  | c :: rest =>
      if is_wild wild_card c then
        match rest with
        | [] => ([], 1)
        | d :: rest' =>
            let '(k, n) := set_kept wild_card rest' in (d :: k, n + 1)
        end
      else let '(k, n) := set_kept wild_card rest in (c :: k, n)
  end.


(** A submitted 0 is read as [hand[-1]], the card the largest index
    selects. *)
Definition zero_as_last (hand : list Card) (ind : Z) : Z :=
  if decide (ind = 0) then Z.of_nat (length hand) else ind.

(** The second loop of [is_valid_run] read off the list: [prev] is
    [cards[i-1]], the head of the list [cards[i]]. *)
Fixpoint walk_pairs (prev : Card) (l : list Card) (wild_card_counter : Z) : bool :=
  match l with
  | [] => true
  | c :: l' =>
      if negb (suit c =? suit prev) || (rank c =? rank prev) then false
      else if rank c =? rank prev + 1 then walk_pairs c l' wild_card_counter
      else if rank c <=? wild_card_counter + rank prev + 1 then
        walk_pairs c l' (wild_card_counter - (rank c - rank prev - 1))
      else false
  end.

(** *** The run rule as the specification words it *)

(** Sorting by rank alone. *)
Definition rank_le (a b : Card) : bool := rank a <=? rank b.

(** All cards of one suit. *)
Definition single_suit (cards : list Card) : Prop :=
  forall c d, c ∈ cards -> d ∈ cards -> suit c = suit d.

(** The wild cards the gaps of an ascending list of ranks ask for: a gap
    [g > 1] between neighbours asks for [g - 1]. *)
Fixpoint wilds_needed (ranks : list Z) : Z :=
  match ranks with
  | [] => 0
  | r1 :: rest =>
      match rest with
      | [] => 0
      | r2 :: _ => (if 1 <? r2 - r1 then r2 - r1 - 1 else 0) + wilds_needed rest
      end
  end.

(** The non-wild cards share one suit; sorted by rank ascending no two of
    them have the same rank; the wild cards of the selection are enough to
    fill every gap. *)
Definition spec_run_rule (wild_card : Card) (cards : list Card) : Prop :=
  let sorted := py_sort rank_le (non_wilds wild_card cards) in
  single_suit (non_wilds wild_card cards)
  /\ NoDup (rank <$> sorted)
  /\ wilds_needed (rank <$> sorted) <= Z.of_nat (wild_count wild_card cards).

(** How [play] reads a validator's answer: [flag[0]] is the validity and
    [flag[1]], where the list has one, says whether the group is natural. *)
Definition isValid (r : result (list bool)) : Prop :=
  exists flag, r = Ok flag /\ flag !! 0%nat = Some true.



(** Cards used in the examples; the turned-up card is the eight of clubs,
    so every 8 is wild. *)
Definition club8 : Card := mkCard 0 8.
Definition diamond8 : Card := mkCard 1 8.
Definition spade8 : Card := mkCard 3 8.
Definition joker : Card := mkCard 4 14.
Definition heart3 : Card := mkCard 2 3.
Definition heart5 : Card := mkCard 2 5.
Definition spadeJ : Card := mkCard 3 11.
Definition diamondJ : Card := mkCard 1 11.
Definition heartJ : Card := mkCard 2 11.

(** *** Removing a group *)

(** The cards of [hand] whose position is not among [card_ind], the first
    card of [hand] having position [pos]. *)
Fixpoint keep_from (pos : Z) (card_ind : list Z) (hand : list Card) : list Card :=
  match hand with
  | [] => []
  | c :: hand' =>
      if decide (pos ∈ card_ind) then keep_from (pos + 1) card_ind hand'
      else c :: keep_from (pos + 1) card_ind hand'
  end.

(** What is left of [hand] when exactly the cards at the 1-based positions
    [card_ind] are taken out. *)
Definition keep_others (hand : list Card) (card_ind : list Z) : list Card :=
  keep_from 1 card_ind hand.

(** The removal the specification describes: sort the indices descending
    and remove the cards highest index first, so that no removal moves a
    card still to be removed. *)
Definition spec_remove_highest_first (hand : list Card) (card_ind : list Z) : list Card :=
  foldl (fun hand i => delete (Z.to_nat (i - 1)) hand) hand
        (py_sort (fun a b => b <=? a) card_ind).

(** *** Triples for heap computations

    [hoare P m Q E]: from a heap with [P], [m] either finishes with a
    value and heap in [Q] or raises with a heap in [E]. *)
Definition hoare {A} (P : heap -> Prop) (m : hm A)
    (Q : A -> heap -> Prop) (E : heap -> Prop) : Prop :=
  forall h, P h ->
    match m h with
    | Done a h' => Q a h'
    | Crash _ h' => E h'
    end.

(** The list object [r] still holds [cards]. *)
Definition holds (r : loc) (cards : list Card) (h : heap) : Prop :=
  h !! r = Some cards.

(** The heap an outcome ends in, finished or raised. *)
Definition final_heap {A} (o : outcome A) : heap :=
  match o with
  | Done _ h => h
  | Crash _ h => h
  end.

(** What the rounds of a win check keep true: [r] still holds [cards] and
    the working copy is another list object. *)
Definition working_copy_apart (r : loc) (cards : list Card)
    (s : locals) (h : heap) : Prop :=
  holds r cards h /\ player_hand s <> r.

(** *** Counting the cards of a game *)

Definition cards_of (h : heap) (l : loc) : list Card := default [] (h !! l).

(** Deck, discard pile, every hand, and the turned-up wild card. *)
Definition all_cards (self : RummyGame) (h : heap) : list Card :=
  cards_of h (deck_cards self) ++ cards_of h (discard_card_pile self)
  ++ concat ((fun p => cards_of h (hand p)) <$> players self)
  ++ [wild_card self].

(** [|Deck| + |DiscardPile| + sum of |Hands| + 1] *)
Definition card_count (self : RummyGame) (h : heap) : nat :=
  (length (cards_of h (deck_cards self))
   + length (cards_of h (discard_card_pile self))
   + sum_list ((fun p => length (cards_of h (hand p))) <$> players self)
   + 1)%nat.

(** *** A win check that ends in a win without a natural group

    The eight of clubs is turned up.  The player holds three runs, each
    with a wild card in it. *)
Definition north_hand : list Card :=
  [heart3; spade8; heart5;
   mkCard 1 2; diamond8; mkCard 1 4;
   mkCard 0 10; joker; mkCard 0 12; mkCard 0 13].

Definition north : Player := mkPlayer 2%nat "North".

Definition south_hand : list Card :=
  [spadeJ; diamondJ; heartJ; mkCard 0 1; mkCard 0 2; mkCard 0 3;
   mkCard 1 5; mkCard 1 6; mkCard 2 12; mkCard 2 13].

(** [Deck.__init__] before the shuffle:
    [[Card(suit, rank) for suit in range(4) for rank in range(1, 14)]]
    and the Joker. *)
Definition new_deck : list Card :=
  (suit ← [0; 1; 2; 3]; rank ← Z.of_nat <$> seq 1 13; [mkCard suit rank])
  ++ [mkCard 4 14].

(** The 31 cards not dealt: all but the two hands, the nine of hearts on
    the discard pile and the eight of clubs turned up. *)
Definition stock : list Card :=
  filter (fun c => c ∉ north_hand ++ south_hand ++ [mkCard 2 9; club8]) new_deck.

Definition table : RummyGame :=
  mkGame [north; mkPlayer 3%nat "South"] 0%nat 1%nat club8.

Definition table_heap : heap :=
  {[ 0%nat := stock;
     1%nat := [mkCard 2 9];
     2%nat := north_hand;
     3%nat := south_hand ]}.

(** The player asks for a set of three cards without a wild card, which
    is turned down, and then for the three runs. *)
Definition north_answers : list check_input :=
  [mkCheckInput 1 [1; 4; 7];
   mkCheckInput 2 [1; 2; 3];
   mkCheckInput 2 [1; 2; 3];
   mkCheckInput 2 [1; 2; 3; 4]].

(** *** A game whose deck has run out *)

Definition empty_deck_heap : heap :=
  <[0%nat := []]> (<[1%nat := stock ++ [mkCard 2 9]]> table_heap).

(** The discard pile of [self] has a card on it. *)
Definition pile_nonempty (self : RummyGame) (h : heap) : Prop :=
  cards_of h (discard_card_pile self) <> [].

(** ** The rest of [main.py]

    The parts of the program the results above do not need: how a card is
    printed, the set-up of a game, the rearranging of a hand, a turn and
    the loop of turns, and the reading of the player names. *)

(** [l[k] = x] *)
Definition py_setitem {A} (l : list A) (k : Z) (x : A) : result (list A) :=
  match py_norm_index (length l) k with
  | Some i => Ok (<[i := x]> l)
  | None => Raise IndexError
  end.

(** [l.sort(key=..., reverse=True)]: the list is reversed, sorted, and
    reversed again, so that cards with equal keys keep their order. *)
Definition py_sort_reverse {A} (le : A -> A -> bool) (l : list A) : list A :=
  reverse (py_sort le (reverse l)).

(** [Card.suit_list] and [Card.rank_list] *)
Definition suit_list : list string :=
  ["Club"; "Diamond"; "Hearts"; "Spades"; ""].

Definition rank_list : list string :=
  ["None"; "Ace"; "2"; "3"; "4"; "5"; "6"; "7"; "8"; "9"; "10";
   "Jack"; "Queen"; "King"; "Joker"].

(** [Card.__str__] *)
Definition Card_str (self : Card) : result string :=
  if rank self =? 14 then py_getitem rank_list (rank self)
  else
    r ← py_getitem rank_list (rank self);
    s ← py_getitem suit_list (suit self);
    Ok (r +:+ " of " +:+ s).

(** [str.join(sep, l)] *)
Fixpoint str_join (sep : string) (l : list string) : string :=
  match l with
  | [] => EmptyString
  | x :: l' =>
      match l' with
      | [] => x
      | _ :: _ => x +:+ sep +:+ str_join sep l'
      end
  end.

Definition newline : string := String (Ascii.ascii_of_nat 10) EmptyString.

(** [Player.__str__] *)
Definition Player_str (self : Player) : hm string :=
  hand ← list_read (hand self);
  if negb (length hand =? 0)%nat then
    cards ← lift (comprehension Card_str hand);
    mret ("Hand of " +:+ name self +:+ " contains ["
          +:+ str_join ", " cards +:+ "]" +:+ newline)
  else mret ("Hand of " +:+ name self +:+ " is empty" +:+ newline).

(** [l[k] = x] on a list object *)
Definition list_setitem (l : loc) (k : Z) (x : Card) : hm unit :=
  v ← list_read l; v' ← lift (py_setitem v k x); list_write l v'.

(** [Player.swap_card]: the right-hand side
    [self.hand[card2_ind], self.hand[card1_ind]] is read first, then the
    two targets are assigned from the left. *)
Definition swap_card (self : Player) (card1_ind card2_ind : Z) : hm unit :=
  c2 ← list_getitem (hand self) card2_ind;
  c1 ← list_getitem (hand self) card1_ind;
  list_setitem (hand self) card1_ind c2;;
  list_setitem (hand self) card2_ind c1.

(** [l.sort(key=..., reverse=True)] on a list object *)
Definition list_sort_reverse (le : Card -> Card -> bool) (l : loc) : hm unit :=
  v ← list_read l; list_write l (py_sort_reverse le v).

(** *** Rearranging the hand ([play], lines 219-238) *)

(** One answer to the [Sort by:] menu, with the two indexes typed after
    it for choice 3. *)
Record rearrange_input : Type := mkRearrangeInput {
  sort_by : Z;
  card1_ind : Z;
  card2_ind : Z
}.

(** The [match] of one round. *)
Definition rearrange_round (player : Player) (inp : rearrange_input) : hm unit :=
  if sort_by inp =? 1 then list_sort_reverse rank_le (hand player)
  else if sort_by inp =? 2 then list_sort_reverse suit_rank_le (hand player)
  else if sort_by inp =? 3 then
    swap_card player (card1_ind inp - 1) (card2_ind inp - 1)
  else mret ().

(** [while (rearrange_flag == "y")]: the flag is read once, so only a
    choice outside 1, 2, 3 leaves the loop. *)
Fixpoint rearrange_loop (player : Player) (inputs : list rearrange_input)
  : hm progress :=
  match inputs with
  | [] => mret AwaitingInput
  | inp :: inputs' =>
      rearrange_round player inp;;
      if negb (bool_decide (sort_by inp ∈ [1; 2; 3])) then mret LoopLeft
      else rearrange_loop player inputs'
  end.

Definition rearrange (player : Player) (rearrange_flag : string)
    (inputs : list rearrange_input) : hm progress :=
  if String.eqb rearrange_flag "y" then rearrange_loop player inputs
  else mret LoopLeft.

(** *** Setting up a game *)

(** [[Player(name) for name in players]]: each player gets a new, empty
    list as hand. *)
Fixpoint new_players (names : list string) : hm (list Player) :=
  match names with
  | [] => mret []
  | name :: names' =>
      hand ← list_new [];
      players ← new_players names';
      mret (mkPlayer hand name :: players)
  end.

(** One round of [deal_intial_card]:
    [for player in self.players: player.add_card(self.deck.pop_card())] *)
Fixpoint deal_round (self : RummyGame) (players : list Player) : hm unit :=
  match players with
  | [] => mret ()
  | player :: players' =>
      card ← pop_card self;
      add_card player card;;
      deal_round self players'
  end.

Fixpoint deal_rounds (self : RummyGame) (rounds : nat) : hm unit :=
  match rounds with
  | O => mret ()
  | S rounds' => deal_round self (players self);; deal_rounds self rounds'
  end.

(** [RummyGame.deal_intial_card]; [range(n_cards)] is empty for a
    negative [n_cards]. *)
Definition deal_intial_card (self : RummyGame) (n_cards : Z) : hm unit :=
  deal_rounds self (Z.to_nat n_cards).

Section setup.
(** [random.shuffle] on the cards of the deck and on the players. *)
Variable shuffle : list Card -> list Card.
Variable shuffle_players : list Player -> list Player.

(** [Deck.__init__]: the 53 cards in a new list, shuffled in place. *)
Definition Deck_init : hm loc :=
  cards ← list_new new_deck;
  v ← list_read cards;
  list_write cards (shuffle v);;
  mret cards.

(** [RummyGame.__init__] *)
Definition RummyGame_init (players : list string) : hm RummyGame :=
  players ← new_players players;
  deck ← Deck_init;
  discard_card_pile ← list_new [];
  card ← list_pop_last deck;
  list_append discard_card_pile card;;
  wild_card ← list_pop_last deck;
  mret (mkGame players deck discard_card_pile wild_card).

(** The start of [play] (lines 173-174): the seating order is shuffled
    and ten cards are dealt to each player. *)
Definition play_start (self : RummyGame) : hm RummyGame :=
  let self := mkGame (shuffle_players (players self)) (deck_cards self)
                     (discard_card_pile self) (wild_card self) in
  deal_intial_card self 10;;
  mret self.

(** [game = RummyGame(player_name_list)] and [game.play()] up to the
    first turn. *)
Definition setup (players : list string) : hm RummyGame :=
  self ← RummyGame_init players;
  play_start self.
End setup.

(** *** A turn and the loop of [play] (lines 187-297)

    What is printed is left out, but for the top card of the discard
    pile, which is read for printing at the start of every turn. *)

(** What the player at turn types: the answers of the draw phase, the
    answer to [do you want to rearrange cards] and the answers to its
    menu, the answer to [want to check for win?] and the answers to its
    menu. *)
Record turn_input : Type := mkTurnInput {
  draw_answers : draw_input;
  rearrange_flag : string;
  rearrange_answers : list rearrange_input;
  check_for_win : string;
  check_answers : list check_input
}.

(** How a turn ends: the next player is at turn, the program ends with
    [exit(0)], or it waits for an answer.  [Spins] is [while True] over
    an empty list of players, which reads nothing and never ends. *)
Inductive turn_end : Set := NextTurn | Exit0 | TurnAwaitingInput | Spins.

Section play.
Variable shuffle : list Card -> list Card.
Variable shuffle_players : list Player -> list Player.

(** The body of [for player in self.players:]; [set_flag0] is the value
    of the local [set_flag] of [play] when the turn starts, and the local
    is returned with the game. *)
Definition turn (self : RummyGame) (player : Player)
    (set_flag0 : option (list bool)) (inp : turn_input)
  : hm (RummyGame * option (list bool) * turn_end) :=
  list_getitem (discard_card_pile self) (-1);;
  self ← draw_phase shuffle self player (draw_answers inp);
  p ← rearrange player (rearrange_flag inp) (rearrange_answers inp);
  match p with
  | AwaitingInput => mret (self, set_flag0, TurnAwaitingInput)
  | LoopLeft =>
      if String.eqb (check_for_win inp) "y" then
        r ← win_check self player set_flag0 (check_answers inp);
        match snd r with
        | AwaitingInput => mret (self, set_flag (fst r), TurnAwaitingInput)
        | LoopLeft =>
            mret (self, set_flag (fst r),
                  if win_flag (fst r) then Exit0 else NextTurn)
        end
      else mret (self, set_flag0, NextTurn)
  end.

(** [while True: for player in self.players:], one turn for each entry
    of [inputs]; [todo] are the players the running [for] has still to
    serve, and an empty [todo] starts the next [for]. *)
Fixpoint turns (self : RummyGame) (todo : list Player)
    (set_flag : option (list bool)) (inputs : list turn_input)
  : hm (RummyGame * turn_end) :=
  match (match todo with [] => players self | _ => todo end) with
  | [] => mret (self, Spins)
  | player :: todo' =>
      match inputs with
      | [] => mret (self, TurnAwaitingInput)
      | inp :: inputs' =>
          r ← turn self player set_flag inp;
          match r with
          | (self, set_flag, NextTurn) => turns self todo' set_flag inputs'
          | (self, _, e) => mret (self, e)
          end
      end
  end.

(** [RummyGame.play]: [set_flag] is not bound at the first turn. *)
Definition play (self : RummyGame) (inputs : list turn_input)
  : hm (RummyGame * turn_end) :=
  self ← play_start shuffle_players self;
  turns self [] None inputs.

(** [game = RummyGame(player_name_list); game.play()] (lines 321-322) *)
Definition game (player_name_list : list string) (inputs : list turn_input)
  : hm (RummyGame * turn_end) :=
  self ← RummyGame_init shuffle player_name_list;
  play self inputs.
End play.

(** *** Reading the player names ([__main__], lines 300-320) *)

(** [1 < int(n_player) <= 4] *)
Definition player_count_ok (n_player : Z) : bool :=
  (1 <? n_player) && (n_player <=? 4).

(** [while player_counter < n_player:], on the names typed. *)
Fixpoint read_names (n_player : Z) (inputs : list string)
    (player_name_list : list string) (player_counter : Z)
  : list string * progress :=
  if player_counter <? n_player then
    match inputs with
    | [] => (player_name_list, AwaitingInput)
    | name :: inputs' =>
        if bool_decide (name ∈ player_name_list) then
          read_names n_player inputs' player_name_list player_counter
        else
          read_names n_player inputs' (player_name_list ++ [name])
                     (player_counter + 1)
    end
  else (player_name_list, LoopLeft).

(** *** Definitions used to state the properties of these parts *)

#[global] Instance exn_eq_dec : EqDecision exn.
Proof. solve_decision. Defined.

#[global] Instance result_eq_dec {A} `{EqDecision A} : EqDecision (result A).
Proof. solve_decision. Defined.

(** The index [hand[ind-1]] reads: every [ind] from [1 - len(hand)] to
    [len(hand)] names a card. *)
Definition resolvable (hand : list Card) (ind : Z) : Prop :=
  1 - Z.of_nat (length hand) <= ind <= Z.of_nat (length hand).

(** The ranks run up by one from card to card. *)
Fixpoint consecutive (ranks : list Z) : Prop :=
  match ranks with
  | [] => True
  | r1 :: rest =>
      match rest with
      | [] => True
      | r2 :: _ => r2 = r1 + 1 /\ consecutive rest
      end
  end.

(** The list objects of a game: deck, discard pile and hands. *)
Definition game_locs (self : RummyGame) : list loc :=
  deck_cards self :: discard_card_pile self :: (hand <$> players self).

(** The lists of a game are separate objects of the heap: deck, discard
    pile and the hands of the players are pairwise different and all
    exist. *)
Definition game_wf (self : RummyGame) (h : heap) : Prop :=
  NoDup (game_locs self)
  /\ Forall (fun l => is_Some (h !! l)) (game_locs self).

(** The cards the players hold. *)
Definition hands_cards (ps : list Player) (h : heap) : list Card :=
  concat ((fun p => cards_of h (hand p)) <$> ps).

(** A table in order: deck, pile and hands are separate lists, the game
    has the 53 cards of a new deck, every player holds ten cards and a
    card lies on the discard pile. *)
Definition table_ok (self : RummyGame) (h : heap) : Prop :=
  game_wf self h
  /\ all_cards self h ≡ₚ new_deck
  /\ (forall p, p ∈ players self -> length (cards_of h (hand p)) = 10%nat)
  /\ pile_nonempty self h.

(** What a finished draw phase keeps of the game [self] in [h]: the
    lists stay separate objects, players, wild card and discard pile are
    the same objects, the cards of the game are the same cards, the hand
    of the player at turn has as many cards as before, the other hands
    are untouched, and the discard pile is not empty. *)
Definition draw_keeps (self : RummyGame) (player : Player) (h : heap)
    (self' : RummyGame) (h' : heap) : Prop :=
  game_wf self' h'
  /\ players self' = players self
  /\ wild_card self' = wild_card self
  /\ discard_card_pile self' = discard_card_pile self
  /\ all_cards self' h' ≡ₚ all_cards self h
  /\ card_count self' h' = card_count self h
  /\ length (cards_of h' (hand player)) = length (cards_of h (hand player))
  /\ (forall q, q ∈ players self -> hand q <> hand player ->
      h' !! hand q = h !! hand q)
  /\ pile_nonempty self' h'.

(** ** Python primitives: basic facts *)

Lemma py_norm_index_nat n i :
  (i < n)%nat -> py_norm_index n (Z.of_nat i) = Some i.
Proof.
  intros Hi. unfold py_norm_index.
  destruct (Z.ltb_spec (Z.of_nat i) 0) as [?|_]; [lia|].
  destruct (Z.ltb_spec (Z.of_nat i) 0) as [?|_]; [lia|].
  destruct (Z.leb_spec (Z.of_nat n) (Z.of_nat i)) as [?|_]; [lia|].
  simpl. by rewrite Nat2Z.id.
Qed.

Lemma py_norm_index_Some n k i :
  py_norm_index n k = Some i ->
  (i < n)%nat /\ (Z.of_nat i = k \/ Z.of_nat i = k + Z.of_nat n /\ k < 0).
Proof.
  unfold py_norm_index. intros H.
  destruct (Z.ltb_spec k 0) as [Hk|Hk];
    match type of H with
    | (if (?a <? 0) || (?b <=? ?c) then _ else _) = _ =>
        destruct (Z.ltb_spec a 0); destruct (Z.leb_spec b c)
    end; simplify_eq/=; lia.
Qed.

Lemma py_norm_index_too_big n k :
  Z.of_nat n <= k -> py_norm_index n k = None.
Proof.
  intros Hk. unfold py_norm_index.
  destruct (Z.ltb_spec k 0) as [?|_]; [lia|].
  destruct (Z.leb_spec (Z.of_nat n) k) as [_|?]; [|lia].
  by rewrite orb_true_r.
Qed.

Lemma py_getitem_nat {A} (l : list A) i x :
  l !! i = Some x -> py_getitem l (Z.of_nat i) = Ok x.
Proof.
  intros Hx. unfold py_getitem.
  rewrite py_norm_index_nat by (by eapply lookup_lt_Some). by rewrite Hx.
Qed.

Lemma py_pop_nat {A} (l : list A) i x :
  l !! i = Some x -> py_pop l (Z.of_nat i) = Ok (x, delete i l).
Proof.
  intros Hx. unfold py_pop.
  rewrite py_norm_index_nat by (by eapply lookup_lt_Some). by rewrite Hx.
Qed.

Lemma py_getitem_too_big {A} (l : list A) k :
  Z.of_nat (length l) <= k -> py_getitem l k = Raise IndexError.
Proof. intros Hk. unfold py_getitem. by rewrite py_norm_index_too_big. Qed.

Lemma py_getitem_minus_one {A} (l : list A) x :
  py_getitem (l ++ [x]) (-1) = Ok x.
Proof.
  unfold py_getitem, py_norm_index. rewrite length_app. simpl.
  destruct (Z.ltb_spec (-1 + Z.of_nat (length l + 1)) 0) as [?|_]; [lia|].
  destruct (Z.leb_spec (Z.of_nat (length l + 1)) (-1 + Z.of_nat (length l + 1)))
    as [?|_]; [lia|].
  simpl. replace (Z.to_nat (-1 + Z.of_nat (length l + 1))) with (length l) by lia.
  by rewrite list_lookup_middle.
Qed.

Lemma py_getitem_raises {A} (l : list A) k e :
  py_getitem l k = Raise e -> e = IndexError.
Proof.
  unfold py_getitem. destruct (py_norm_index _ _); [destruct (l !! _)|];
    congruence.
Qed.

Lemma py_getitem_last_index {A} (l : list A) :
  l <> [] -> py_getitem l (0 - 1) = py_getitem l (Z.of_nat (length l) - 1).
Proof.
  intros Hl. destruct (exists_last Hl) as (l' & x & ->).
  rewrite length_app. simpl.
  replace (0 - 1) with (-1) by lia. rewrite py_getitem_minus_one.
  replace (Z.of_nat (length l' + 1) - 1) with (Z.of_nat (length l')) by lia.
  apply eq_sym, py_getitem_nat, list_lookup_middle. done.
Qed.

(** ** Resolving a selection *)

Lemma comprehension_length {A B} (f : A -> result B) l ys :
  comprehension f l = Ok ys -> length ys = length l.
Proof.
  revert ys. induction l as [|x l IH]; intros ys H; simpl in H.
  - by simplify_eq.
  - destruct (f x); simpl in H; [|done].
    destruct (comprehension f l); simpl in H; [|done].
    simplify_eq. simpl. f_equal. by apply IH.
Qed.

Lemma comprehension_ext {A B} (f g : A -> result B) l :
  (forall x, f x = g x) -> comprehension f l = comprehension g l.
Proof. intros Hfg. induction l as [|x l IH]; simpl; [done|]. by rewrite Hfg, IH. Qed.

Lemma comprehension_fmap {A B C} (f : B -> result C) (g : A -> B) l :
  comprehension f (g <$> l) = comprehension (fun x => f (g x)) l.
Proof. induction l as [|x l IH]; csimpl; [done|]. by rewrite IH. Qed.

Lemma resolve_length hand cards_ind cards :
  resolve hand cards_ind = Ok cards -> length cards = length cards_ind.
Proof. apply comprehension_length. Qed.

Lemma resolve_raises hand cards_ind e :
  resolve hand cards_ind = Raise e -> e = IndexError.
Proof.
  unfold resolve. induction cards_ind as [|i l IH]; simpl; [done|].
  destruct (py_getitem hand (i - 1)) eqn:Hi; simpl.
  - destruct (comprehension _ l); simpl; [done|]. intros ?; simplify_eq. by apply IH.
  - intros ?; simplify_eq. by eapply py_getitem_raises.
Qed.

Lemma resolve_too_big hand cards_ind i :
  i ∈ cards_ind -> Z.of_nat (length hand) < i ->
  resolve hand cards_ind = Raise IndexError.
Proof.
  intros Hin Hi. destruct (resolve hand cards_ind) as [cards|e] eqn:Hr.
  - exfalso. revert cards Hr. unfold resolve.
    induction Hin as [i l|i j l _ IH]; intros cards; simpl.
    + rewrite py_getitem_too_big by lia. done.
    + destruct (py_getitem hand (j - 1)); simpl; [|done].
      destruct (comprehension _ l) eqn:Hl; simpl; [|done].
      intros _. by eapply IH.
  - f_equal. by eapply resolve_raises.
Qed.

Lemma resolve_zero_as_last hand cards_ind :
  hand <> [] ->
  resolve hand cards_ind = resolve hand (zero_as_last hand <$> cards_ind).
Proof.
  intros Hne. unfold resolve.
  rewrite (comprehension_fmap _ (zero_as_last hand)).
  apply comprehension_ext. intros ind. unfold zero_as_last.
  destruct (decide (ind = 0)) as [->|]; [|done].
  by apply py_getitem_last_index.
Qed.

(** ** The loop of [is_valid_set] *)

Lemma set_loop_exhausted wild_card fuel i cards jc :
  cards !! i = None -> set_loop wild_card fuel i cards jc = Ok (cards, jc).
Proof. intros H. destruct fuel; simpl; [done|]. by rewrite H. Qed.

Lemma set_loop_kept wild_card fuel pre l jc :
  (length l <= fuel)%nat ->
  set_loop wild_card fuel (length pre) (pre ++ l) jc
  = Ok (pre ++ (set_kept wild_card l).1, jc + (set_kept wild_card l).2).
Proof.
  revert pre l jc. induction fuel as [|fuel IH]; intros pre l jc Hf.
  - destruct l; simpl in *; [|lia]. by rewrite Z.add_0_r.
  - destruct l as [|c rest].
    { rewrite set_loop_exhausted by (apply lookup_ge_None_2; rewrite length_app; simpl; lia).
      simpl. by rewrite Z.add_0_r. }
    cbn [set_loop]. rewrite list_lookup_middle by done.
    destruct (is_wild wild_card c) eqn:Hc.
    + rewrite (py_pop_nat _ _ c) by (by apply list_lookup_middle). simpl.
      rewrite Hc. replace (delete (length pre) (pre ++ c :: rest)) with (pre ++ rest).
      2:{ clear. induction pre; simpl; [done|]. by f_equal. }
      destruct rest as [|d rest'].
      * rewrite set_loop_exhausted
          by (apply lookup_ge_None_2; rewrite length_app; simpl; lia).
        done.
      * replace (pre ++ d :: rest') with ((pre ++ [d]) ++ rest')
          by (by rewrite <- app_assoc).
        replace (S (length pre)) with (length (pre ++ [d]))
          by (rewrite length_app; simpl; lia).
        rewrite IH by (simpl in Hf; lia).
        destruct (set_kept wild_card rest') as [k n]. simpl.
        rewrite <- app_assoc. simpl. do 2 f_equal. lia.
    + simpl. rewrite Hc.
      replace (pre ++ c :: rest) with ((pre ++ [c]) ++ rest)
        by (by rewrite <- app_assoc).
      replace (S (length pre)) with (length (pre ++ [c]))
        by (rewrite length_app; simpl; lia).
      rewrite IH by (simpl in Hf; lia).
      destruct (set_kept wild_card rest) as [k n]. simpl.
      by rewrite <- app_assoc.
Qed.

Lemma set_loop_kept0 wild_card fuel cards :
  (length cards <= fuel)%nat ->
  set_loop wild_card fuel 0 cards 0
  = Ok ((set_kept wild_card cards).1, (set_kept wild_card cards).2).
Proof. intros Hf. exact (set_loop_kept wild_card fuel [] cards 0 Hf). Qed.

(** The rounds [is_valid_set] allows are enough: more fuel changes
    nothing. *)
Lemma set_loop_fuel wild_card fuel cards :
  (length cards <= fuel)%nat ->
  set_loop wild_card fuel 0 cards 0 = set_loop wild_card (length cards) 0 cards 0.
Proof. intros Hf. by rewrite !set_loop_kept0. Qed.

Lemma is_valid_set_kept hand cards_ind wild_card cards :
  (3 <= length cards_ind)%nat ->
  resolve hand cards_ind = Ok cards ->
  is_valid_set hand cards_ind wild_card
  = Ok [(distinct_ranks (set_kept wild_card cards).1 =? 1)%nat;
        (set_kept wild_card cards).2 =? 0].
Proof.
  intros Hlen Hr. unfold is_valid_set.
  destruct (Nat.ltb_spec (length cards_ind) 3) as [?|_]; [lia|].
  rewrite Hr. simpl. by rewrite set_loop_kept0.
Qed.

Lemma set_kept_cons wild_card c rest :
  set_kept wild_card (c :: rest)
  = if is_wild wild_card c then
      match rest with
      | [] => ([], 1)
      | d :: rest' => let '(k, n) := set_kept wild_card rest' in (d :: k, n + 1)
      end
    else let '(k, n) := set_kept wild_card rest in (c :: k, n).
Proof. done. Qed.





(** ** Sorting *)

Section py_sort_facts.
Context {A : Type}.
Implicit Types le : A -> A -> bool.

Lemma insert_sorted_perm le x l : insert_sorted le x l ≡ₚ x :: l.
Proof.
  induction l as [|y l IH]; simpl; [done|].
  destruct (le x y); [done|]. rewrite IH. apply Permutation_swap.
Qed.

Lemma py_sort_perm le l : py_sort le l ≡ₚ l.
Proof.
  induction l as [|x l IH]; simpl; [done|].
  fold (py_sort le l). by rewrite insert_sorted_perm, IH.
Qed.

Lemma py_sort_length le l : length (py_sort le l) = length l.
Proof. by rewrite py_sort_perm. Qed.

Lemma insert_sorted_Sorted le x l :
  (forall a b, le a b = false -> le b a = true) ->
  Sorted (fun a b => le a b = true) l ->
  Sorted (fun a b => le a b = true) (insert_sorted le x l).
Proof.
  intros Htot. induction 1 as [|y l Hl IH Hy]; simpl.
  - by repeat constructor.
  - destruct (le x y) eqn:Hxy.
    + constructor; [by constructor|by constructor].
    + constructor; [done|].
      destruct Hy as [|z l' Hyz]; simpl.
      * constructor. by apply Htot.
      * destruct (le x z); constructor; [by apply Htot|done].
Qed.

Lemma py_sort_Sorted le l :
  (forall a b, le a b = false -> le b a = true) ->
  Sorted (fun a b => le a b = true) (py_sort le l).
Proof.
  intros Htot. induction l as [|x l IH]; simpl; [constructor|].
  by apply insert_sorted_Sorted.
Qed.

Lemma insert_sorted_ext le1 le2 x l :
  (forall y, y ∈ l -> le1 x y = le2 x y) ->
  insert_sorted le1 x l = insert_sorted le2 x l.
Proof.
  induction l as [|y l IH]; intros H; simpl; [done|].
  rewrite (H y) by left. rewrite IH; [done|].
  intros z Hz. apply H. by right.
Qed.

Lemma py_sort_ext le1 le2 l :
  (forall x y, x ∈ l -> y ∈ l -> le1 x y = le2 x y) ->
  py_sort le1 l = py_sort le2 l.
Proof.
  induction l as [|x l IH]; intros H; simpl; [done|].
  fold (py_sort le1 l) (py_sort le2 l).
  rewrite IH by (intros; apply H; by right).
  apply insert_sorted_ext. intros y Hy. apply H; [left|right].
  by rewrite py_sort_perm in Hy.
Qed.
End py_sort_facts.

Lemma Sorted_lt_NoDup (l : list Z) : Sorted Z.lt l -> NoDup l.
Proof.
  intros Hl. apply (Sorted_StronglySorted _) in Hl.
  induction Hl as [|x l _ IH Hx]; constructor; [|done].
  intros Hin. rewrite Forall_forall in Hx. specialize (Hx _ Hin). lia.
Qed.

Lemma Sorted_le_NoDup_lt (l : list Z) : Sorted Z.le l -> NoDup l -> Sorted Z.lt l.
Proof.
  induction 1 as [|x l Hl IH Hx]; intros Hnd; [constructor|].
  apply NoDup_cons in Hnd as [Hx' Hnd]. constructor; [by apply IH|].
  destruct Hx as [|y l' Hxy]; constructor.
  assert (x <> y) by (intros ->; apply Hx'; left). lia.
Qed.

Lemma wilds_needed_cons2 r1 r2 rest :
  wilds_needed (r1 :: r2 :: rest)
  = (if 1 <? r2 - r1 then r2 - r1 - 1 else 0) + wilds_needed (r2 :: rest).
Proof. done. Qed.

Lemma wilds_needed_nonneg ranks : 0 <= wilds_needed ranks.
Proof.
  induction ranks as [|r1 [|r2 rest] IH]; simpl; [lia..|].
  simpl in IH. destruct (1 <? r2 - r1) eqn:E; [apply Z.ltb_lt in E|]; lia.
Qed.

(** ** The loops of [is_valid_run] *)

Lemma delete_middle {A} (pre : list A) x l : delete (length pre) (pre ++ x :: l) = pre ++ l.
Proof. induction pre; simpl; [done|]. by f_equal. Qed.

(** The first loop strips every wild card and counts them all. *)
Lemma run_strip_filter wild_card l pre i jc :
  Z.of_nat (length pre) = Z.of_nat i - jc ->
  run_strip wild_card (seq i (length l)) (pre ++ l) jc
  = Ok (pre ++ non_wilds wild_card l, jc + Z.of_nat (wild_count wild_card l)).
Proof.
  unfold non_wilds, wild_count, wilds.
  revert pre i jc. induction l as [|c l IH]; intros pre i jc Hpre.
  - simpl. by rewrite Z.add_0_r.
  - cbn [length seq run_strip]. rewrite <- Hpre.
    rewrite (py_getitem_nat _ _ c) by (by apply list_lookup_middle). simpl.
    rewrite !filter_cons. destruct (is_wild wild_card c) eqn:Hc.
    + rewrite (py_pop_nat _ _ c) by (by apply list_lookup_middle). simpl.
      rewrite delete_middle, IH by lia.
      do 2 f_equal. lia.
    + replace (pre ++ c :: l) with ((pre ++ [c]) ++ l) by (by rewrite <- app_assoc).
      rewrite IH by (rewrite length_app; simpl; lia).
      by rewrite <- app_assoc.
Qed.

Lemma run_strip_all wild_card cards :
  run_strip wild_card (seq 0 (length cards)) cards 0
  = Ok (non_wilds wild_card cards, Z.of_nat (wild_count wild_card cards)).
Proof. exact (run_strip_filter wild_card cards [] 0 0 eq_refl). Qed.

Lemma run_walk_pairs pre p l w :
  run_walk (seq (S (length pre)) (length l)) (pre ++ p :: l) w
  = Ok (walk_pairs p l w).
Proof.
  revert pre p w. induction l as [|c l IH]; intros pre p w; [done|].
  cbn [length seq run_walk walk_pairs].
  assert ((pre ++ p :: c :: l) !! S (length pre) = Some c) as Hc.
  { replace (pre ++ p :: c :: l) with ((pre ++ [p]) ++ c :: l)
      by (by rewrite <- app_assoc).
    replace (S (length pre)) with (length (pre ++ [p]))
      by (rewrite length_app; simpl; lia).
    by apply list_lookup_middle. }
  rewrite (py_getitem_nat _ _ c Hc). simpl.
  replace (Z.of_nat (S (length pre)) - 1) with (Z.of_nat (length pre)) by lia.
  rewrite (py_getitem_nat _ _ p) by (by apply list_lookup_middle). simpl.
  replace (pre ++ p :: c :: l) with ((pre ++ [p]) ++ c :: l)
    by (by rewrite <- app_assoc).
  specialize (IH (pre ++ [p]) c). rewrite length_app in IH. simpl in IH.
  replace (length pre + 1)%nat with (S (length pre)) in IH by lia.
  rewrite !IH. by repeat case_match.
Qed.

Lemma run_walk_all cards w :
  run_walk (seq 1 (length cards - 1)) cards w
  = Ok (match cards with [] => true | p :: l => walk_pairs p l w end).
Proof.
  destruct cards as [|p l]; [done|]. simpl length.
  replace (S (length l) - 1)%nat with (length l) by lia.
  exact (run_walk_pairs [] p l w).
Qed.

(** On a list sorted by [(suit, rank)] the walk succeeds exactly when the
    suit never changes, the ranks strictly ascend, and the budget covers
    the gaps. *)
Lemma walk_pairs_iff p l w :
  0 <= w ->
  Sorted (fun a b => suit_rank_le a b = true) (p :: l) ->
  walk_pairs p l w = true <->
  Forall (fun c => suit c = suit p) l
  /\ Sorted Z.lt (rank <$> p :: l)
  /\ wilds_needed (rank <$> p :: l) <= w.
Proof.
  revert p w. induction l as [|c l IH]; intros p w Hw Hs.
  - simpl. split; [intros _|done]. repeat split; [done|by repeat constructor|done].
  - apply Sorted_inv in Hs as [Hs Hpc]. apply HdRel_inv in Hpc.
    unfold suit_rank_le in Hpc.
    cbn [walk_pairs]. rewrite !fmap_cons, wilds_needed_cons2, Forall_cons.
    rewrite <- fmap_cons.
    pose proof (wilds_needed_nonneg (rank <$> c :: l)) as Hnn.
    specialize (IH c). revert IH Hnn.
    generalize (wilds_needed (rank <$> c :: l)). intros N IH Hnn.
    assert (Sorted Z.lt (rank p :: (rank <$> c :: l))
            <-> rank p < rank c /\ Sorted Z.lt (rank <$> c :: l)) as ->.
    { rewrite fmap_cons. split.
      - intros [? Hhd]%Sorted_inv. by apply HdRel_inv in Hhd.
      - intros [? ?]. constructor; [done|by constructor]. }
    destruct (Z.eqb_spec (suit c) (suit p)) as [Hsuit|Hsuit]; simpl.
    2:{ split; [done|]. by intros [[? _] _]. }
    assert (Forall (fun c0 => suit c0 = suit p) l
            <-> Forall (fun c0 => suit c0 = suit c) l) as ->.
    { by rewrite Hsuit. }
    destruct (Z.eqb_spec (rank c) (rank p)) as [Hrank|Hrank]; simpl.
    { split; [done|]. intros (_ & [? _] & _). lia. }
    assert (rank p < rank c) as Hlt.
    { destruct (Z.ltb_spec (suit p) (suit c)); [lia|]. simpl in Hpc.
      apply andb_true_iff in Hpc as [_ Hle]. apply Z.leb_le in Hle. lia. }
    destruct (Z.eqb_spec (rank c) (rank p + 1)) as [Hone|Hone].
    { rewrite (IH w Hw Hs).
      destruct (Z.ltb_spec 1 (rank c - rank p)); [lia|].
      split; intros (? & ? & ?); split_and?; try done; try tauto; lia. }
    destruct (Z.ltb_spec 1 (rank c - rank p)); [|lia].
    destruct (Z.leb_spec (rank c) (w + rank p + 1)) as [Hfit|Hfit].
    + rewrite (IH (w - (rank c - rank p - 1)) ltac:(lia) Hs).
      split; intros (? & ? & ?); split_and?; try done; try tauto; lia.
    + split; [done|]. intros (_ & _ & Hn). lia.
Qed.

(** ** [is_valid_run] against the run rule *)

Lemma suit_rank_le_total a b : suit_rank_le a b = false -> suit_rank_le b a = true.
Proof.
  unfold suit_rank_le. intros H.
  destruct (Z.ltb_spec (suit a) (suit b)); [done|].
  destruct (Z.eqb_spec (suit a) (suit b)); simpl in H.
  - destruct (Z.leb_spec (rank a) (rank b)); [done|].
    destruct (Z.ltb_spec (suit b) (suit a)); [done|].
    destruct (Z.eqb_spec (suit b) (suit a)); [|congruence].
    destruct (Z.leb_spec (rank b) (rank a)); [done|lia].
  - destruct (Z.ltb_spec (suit b) (suit a)); [done|lia].
Qed.

Lemma rank_le_total a b : rank_le a b = false -> rank_le b a = true.
Proof.
  unfold rank_le. intros H.
  destruct (Z.leb_spec (rank a) (rank b)); [done|].
  destruct (Z.leb_spec (rank b) (rank a)); [done|lia].
Qed.

Lemma suit_rank_le_same_suit a b :
  suit a = suit b -> suit_rank_le a b = rank_le a b.
Proof.
  unfold suit_rank_le, rank_le. intros ->.
  by rewrite Z.ltb_irrefl, Z.eqb_refl.
Qed.

(** Cards of one suit sort the same by [(suit, rank)] and by rank. *)
Lemma py_sort_single_suit cards :
  single_suit cards -> py_sort suit_rank_le cards = py_sort rank_le cards.
Proof.
  intros Hs. apply py_sort_ext. intros x y Hx Hy.
  apply suit_rank_le_same_suit. by apply Hs.
Qed.

Lemma is_valid_run_walk hand cards_ind wild_card cards :
  (3 <= length cards_ind)%nat ->
  resolve hand cards_ind = Ok cards ->
  is_valid_run hand cards_ind wild_card
  = if match py_sort suit_rank_le (non_wilds wild_card cards) with
       | [] => true
       | p :: l => walk_pairs p l (Z.of_nat (wild_count wild_card cards))
       end
    then Ok [true; Z.of_nat (wild_count wild_card cards) =? 0]
    else Ok [false].
Proof.
  intros Hlen Hr. unfold is_valid_run.
  destruct (Nat.ltb_spec (length cards_ind) 3) as [?|_]; [lia|].
  rewrite Hr. simpl.
  rewrite run_strip_all. simpl.
  rewrite run_walk_all. simpl. by case_match.
Qed.

(** The walk over the sorted non-wild cards succeeds exactly when the run
    rule holds. *)
Lemma walk_sorted_iff_run_rule wild_card cards :
  match py_sort suit_rank_le (non_wilds wild_card cards) with
  | [] => true
  | p :: l => walk_pairs p l (Z.of_nat (wild_count wild_card cards))
  end = true
  <-> spec_run_rule wild_card cards.
Proof.
  unfold spec_run_rule. generalize (wild_count wild_card cards) as w.
  generalize (non_wilds wild_card cards) as nw. intros nw w.
  pose proof (py_sort_perm suit_rank_le nw) as Hperm.
  pose proof (py_sort_Sorted suit_rank_le nw suit_rank_le_total) as Hsorted.
  destruct (py_sort suit_rank_le nw) as [|p l] eqn:HS.
  { apply Permutation_nil_l in Hperm as <-. simpl.
    split; [intros _|done]. split_and!; [by intros ?? ?%elem_of_nil|constructor|lia]. }
  rewrite walk_pairs_iff by (done || lia).
  assert (single_suit nw <-> Forall (fun c => suit c = suit p) l) as Hsuit.
  { split.
    - intros Hs. apply Forall_forall. intros c Hc.
      apply Hs; rewrite <- Hperm; [by right|by left].
    - intros Hf c d Hc Hd. rewrite Forall_forall in Hf.
      rewrite <- Hperm in Hc, Hd.
      apply elem_of_cons in Hc as [->|Hc]; apply elem_of_cons in Hd as [->|Hd];
        rewrite ?(Hf _ Hc), ?(Hf _ Hd); done. }
  rewrite <- Hsuit.
  split.
  - intros (Hs & Hlt & Hn). rewrite <- (py_sort_single_suit nw Hs), HS.
    split_and!; [done|by apply Sorted_lt_NoDup|done].
  - intros (Hs & Hnd & Hn). rewrite <- (py_sort_single_suit nw Hs), HS in Hnd, Hn.
    split_and!; [done| |done].
    apply Sorted_le_NoDup_lt; [|done].
    rewrite <- HS, (py_sort_single_suit nw Hs).
    eapply (Sorted_fmap rank (fun a b => rank_le a b = true));
      [|apply py_sort_Sorted, rank_le_total].
    intros a b. unfold rank_le. apply Z.leb_le.
Qed.

(** ** [is_valid_set] against the set rule *)




(** Both validators depend on the selection only through its length and
    the cards it resolves to. *)
Lemma is_valid_set_resolve hand inds inds' wild_card :
  length inds = length inds' -> resolve hand inds = resolve hand inds' ->
  is_valid_set hand inds wild_card = is_valid_set hand inds' wild_card.
Proof. intros Hl Hr. unfold is_valid_set. by rewrite Hl, Hr. Qed.

Lemma is_valid_run_resolve hand inds inds' wild_card :
  length inds = length inds' -> resolve hand inds = resolve hand inds' ->
  is_valid_run hand inds wild_card = is_valid_run hand inds' wild_card.
Proof. intros Hl Hr. unfold is_valid_run. by rewrite Hl, Hr. Qed.

Lemma is_valid_set_raise hand inds wild_card e :
  (3 <= length inds)%nat -> resolve hand inds = Raise e ->
  is_valid_set hand inds wild_card = Raise e.
Proof.
  intros Hl Hr. unfold is_valid_set.
  destruct (Nat.ltb_spec (length inds) 3); [lia|]. by rewrite Hr.
Qed.

Lemma is_valid_run_raise hand inds wild_card e :
  (3 <= length inds)%nat -> resolve hand inds = Raise e ->
  is_valid_run hand inds wild_card = Raise e.
Proof.
  intros Hl Hr. unfold is_valid_run.
  destruct (Nat.ltb_spec (length inds) 3); [lia|]. by rewrite Hr.
Qed.

(** Fewer than three indices: invalid, before any index is read. *)
Lemma validators_short_selection hand inds wild_card :
  (length inds < 3)%nat ->
  is_valid_set hand inds wild_card = Ok [false]
  /\ is_valid_run hand inds wild_card = Ok [false].
Proof.
  intros Hl. unfold is_valid_set, is_valid_run.
  destruct (Nat.ltb_spec (length inds) 3); [done|lia].
Qed.

(** ** The validators: main results *)




(** Where two wild cards are submitted next to each other the loop of
    [is_valid_set] leaves the second one among the cards it compares:
    a jack with two wild cards is turned down. *)
Lemma is_valid_set_adjacent_wilds :
  is_valid_set [spadeJ; diamond8; spade8] [1; 2; 3] club8 = Ok [false; false]
  /\ is_valid_set [diamond8; spadeJ; spade8] [1; 2; 3] club8 = Ok [true; false].
Proof. split; reflexivity. Qed.

(** C3.  For a selection of at least three indices [is_valid_run] reports
    a valid run exactly when the selection resolves to cards that satisfy
    the run rule: the non-wild cards share one suit, sorted by rank no two
    of them have the same rank, and the gaps between neighbours ask for no
    more wild cards than the selection has (wild cards left over do no
    harm); a selection that resolves and breaks the rule is answered
    [[False]].  With an 8 turned up, hearts 3, spades 8, hearts 5 is a
    valid run and not a natural one. *)
Theorem is_valid_run_rule :
  (forall hand cards_ind wild_card,
     (3 <= length cards_ind)%nat ->
     (isValid (is_valid_run hand cards_ind wild_card)
      <-> exists cards, resolve hand cards_ind = Ok cards /\ spec_run_rule wild_card cards)
     /\ (forall cards, resolve hand cards_ind = Ok cards ->
         ~ spec_run_rule wild_card cards ->
         is_valid_run hand cards_ind wild_card = Ok [false]))
  /\ (forall wild_card, rank wild_card = 8 ->
      is_valid_run [heart3; spade8; heart5] [1; 2; 3] wild_card = Ok [true; false]).
Proof.
  split.
  - intros hand cards_ind wild_card Hlen.
    destruct (resolve hand cards_ind) as [cards|e] eqn:Hr.
    + rewrite (is_valid_run_walk _ _ _ _ Hlen Hr).
      pose proof (walk_sorted_iff_run_rule wild_card cards) as Hiff.
      destruct (match py_sort suit_rank_le (non_wilds wild_card cards) with
                | [] => true
                | p :: l => walk_pairs p l (Z.of_nat (wild_count wild_card cards))
                end).
      * split.
        -- split; [intros _; exists cards; split; [done|by apply Hiff]|].
           intros _. eexists. split; [done|done].
        -- intros cards' [= <-] Hn. destruct Hn. by apply Hiff.
      * split; [|done]. split.
        -- intros (flag & [= <-] & Hf). done.
        -- intros (cards' & [= <-] & Hrule). apply Hiff in Hrule. done.
    + rewrite (is_valid_run_raise _ _ _ _ Hlen Hr). split; [|done]. split.
      * intros (flag & ? & _). done.
      * intros (cards & ? & _). done.
  - intros [s r] Hr. simpl in Hr. subst r. reflexivity.
Qed.

Lemma is_valid_run_rule_witness :
  (3 <= length [1; 2; 3])%nat
  /\ (isValid (is_valid_run [heart3; spade8; heart5] [1; 2; 3] club8)
      <-> exists cards,
          resolve [heart3; spade8; heart5] [1; 2; 3] = Ok cards /\ spec_run_rule club8 cards)
  /\ rank club8 = 8
  /\ is_valid_run [heart3; spade8; heart5] [1; 2; 3] club8 = Ok [true; false].
Proof.
  split; [simpl; lia|]. split.
  - apply (proj1 is_valid_run_rule [heart3; spade8; heart5] [1; 2; 3] club8).
    simpl; lia.
  - split; [reflexivity|].
    apply (proj2 is_valid_run_rule club8). reflexivity.
Defined.

Lemma all_wild_non_wilds wild_card cards :
  Forall (fun c => is_wild wild_card c = true) cards ->
  non_wilds wild_card cards = [] /\ wild_count wild_card cards = length cards.
Proof.
  unfold non_wilds, wild_count, wilds.
  induction 1 as [|c l Hc _ [IH1 IH2]]; [done|].
  rewrite !filter_cons. repeat case_decide; try done. simpl. by rewrite IH2.
Qed.

(** C4, as amended.  A selection of at least three indices whose cards are
    all wild is reported by [is_valid_run] as a valid run that is not
    natural: with no non-wild card left its second loop has nothing to
    turn down. *)
Theorem all_wild_run_is_valid hand cards_ind wild_card cards :
  (3 <= length cards_ind)%nat ->
  resolve hand cards_ind = Ok cards ->
  Forall (fun c => is_wild wild_card c = true) cards ->
  is_valid_run hand cards_ind wild_card = Ok [true; false].
Proof.
  intros Hlen Hr Hall. rewrite (is_valid_run_walk _ _ _ _ Hlen Hr).
  destruct (all_wild_non_wilds _ _ Hall) as [-> ->]. simpl.
  apply resolve_length in Hr.
  destruct (Z.eqb_spec (Z.of_nat (length cards)) 0); [lia|done].
Qed.

Lemma all_wild_run_is_valid_witness :
  (3 <= length [1; 2; 3])%nat
  /\ resolve [joker; spade8; diamond8] [1; 2; 3] = Ok [joker; spade8; diamond8]
  /\ Forall (fun c => is_wild club8 c = true) [joker; spade8; diamond8]
  /\ is_valid_run [joker; spade8; diamond8] [1; 2; 3] club8 = Ok [true; false].
Proof.
  assert (Forall (fun c => is_wild club8 c = true) [joker; spade8; diamond8]) as Hall.
  { repeat constructor. }
  split; [simpl; lia|]. split; [reflexivity|]. split; [exact Hall|].
  apply (all_wild_run_is_valid _ _ _ [joker; spade8; diamond8]);
    [simpl; lia|reflexivity|exact Hall].
Defined.

(** C4, as stated, fails: the joker and two eights, all wild, are accepted
    by both validators. *)
Lemma all_wild_selection_accepted :
  Forall (fun c => is_wild club8 c = true) [joker; spade8; diamond8]
  /\ is_valid_set [joker; spade8; diamond8] [1; 2; 3] club8 = Ok [true; false]
  /\ is_valid_run [joker; spade8; diamond8] [1; 2; 3] club8 = Ok [true; false].
Proof. split; [repeat constructor|split; reflexivity]. Qed.



(** C10, as amended.  For a selection of at least three indices both
    validators read [hand[i-1]] for each index [i] without a range check:
    on a hand that is not empty an index 0 selects the last card, the one
    the index [len(hand)] selects, and an index greater than the length
    of the hand makes the validator raise [IndexError] instead of
    answering. *)
Theorem validators_read_unchecked_indices hand cards_ind wild_card :
  (3 <= length cards_ind)%nat ->
  (hand <> [] ->
     resolve hand cards_ind = resolve hand (zero_as_last hand <$> cards_ind)
     /\ is_valid_set hand cards_ind wild_card
        = is_valid_set hand (zero_as_last hand <$> cards_ind) wild_card
     /\ is_valid_run hand cards_ind wild_card
        = is_valid_run hand (zero_as_last hand <$> cards_ind) wild_card)
  /\ (forall i, i ∈ cards_ind -> Z.of_nat (length hand) < i ->
      is_valid_set hand cards_ind wild_card = Raise IndexError
      /\ is_valid_run hand cards_ind wild_card = Raise IndexError).
Proof.
  intros Hlen. split.
  - intros Hne. pose proof (resolve_zero_as_last hand cards_ind Hne) as Hr.
    split_and!; [done|..].
    + apply is_valid_set_resolve; [by rewrite length_fmap|done].
    + apply is_valid_run_resolve; [by rewrite length_fmap|done].
  - intros i Hin Hi. pose proof (resolve_too_big _ _ _ Hin Hi) as Hr.
    split; [by apply is_valid_set_raise|by apply is_valid_run_raise].
Qed.

Lemma validators_read_unchecked_indices_witness :
  (3 <= length [0; 1; 2])%nat
  /\ [spadeJ; diamondJ; heartJ] <> []
  /\ is_valid_set [spadeJ; diamondJ; heartJ] [0; 1; 2] club8
     = is_valid_set [spadeJ; diamondJ; heartJ] [3; 1; 2] club8
  /\ (3 <= length [1; 2; 4])%nat
  /\ 4 ∈ [1; 2; 4]
  /\ Z.of_nat (length [spadeJ; diamondJ; heartJ]) < 4
  /\ is_valid_run [spadeJ; diamondJ; heartJ] [1; 2; 4] club8 = Raise IndexError.
Proof.
  assert (4 ∈ [1; 2; 4]) as Hin by (do 2 right; left).
  split; [simpl; lia|]. split; [discriminate|]. split.
  - apply (proj1 (validators_read_unchecked_indices
             [spadeJ; diamondJ; heartJ] [0; 1; 2] club8 ltac:(simpl; lia))).
    discriminate.
  - split; [simpl; lia|]. split; [exact Hin|]. split; [simpl; lia|].
    apply (proj2 (validators_read_unchecked_indices
             [spadeJ; diamondJ; heartJ] [1; 2; 4] club8 ltac:(simpl; lia)) 4 Hin).
    simpl; lia.
Defined.

(** C10, as stated, fails: with fewer than three indices the validators
    answer [[False]] before they read any index, also when one of them is
    greater than the length of the hand. *)
Lemma short_selection_out_of_range_not_raised :
  7 ∈ [7; 1]
  /\ Z.of_nat (length [spadeJ; diamondJ; heartJ]) < 7
  /\ is_valid_set [spadeJ; diamondJ; heartJ] [7; 1] club8 = Ok [false]
  /\ is_valid_run [spadeJ; diamondJ; heartJ] [7; 1] club8 = Ok [false].
Proof. split; [left|]. split; [simpl; lia|]. split; reflexivity. Qed.

(** ** List objects: equations *)

Lemma hm_bind_eq {A B} (m : hm A) (f : A -> hm B) h :
  (m ≫= f) h
  = match m h with
    | Done a h' => f a h'
    | Crash e h' => Crash e h'
    end.
Proof. done. Qed.

Lemma list_read_eq l h v : h !! l = Some v -> list_read l h = Done v h.
Proof. intros H. unfold list_read. by rewrite H. Qed.

Lemma list_getitem_eq l k h v :
  h !! l = Some v ->
  list_getitem l k h
  = match py_getitem v k with
    | Ok x => Done x h
    | Raise e => Crash e h
    end.
Proof.
  intros H. unfold list_getitem. rewrite hm_bind_eq, (list_read_eq _ _ _ H).
  done.
Qed.

Lemma list_pop_eq l k h v :
  h !! l = Some v ->
  list_pop l k h
  = match py_pop v k with
    | Ok (x, v') => Done x (<[l := v']> h)
    | Raise e => Crash e h
    end.
Proof.
  intros H. unfold list_pop. rewrite hm_bind_eq, (list_read_eq _ _ _ H).
  rewrite hm_bind_eq. unfold lift. destruct (py_pop v k) as [[x v']|e]; done.
Qed.

Lemma list_append_eq l x h v :
  h !! l = Some v -> list_append l x h = Done () (<[l := v ++ [x]]> h).
Proof.
  intros H. unfold list_append. by rewrite hm_bind_eq, (list_read_eq _ _ _ H).
Qed.

Lemma deepcopy_eq l h v :
  h !! l = Some v ->
  deepcopy l h = Done (fresh (dom h)) (<[fresh (dom h) := v]> h).
Proof.
  intros H. unfold deepcopy. by rewrite hm_bind_eq, (list_read_eq _ _ _ H).
Qed.

Lemma fresh_loc_ne (h : heap) l v : h !! l = Some v -> fresh (dom h) <> l.
Proof.
  intros H Heq. apply (is_fresh (dom h)). rewrite Heq. by eapply elem_of_dom_2.
Qed.

Lemma py_pop_inv {A} (l : list A) k x l' :
  py_pop l k = Ok (x, l') ->
  exists i, l !! i = Some x /\ l' = delete i l /\ py_getitem l k = Ok x.
Proof.
  unfold py_pop, py_getitem. destruct (py_norm_index (length l) k) as [i|]; [|done].
  destruct (l !! i) eqn:Hi; [|done]. intros [= <- <-]. eauto.
Qed.

Lemma py_pop_getitem {A} (l : list A) k e :
  py_pop l k = Raise e -> py_getitem l k = Raise e.
Proof.
  unfold py_pop, py_getitem.
  destruct (py_norm_index (length l) k) as [i|]; [|by intros [= <-]].
  destruct (l !! i); [done|by intros [= <-]].
Qed.

(** ** Removing a group *)

Lemma keep_from_skip pos i s hand :
  i < pos -> keep_from pos (i :: s) hand = keep_from pos s hand.
Proof.
  revert pos. induction hand as [|c hand IH]; intros pos Hi; [done|]. simpl.
  rewrite !IH by lia.
  destruct (decide (pos ∈ i :: s)) as [Hin|Hin], (decide (pos ∈ s)) as [Hin'|Hin'];
    try done.
  - apply elem_of_cons in Hin as [->|?]; [lia|done].
  - destruct Hin. by right.
Qed.

Lemma keep_from_ext pos s s' hand :
  (forall i, i ∈ s <-> i ∈ s') -> keep_from pos s hand = keep_from pos s' hand.
Proof.
  intros Hs. revert pos. induction hand as [|c hand IH]; intros pos; [done|].
  simpl. rewrite IH.
  destruct (decide (pos ∈ s)) as [Hin|Hin], (decide (pos ∈ s')) as [Hin'|Hin'];
    try done; by apply Hs in Hin || (destruct Hin; by apply Hs).
Qed.

(** Taking out the lowest index first: the rest is removed from the
    shorter list with positions counted one further. *)
Lemma keep_from_delete pos i s hand :
  pos <= i -> Forall (fun j => i < j) s ->
  keep_from pos (i :: s) hand
  = keep_from (pos + 1) s (delete (Z.to_nat (i - pos)) hand).
Proof.
  intros Hpos Hs. revert pos Hpos.
  induction hand as [|c hand IH]; intros pos Hpos; [done|].
  cbn [keep_from]. destruct (decide (i = pos)) as [->|Hne].
  - rewrite decide_True by left. rewrite Z.sub_diag. simpl.
    apply keep_from_skip. lia.
  - rewrite decide_False.
    2:{ intros [->|Hin]%elem_of_cons; [done|].
        rewrite Forall_forall in Hs. specialize (Hs _ Hin). lia. }
    replace (Z.to_nat (i - pos)) with (S (Z.to_nat (i - (pos + 1)))) by lia.
    cbn [delete list_delete keep_from]. rewrite decide_False.
    2:{ intros Hin. rewrite Forall_forall in Hs. specialize (Hs _ Hin). lia. }
    f_equal. apply IH. lia.
Qed.

(** Taking out the lowest index last. *)
Lemma delete_keep_from pos i s hand :
  pos <= i -> Forall (fun j => i < j) s ->
  delete (Z.to_nat (i - pos)) (keep_from pos s hand) = keep_from pos (i :: s) hand.
Proof.
  intros Hpos Hs. revert pos Hpos.
  induction hand as [|c hand IH]; intros pos Hpos; [done|].
  cbn [keep_from].
  assert (pos ∉ s) as Hnot.
  { intros Hin. rewrite Forall_forall in Hs. specialize (Hs _ Hin). lia. }
  rewrite (decide_False (P := pos ∈ s)) by done.
  destruct (decide (i = pos)) as [->|Hne].
  - rewrite decide_True by left. rewrite Z.sub_diag. simpl.
    symmetry. apply keep_from_skip. lia.
  - rewrite decide_False by (intros [->|Hin]%elem_of_cons; done).
    replace (Z.to_nat (i - pos)) with (S (Z.to_nat (i - (pos + 1)))) by lia.
    cbn [delete list_delete]. f_equal. apply IH. lia.
Qed.

Lemma keep_from_nil pos hand : keep_from pos [] hand = hand.
Proof.
  revert pos. induction hand as [|c hand IH]; intros pos; [done|].
  cbn [keep_from]. rewrite decide_False by apply not_elem_of_nil. by rewrite IH.
Qed.

Lemma keep_from_length pos s hand :
  NoDup s -> Forall (fun i => pos <= i < pos + Z.of_nat (length hand)) s ->
  length (keep_from pos s hand) = (length hand - length s)%nat.
Proof.
  revert pos s. induction hand as [|c hand IH]; intros pos s Hnd Hs.
  { destruct s as [|i s]; [done|]. apply Forall_cons in Hs as [? _]. simpl in *. lia. }
  simpl. destruct (decide (pos ∈ s)) as [Hin|Hin].
  - apply list_elem_of_split in Hin as (s1 & s2 & ->).
    rewrite (keep_from_ext _ _ (pos :: s1 ++ s2)).
    2:{ intros i. rewrite !elem_of_app, !elem_of_cons, elem_of_app. tauto. }
    rewrite keep_from_skip by lia.
    apply NoDup_app in Hnd as (Hnd1 & Hdis & [Hnot Hnd2]%NoDup_cons).
    rewrite IH.
    + rewrite !length_app. simpl. lia.
    + apply NoDup_app. split_and!; [done| |done].
      intros x Hx Hx2. apply (Hdis x Hx). by right.
    + rewrite Forall_forall in Hs. apply Forall_forall. intros i Hi.
      assert (i <> pos).
      { intros ->. apply elem_of_app in Hi as [Hi|Hi]; [|done].
        apply (Hdis pos Hi). left. }
      assert (pos <= i < pos + Z.of_nat (length (c :: hand))).
      { apply Hs. rewrite elem_of_app, elem_of_cons. rewrite elem_of_app in Hi. tauto. }
      simpl in *. lia.
  - simpl. rewrite IH; [|done|].
    + assert (length s <= length hand)%nat; [|lia].
      clear IH. rewrite Forall_forall in Hs.
      assert (Forall (fun i => pos + 1 <= i < pos + 1 + Z.of_nat (length hand)) s) as Hs'.
      { apply Forall_forall. intros i Hi. specialize (Hs i Hi).
        assert (i <> pos) by (by intros ->). simpl in *. lia. }
      clear Hs Hin. revert pos s Hnd Hs'. induction hand as [|d hand IH];
        intros pos s Hnd Hs'.
      { destruct s as [|i s]; [done|]. apply Forall_cons in Hs' as [? _]. simpl in *. lia. }
      destruct (decide (pos + 1 ∈ s)) as [Hin|Hin].
      * apply list_elem_of_split in Hin as (s1 & s2 & ->).
        apply NoDup_app in Hnd as (Hnd1 & Hdis & [Hnot Hnd2]%NoDup_cons).
        specialize (IH (pos + 1) (s1 ++ s2)). rewrite !length_app in *. simpl.
        assert (length s1 + length s2 <= length hand)%nat; [|lia].
        apply IH.
        -- apply NoDup_app. split_and!; [done| |done].
           intros x Hx Hx2. apply (Hdis x Hx). by right.
        -- rewrite Forall_forall in Hs'. apply Forall_forall. intros i Hi.
           assert (i <> pos + 1).
           { intros ->. apply elem_of_app in Hi as [Hi|Hi]; [|done].
             apply (Hdis _ Hi). left. }
           assert (pos + 1 <= i < pos + 1 + Z.of_nat (length (d :: hand))).
           { apply Hs'. rewrite elem_of_app, elem_of_cons. rewrite elem_of_app in Hi. tauto. }
           simpl in *. lia.
      * specialize (IH (pos + 1) s Hnd). simpl.
        assert (length s <= length hand)%nat; [|lia]. apply IH.
        rewrite Forall_forall in Hs'. apply Forall_forall. intros i Hi.
        specialize (Hs' i Hi). assert (i <> pos + 1) by (by intros ->).
        simpl in *. lia.
    + rewrite Forall_forall in Hs. apply Forall_forall. intros i Hi.
      specialize (Hs i Hi). assert (i <> pos) by (by intros ->). simpl in *. lia.
Qed.

Lemma Sorted_weaken {A} (R1 R2 : relation A) l :
  (forall x y, R1 x y -> R2 x y) -> Sorted R1 l -> Sorted R2 l.
Proof.
  intros HR. induction 1 as [|x l Hl IH Hx]; constructor; [done|].
  destruct Hx; constructor. by apply HR.
Qed.

Lemma Sorted_lt_Forall i s : Sorted Z.lt (i :: s) -> Forall (fun j => i < j) s.
Proof.
  intros Hs. apply (Sorted_StronglySorted _) in Hs.
  by apply StronglySorted_inv in Hs as [_ ?].
Qed.

(** The indices as [card_ind.sort()] leaves them. *)
Lemma sorted_indices card_ind :
  NoDup card_ind ->
  Sorted Z.lt (py_sort Z.leb card_ind)
  /\ (forall i, i ∈ py_sort Z.leb card_ind <-> i ∈ card_ind).
Proof.
  intros Hnd. split.
  - apply Sorted_le_NoDup_lt.
    + eapply Sorted_weaken; [|apply py_sort_Sorted].
      * intros x y. apply Z.leb_le.
      * intros a b Hab. apply Z.leb_gt in Hab. apply Z.leb_le. lia.
    + by rewrite py_sort_perm.
  - intros i. by rewrite py_sort_perm.
Qed.

(** The loop of lines 257-259 on ascending indices takes out exactly the
    cards at those positions. *)
Lemma pop_each_keep l s d hand h :
  h !! l = Some hand ->
  Sorted Z.lt s ->
  Forall (fun i => d + 1 <= i <= d + Z.of_nat (length hand)) s ->
  pop_each l s d h = Done () (<[l := keep_from (d + 1) s hand]> h).
Proof.
  revert d hand h. induction s as [|i s IH]; intros d hand h Hl Hs Hr.
  - simpl. by rewrite keep_from_nil, insert_id.
  - apply Forall_cons in Hr as [Hi Hr].
    pose proof (Sorted_lt_Forall _ _ Hs) as Hgt.
    apply Sorted_inv in Hs as [Hs _].
    cbn [pop_each]. rewrite hm_bind_eq, (list_pop_eq _ _ _ _ Hl).
    destruct (lookup_lt_is_Some_2 hand (Z.to_nat (i - (d + 1)))) as [x Hx]; [lia|].
    replace (i - 1 - d) with (Z.of_nat (Z.to_nat (i - (d + 1)))) by lia.
    rewrite (py_pop_nat _ _ _ Hx).
    rewrite (IH (d + 1) (delete (Z.to_nat (i - (d + 1))) hand)).
    + rewrite insert_insert_eq. do 2 f_equal.
      symmetry. apply keep_from_delete; [lia|done].
    + by rewrite lookup_insert_eq.
    + done.
    + rewrite length_delete by eauto.
      rewrite Forall_forall in Hr, Hgt. apply Forall_forall. intros j Hj.
      specialize (Hr j Hj). specialize (Hgt j Hj).
      apply lookup_lt_Some in Hx. lia.
Qed.

(** Removing highest first gives the same cards. *)
Lemma foldr_delete_keep s hand :
  Sorted Z.lt s -> Forall (fun i => 1 <= i) s ->
  foldr (fun i hand => delete (Z.to_nat (i - 1)) hand) hand s = keep_from 1 s hand.
Proof.
  induction s as [|i s IH]; intros Hs Hr; simpl.
  - by rewrite keep_from_nil.
  - apply Forall_cons in Hr as [Hi Hr].
    pose proof (Sorted_lt_Forall _ _ Hs) as Hgt.
    apply Sorted_inv in Hs as [Hs _].
    rewrite IH by done. by apply delete_keep_from.
Qed.

Lemma sort_descending_reverse card_ind :
  NoDup card_ind ->
  py_sort (fun a b => b <=? a) card_ind = reverse (py_sort Z.leb card_ind).
Proof.
  intros Hnd.
  assert (Transitive (flip Z.le)) by (intros x y z; unfold flip; lia).
  assert (AntiSymm eq (flip Z.le)) by (intros x y; unfold flip; lia).
  apply (Sorted_unique (flip Z.le)).
  - eapply Sorted_weaken; [|apply py_sort_Sorted].
    + intros x y. unfold flip. apply Z.leb_le.
    + intros a b Hab. apply Z.leb_gt in Hab. apply Z.leb_le. lia.
  - apply Sorted_reverse. eapply Sorted_weaken; [|apply py_sort_Sorted].
    + intros x y. apply Z.leb_le.
    + intros a b Hab. apply Z.leb_gt in Hab. apply Z.leb_le. lia.
  - by rewrite reverse_Permutation, !py_sort_perm.
Qed.

Lemma spec_remove_highest_first_keep hand card_ind :
  NoDup card_ind -> Forall (fun i => 1 <= i) card_ind ->
  spec_remove_highest_first hand card_ind = keep_others hand card_ind.
Proof.
  intros Hnd Hr. unfold spec_remove_highest_first, keep_others.
  destruct (sorted_indices card_ind Hnd) as [Hs Hin].
  rewrite sort_descending_reverse by done.
  rewrite <- (keep_from_ext 1 (py_sort Z.leb card_ind) card_ind hand Hin).
  rewrite <- foldr_delete_keep; [|done|].
  - generalize (py_sort Z.leb card_ind) as s. intros s. revert hand.
    induction s as [|i s IH] using rev_ind; intros hand; [done|].
    rewrite reverse_snoc, foldr_snoc. simpl. by rewrite IH.
  - rewrite Forall_forall in Hr. apply Forall_forall. intros i Hi. by apply Hr, Hin.
Qed.

(** C5.  When the indices submitted are distinct and each names a card of
    the working hand, the removal step of [play] (sort the indices
    ascending, pop position [i-1-deleted_counter] for each) leaves in the
    working hand exactly the cards whose positions were not submitted, in
    their order, takes out as many cards as indices were given, touches
    no other list, and agrees with removing the indices highest first. *)
Theorem remove_group_removes_exactly player_hand card_ind hand h :
  h !! player_hand = Some hand ->
  NoDup card_ind ->
  Forall (fun i => 1 <= i <= Z.of_nat (length hand)) card_ind ->
  remove_group player_hand card_ind h
  = Done () (<[player_hand := keep_others hand card_ind]> h)
  /\ length (keep_others hand card_ind) = (length hand - length card_ind)%nat
  /\ keep_others hand card_ind = spec_remove_highest_first hand card_ind.
Proof.
  intros Hl Hnd Hr. destruct (sorted_indices card_ind Hnd) as [Hs Hin].
  split_and!.
  - unfold remove_group, keep_others.
    rewrite (pop_each_keep _ _ 0 hand) by
      (try done; rewrite Forall_forall in Hr; apply Forall_forall;
       intros i Hi; apply Hin, Hr in Hi; lia).
    do 2 f_equal. by apply keep_from_ext.
  - apply keep_from_length; [done|].
    eapply Forall_impl; [exact Hr|]. simpl. intros; lia.
  - symmetry. apply spec_remove_highest_first_keep; [done|].
    eapply Forall_impl; [exact Hr|]. simpl. intros; lia.
Qed.

Lemma remove_group_removes_exactly_witness :
  let hand := [heart3; spade8; heart5; spadeJ] in
  let h : heap := {[ 0%nat := hand ]} in
  h !! 0%nat = Some hand
  /\ NoDup [3; 1]
  /\ Forall (fun i => 1 <= i <= Z.of_nat (length hand)) [3; 1]
  /\ remove_group 0%nat [3; 1] h = Done () (<[0%nat := keep_others hand [3; 1]]> h)
  /\ length (keep_others hand [3; 1]) = (length hand - length [3; 1])%nat
  /\ keep_others hand [3; 1] = spec_remove_highest_first hand [3; 1].
Proof.
  intros hand h.
  assert (h !! 0%nat = Some hand) as Hl by reflexivity.
  assert (NoDup [3; 1]) as Hnd.
  { apply NoDup_cons. split; [|apply NoDup_singleton].
    intros Hin. apply list_elem_of_singleton in Hin. discriminate Hin. }
  assert (Forall (fun i => 1 <= i <= Z.of_nat (length hand)) [3; 1]) as Hr.
  { repeat constructor; simpl; lia. }
  split; [exact Hl|]. split; [exact Hnd|]. split; [exact Hr|].
  exact (remove_group_removes_exactly 0%nat [3; 1] hand h Hl Hnd Hr).
Defined.

(** Outside that range the removal and the validators part ways: an
    index 0 is validated as the last card, and after it is popped the next
    two pops take the new last cards instead of the cards validated. *)
Lemma remove_group_index_zero :
  let hand := [spadeJ; diamondJ; heart3; heart5; heartJ] in
  is_valid_set hand [0; 1; 2] club8 = Ok [true; true]
  /\ resolve hand [0; 1; 2] = Ok [heartJ; spadeJ; diamondJ]
  /\ final_heap (remove_group 0%nat [0; 1; 2] {[ 0%nat := hand ]}) !! 0%nat
     = Some [spadeJ; diamondJ].
Proof. split_and!; reflexivity. Qed.

(** ** Triples: rules *)

Section hoare_rules.
Context {A B : Type}.

Lemma hoare_ret (a : A) (P : heap -> Prop) Q E :
  (forall h, P h -> Q a h) -> hoare P (mret a) Q E.
Proof. intros HQ h HP. by apply HQ. Qed.

Lemma hoare_bind (m : hm A) (f : A -> hm B) P Q R E :
  hoare P m Q E -> (forall a, hoare (Q a) (f a) R E) -> hoare P (m ≫= f) R E.
Proof.
  intros Hm Hf h HP. rewrite hm_bind_eq. specialize (Hm h HP).
  destruct (m h) as [a h'|e h']; [by apply Hf|done].
Qed.

Lemma hoare_lift (r : result A) (P : heap -> Prop) :
  hoare P (lift r) (fun _ => P) P.
Proof. intros h HP. unfold lift. by destruct r. Qed.

End hoare_rules.

Create HintDb kept discriminated.

(** ** The win check leaves other lists alone

    Every list operation of the win check goes to the working copy, a
    list object made by [copy.deepcopy] and so different from every list
    that existed before. *)

Section frame.
Variables (r : loc) (cards : list Card).

Local Abbreviation kept := (holds r cards).
Local Abbreviation working_copy_apart := (working_copy_apart r cards).

Lemma kept_read l : hoare kept (list_read l) (fun _ => kept) kept.
Proof. by intros h Hk. Qed.

Lemma kept_write l v : l <> r -> hoare kept (list_write l v) (fun _ => kept) kept.
Proof. intros Hne h Hk. unfold holds. simpl. by rewrite lookup_insert_ne. Qed.

Lemma kept_new v : hoare kept (list_new v) (fun l h => kept h /\ l <> r) kept.
Proof.
  intros h Hk. simpl. pose proof (fresh_loc_ne h r cards Hk) as Hne.
  split; [|done]. unfold holds. by rewrite lookup_insert_ne.
Qed.

Lemma kept_lift {A} (m : result A) : hoare kept (lift m) (fun _ => kept) kept.
Proof. apply hoare_lift. Qed.

Lemma kept_bind {A B} (m : hm A) (f : A -> hm B) Q :
  hoare kept m (fun _ => kept) kept ->
  (forall a, hoare kept (f a) Q kept) ->
  hoare kept (m ≫= f) Q kept.
Proof. intros Hm Hf. eapply hoare_bind; [exact Hm|exact Hf]. Qed.

Lemma kept_ret {A} (a : A) : hoare kept (mret a) (fun _ => kept) kept.
Proof. by apply hoare_ret. Qed.

#[local] Hint Resolve kept_read kept_write kept_lift kept_ret : kept.

(** Runs through a sequence of steps each of which keeps [r]. *)
Ltac kept_seq :=
  repeat (apply kept_bind; [solve [eauto with kept]|intros ?]);
  try solve [eauto with kept].

Lemma kept_pop l k : l <> r -> hoare kept (list_pop l k) (fun _ => kept) kept.
Proof. intros Hne. unfold list_pop. kept_seq. case_match. kept_seq. Qed.

Lemma kept_deepcopy l : hoare kept (deepcopy l) (fun l' h => kept h /\ l' <> r) kept.
Proof. unfold deepcopy. kept_seq. apply kept_new. Qed.

Lemma kept_pop_each l s d :
  l <> r -> hoare kept (pop_each l s d) (fun _ => kept) kept.
Proof.
  intros Hne. revert d. induction s as [|i s IH]; intros d; simpl.
  - apply kept_ret.
  - apply kept_bind; [by apply kept_pop|]. intros _. apply IH.
Qed.

Lemma kept_remove_group l card_ind :
  l <> r -> hoare kept (remove_group l card_ind) (fun _ => kept) kept.
Proof. apply kept_pop_each. Qed.

Lemma kept_read_set_flag s : hoare kept (read_set_flag s) (fun _ => kept) kept.
Proof. unfold read_set_flag. case_match; kept_seq. Qed.

#[local] Hint Resolve kept_pop kept_remove_group kept_read_set_flag : kept.

Lemma kept_check_sets self card_ind s :
  player_hand s <> r ->
  hoare kept (check_sets self card_ind s) working_copy_apart kept.
Proof.
  intros Hne. unfold check_sets. kept_seq.
  case_match; simpl; kept_seq; by apply hoare_ret.
Qed.

Lemma kept_check_runs self card_ind s :
  player_hand s <> r ->
  hoare kept (check_runs self card_ind s) working_copy_apart kept.
Proof.
  intros Hne. unfold check_runs. kept_seq.
  case_match; simpl; kept_seq; by apply hoare_ret.
Qed.

Lemma kept_reset_cards player s :
  hoare kept (reset_cards player s) working_copy_apart kept.
Proof.
  unfold reset_cards. eapply hoare_bind; [apply kept_deepcopy|].
  intros l. by apply hoare_ret.
Qed.

Lemma kept_check_round self player inp s :
  player_hand s <> r ->
  hoare kept (check_round self player inp s) working_copy_apart kept.
Proof.
  intros Hne. unfold check_round. repeat case_match.
  - by apply kept_check_sets.
  - by apply kept_check_runs.
  - apply kept_reset_cards.
  - by apply hoare_ret.
Qed.

(** The loop, by induction on the answers still to come. *)
Lemma kept_check_loop self player inputs s :
  player_hand s <> r ->
  hoare kept (check_loop self player inputs s) (fun _ => kept) kept.
Proof.
  revert s. induction inputs as [|inp inputs IH]; intros s Hne; simpl.
  - kept_seq. case_match; kept_seq.
  - kept_seq. case_match; [|kept_seq].
    eapply hoare_bind; [by apply kept_check_round|]. intros s'.
    intros h [Hk Hne']. revert h Hk.
    case_match; [apply kept_ret|by apply IH].
Qed.

Lemma kept_win_check self player set_flag0 inputs :
  hoare kept (win_check self player set_flag0 inputs) (fun _ => kept) kept.
Proof.
  unfold win_check. eapply hoare_bind; [apply kept_deepcopy|].
  intros l h [Hk Hne]. revert h Hk. by apply kept_check_loop.
Qed.
End frame.

(** C7.  Whatever the player answers during a win check (sets and runs
    accepted or turned down, groups removed, resets, leaving without a
    win), and whether the check ends, waits for more input or raises, the
    list object that is [player.hand] holds at the end the cards it held
    at the start, and so does every other list that existed at the start:
    all removals go to the working copy. *)
Theorem win_check_keeps_real_hand self player set_flag0 inputs h cards :
  h !! hand player = Some cards ->
  final_heap (win_check self player set_flag0 inputs h) !! hand player = Some cards
  /\ (forall r v, h !! r = Some v ->
       final_heap (win_check self player set_flag0 inputs h) !! r = Some v).
Proof.
  assert (forall r v, h !! r = Some v ->
    final_heap (win_check self player set_flag0 inputs h) !! r = Some v) as Hall.
  { intros r v Hr.
    pose proof (kept_win_check r v self player set_flag0 inputs h Hr) as Hk.
    by destruct (win_check self player set_flag0 inputs h). }
  intros Hr. split; [by apply Hall|exact Hall].
Qed.

Lemma win_check_keeps_real_hand_witness :
  table_heap !! hand north = Some north_hand
  /\ final_heap (win_check table north None north_answers table_heap)
       !! hand north = Some north_hand.
Proof.
  split; [reflexivity|].
  exact (proj1 (win_check_keeps_real_hand
                  table north None north_answers table_heap north_hand eq_refl)).
Defined.

(** ** Winning *)

Lemma checkForWin_iff hand atleast_one_natrual :
  checkForWin hand atleast_one_natrual = true
  <-> hand = [] /\ atleast_one_natrual = true.
Proof.
  unfold checkForWin. destruct hand, atleast_one_natrual; simpl; split;
    (done || by intros [? ?]).
Qed.

(** C2, the code at the failing input.  The set asked for first has no
    wild card and is turned down; each of the three runs has a wild card
    and is accepted as valid and not natural; the hand is empty after the
    third and the win check ends with [win_flag] set.  The run branch
    reads the natural flag of the last set check ([set_flag[1]]) instead
    of the flag of its own run. *)
Theorem win_without_natural_group :
  is_valid_set north_hand [1; 4; 7] club8 = Ok [false; true]
  /\ is_valid_run north_hand [1; 2; 3] club8 = Ok [true; false]
  /\ is_valid_run (drop 3 north_hand) [1; 2; 3] club8 = Ok [true; false]
  /\ is_valid_run (drop 6 north_hand) [1; 2; 3; 4] club8 = Ok [true; false]
  /\ exists s h',
      win_check table north None north_answers table_heap = Done (s, LoopLeft) h'
      /\ h' !! player_hand s = Some []
      /\ has_atleast_one_natural s = true
      /\ won (s, LoopLeft) = true.
Proof.
  split_and!; [reflexivity..|].
  eexists _, _. split_and!; [vm_compute; reflexivity|reflexivity..].
Qed.

(** The state of that win check is a deal of the full deck: the 53 cards
    of [Deck.__init__], each once. *)
Lemma table_is_full_deck :
  all_cards table table_heap ≡ₚ new_deck
  /\ card_count table table_heap = 53%nat.
Proof.
  split; [|reflexivity].
  rewrite <- (py_sort_perm suit_rank_le (all_cards table table_heap)).
  rewrite <- (py_sort_perm suit_rank_le new_deck).
  assert (py_sort suit_rank_le (all_cards table table_heap)
          = py_sort suit_rank_le new_deck) as -> by (vm_compute; reflexivity).
  done.
Qed.

(** While no set has been checked since [play] started, the name
    [set_flag] is unbound and the first valid run raises, after its cards
    have left the working copy. *)
Lemma run_before_any_set_check_raises :
  exists h',
    win_check table north None [mkCheckInput 2 [1; 2; 3]] table_heap
    = Crash UnboundLocalError h'
    /\ h' !! hand north = Some north_hand.
Proof. eexists. split; [vm_compute; reflexivity|reflexivity]. Qed.

(** ** The draw phase *)

Lemma py_pop_minus_one {A} (l : list A) x : py_pop (l ++ [x]) (-1) = Ok (x, l).
Proof.
  unfold py_pop, py_norm_index. rewrite length_app. simpl.
  destruct (Z.ltb_spec (-1 + Z.of_nat (length l + 1)) 0) as [?|_]; [lia|].
  destruct (Z.leb_spec (Z.of_nat (length l + 1)) (-1 + Z.of_nat (length l + 1)))
    as [?|_]; [lia|].
  simpl. replace (Z.to_nat (-1 + Z.of_nat (length l + 1))) with (length l) by lia.
  rewrite list_lookup_middle by done. by rewrite delete_middle, app_nil_r.
Qed.

Lemma py_pop_raises {A} (l : list A) k e : py_pop l k = Raise e -> e = IndexError.
Proof. intros H. by apply py_pop_getitem, py_getitem_raises in H. Qed.

Lemma list_pop_last_eq l h v x :
  h !! l = Some (v ++ [x]) -> list_pop_last l h = Done x (<[l := v]> h).
Proof.
  intros H. unfold list_pop_last. by rewrite (list_pop_eq _ _ _ _ H), py_pop_minus_one.
Qed.

Lemma remove_card_eq player ind h cards :
  h !! hand player = Some cards ->
  remove_card player ind h
  = match py_pop cards ind with
    | Ok (c, cards') => Done c (<[hand player := cards']> h)
    | Raise e => Crash e h
    end.
Proof.
  intros H. unfold remove_card.
  rewrite hm_bind_eq, (list_getitem_eq _ _ _ _ H).
  destruct (py_pop cards ind) as [[c cards']|e] eqn:Hpop.
  - destruct (py_pop_inv _ _ _ _ Hpop) as (i & _ & _ & ->).
    by rewrite hm_bind_eq, (list_pop_eq _ _ _ _ H), Hpop.
  - by rewrite (py_pop_getitem _ _ _ Hpop).
Qed.

Lemma discardCardFromHand_eq self player input h cards pile :
  hand player <> discard_card_pile self ->
  h !! hand player = Some cards ->
  h !! discard_card_pile self = Some pile ->
  discardCardFromHand self player input h
  = match py_pop cards (input - 1) with
    | Ok (c, cards') =>
        Done () (<[discard_card_pile self := pile ++ [c]]>
                   (<[hand player := cards']> h))
    | Raise e => Crash e h
    end.
Proof.
  intros Hne Hh Hp. unfold discardCardFromHand.
  rewrite hm_bind_eq, (remove_card_eq _ _ _ _ Hh).
  destruct (py_pop cards (input - 1)) as [[c cards']|e]; [|done].
  apply list_append_eq. by rewrite lookup_insert_ne.
Qed.

(** The discard-pile draw, step by step: the top card leaves the pile,
    the player's choice is popped from the hand as it was before the
    draw and appended to the pile, and only then the drawn card is
    appended to the hand. *)
Lemma draw_from_discard_pile_eq shuffle self player inp h rest top cards :
  draw_from_discard_pile inp = "y" ->
  hand player <> discard_card_pile self ->
  h !! discard_card_pile self = Some (rest ++ [top]) ->
  h !! hand player = Some cards ->
  draw_phase shuffle self player inp h
  = match py_pop cards (dicard_choice inp - 1) with
    | Ok (c, cards') =>
        Done self
          (<[hand player := cards' ++ [top]]>
             (<[discard_card_pile self := rest ++ [c]]>
                (<[hand player := cards']>
                   (<[discard_card_pile self := rest]> h))))
    | Raise e => Crash e (<[discard_card_pile self := rest]> h)
    end.
Proof.
  intros Hy Hne Hp Hh. unfold draw_phase. rewrite Hy. simpl.
  rewrite hm_bind_eq, (list_pop_last_eq _ _ _ _ Hp).
  rewrite hm_bind_eq.
  rewrite (discardCardFromHand_eq self player _ _ cards rest Hne);
    [|by rewrite lookup_insert_ne|by rewrite lookup_insert_eq].
  destruct (py_pop cards (dicard_choice inp - 1)) as [[c cards']|e]; [|done].
  rewrite hm_bind_eq. unfold add_card.
  rewrite (list_append_eq _ _ _ cards').
  - done.
  - rewrite lookup_insert_ne by done. by rewrite lookup_insert_eq.
Qed.

(** C8, as amended.  In a discard-pile draw the top card of the pile is
    popped, the player discards exactly one card, the one the answer
    selects among the cards held before the draw, and the drawn card
    always joins the hand, at its end.  An answer that selects no card of
    the old hand raises [IndexError]; so does the position the drawn card
    would have in the hand: the drawn card is not among the cards the
    player can discard. *)
Theorem discard_pile_draw_keeps_drawn_card shuffle self player inp h rest top cards :
  draw_from_discard_pile inp = "y" ->
  hand player <> discard_card_pile self ->
  h !! discard_card_pile self = Some (rest ++ [top]) ->
  h !! hand player = Some cards ->
  (forall i,
     py_norm_index (length cards) (dicard_choice inp - 1) = Some i ->
     exists c h',
       cards !! i = Some c
       /\ draw_phase shuffle self player inp h = Done self h'
       /\ h' !! discard_card_pile self = Some (rest ++ [c])
       /\ h' !! hand player = Some (delete i cards ++ [top]))
  /\ (py_norm_index (length cards) (dicard_choice inp - 1) = None ->
      exists h', draw_phase shuffle self player inp h = Crash IndexError h')
  /\ (dicard_choice inp = Z.of_nat (length cards) + 1 ->
      exists h', draw_phase shuffle self player inp h = Crash IndexError h').
Proof.
  intros Hy Hne Hp Hh.
  rewrite (draw_from_discard_pile_eq _ _ _ _ _ _ _ _ Hy Hne Hp Hh).
  unfold py_pop. split_and!.
  - intros i Hi. rewrite Hi.
    destruct (lookup_lt_is_Some_2 cards i) as [c Hc].
    { by apply py_norm_index_Some in Hi as [? _]. }
    rewrite Hc. exists c. eexists. split_and!; [done|done|..].
    + rewrite lookup_insert_ne by done. by rewrite lookup_insert_eq.
    + by rewrite lookup_insert_eq.
  - intros ->. eauto.
  - intros ->. rewrite py_norm_index_too_big by lia. eauto.
Qed.

Lemma discard_pile_draw_keeps_drawn_card_witness :
  draw_from_discard_pile (mkDrawInput "y" "" 11) = "y"
  /\ hand north <> discard_card_pile table
  /\ table_heap !! discard_card_pile table = Some ([] ++ [mkCard 2 9])
  /\ table_heap !! hand north = Some north_hand
  /\ dicard_choice (mkDrawInput "y" "" 11) = Z.of_nat (length north_hand) + 1
  /\ exists h', draw_phase reverse table north (mkDrawInput "y" "" 11) table_heap
                = Crash IndexError h'.
Proof.
  assert (hand north <> discard_card_pile table) as Hne by discriminate.
  split; [reflexivity|]. split; [exact Hne|]. split; [reflexivity|].
  split; [reflexivity|]. split; [reflexivity|].
  exact (proj2 (proj2 (discard_pile_draw_keeps_drawn_card reverse table north
                  (mkDrawInput "y" "" 11) table_heap [] (mkCard 2 9) north_hand
                  eq_refl Hne eq_refl eq_refl)) eq_refl).
Defined.

(** C8, as stated, fails: the nine of hearts lies on the pile and the
    player draws it.  No answer to the question which card to discard
    puts it back on the pile, and the answer 11, the position it would
    have as the newest card of the hand, raises [IndexError]. *)
Lemma drawn_card_cannot_be_discarded :
  (~ exists choice self' h',
       draw_phase reverse table north (mkDrawInput "y" "" choice) table_heap
       = Done self' h'
       /\ last (cards_of h' (discard_card_pile table)) = Some (mkCard 2 9))
  /\ exists h',
       draw_phase reverse table north (mkDrawInput "y" "" 11) table_heap
       = Crash IndexError h'.
Proof.
  assert (hand north <> discard_card_pile table) as Hne by discriminate.
  split.
  - intros (choice & self' & h' & Hd & Hlast).
    rewrite (draw_from_discard_pile_eq reverse table north
               (mkDrawInput "y" "" choice) table_heap
               [] (mkCard 2 9) north_hand eq_refl Hne eq_refl eq_refl) in Hd.
    simpl dicard_choice in Hd.
    destruct (py_pop north_hand (choice - 1)) as [[c cards']|e] eqn:Hpop; [|done].
    injection Hd as <- <-.
    unfold cards_of in Hlast.
    rewrite lookup_insert_ne, lookup_insert_eq in Hlast by done.
    simpl in Hlast. injection Hlast as ->.
    destruct (py_pop_inv _ _ _ _ Hpop) as (i & Hi & _ & _).
    apply list_elem_of_lookup_2 in Hi. revert Hi.
    apply (bool_decide_unpack (mkCard 2 9 ∉ north_hand)). vm_compute. exact I.
  - eexists. vm_compute. reflexivity.
Qed.

(** ** Recycling the discard pile *)

Section recycle_facts.
Variable shuffle : list Card -> list Card.
Hypothesis shuffle_perm : forall l, shuffle l ≡ₚ l.

Lemma recycle_eq self h rest top :
  h !! discard_card_pile self = Some (rest ++ [top]) ->
  let pile := discard_card_pile self in
  let h1 := <[pile := rest]> h in
  let cards := fresh (dom h1) in
  recycle shuffle self h
  = Done (mkGame (players self) cards pile (wild_card self))
      (<[pile := [top]]> (<[pile := []]>
         (<[cards := shuffle rest]> (<[cards := rest]> h1)))).
Proof.
  intros Hp pile h1 cards. subst pile h1 cards. unfold recycle.
  rewrite hm_bind_eq, (list_pop_last_eq _ _ _ _ Hp).
  rewrite hm_bind_eq, (deepcopy_eq _ _ rest) by apply lookup_insert_eq.
  cbn [discard_card_pile deck_cards].
  rewrite hm_bind_eq. unfold _shuffle_card. cbn [deck_cards].
  rewrite hm_bind_eq, (list_read_eq _ _ rest) by apply lookup_insert_eq.
  unfold list_write at 1. rewrite hm_bind_eq. unfold list_clear, list_write at 1.
  rewrite hm_bind_eq, (list_append_eq _ _ _ []) by apply lookup_insert_eq.
  done.
Qed.

(** C9.  When the deck is empty and the discard pile is not, the
    recycling step makes the cards of the pile below its top card, in
    the order the shuffle gives them, the new deck, and leaves the pile
    with its former top card alone; hands and wild card are as before,
    the cards of the game are the same cards, and
    [|Deck| + |DiscardPile| + sum of |Hands| + 1] is unchanged. *)
Theorem recycle_preserves_cards self h rest top :
  h !! deck_cards self = Some [] ->
  h !! discard_card_pile self = Some (rest ++ [top]) ->
  (forall p, p ∈ players self ->
     is_Some (h !! hand p) /\ hand p <> discard_card_pile self) ->
  exists self' h',
    recycle shuffle self h = Done self' h'
    /\ h' !! deck_cards self' = Some (shuffle rest)
    /\ shuffle rest ≡ₚ rest
    /\ h' !! discard_card_pile self' = Some [top]
    /\ discard_card_pile self' = discard_card_pile self
    /\ players self' = players self
    /\ wild_card self' = wild_card self
    /\ (forall p, p ∈ players self -> h' !! hand p = h !! hand p)
    /\ all_cards self' h' ≡ₚ all_cards self h
    /\ card_count self' h' = card_count self h.
Proof.
  intros Hd Hp Hhands. eexists _, _. split; [by apply recycle_eq|].
  set (pile := discard_card_pile self) in *.
  set (h1 := <[pile := rest]> h).
  set (cards := fresh (dom h1)).
  assert (h1 !! pile = Some rest) as Hp1 by apply lookup_insert_eq.
  assert (cards <> pile) as Hfresh by apply (fresh_loc_ne h1 pile rest Hp1).
  set (h' := <[pile := [top]]> _).
  assert (h' !! cards = Some (shuffle rest)) as Hdeck'.
  { unfold h'. rewrite !lookup_insert_ne by done. apply lookup_insert_eq. }
  assert (h' !! pile = Some [top]) as Hpile' by apply lookup_insert_eq.
  assert (forall p, p ∈ players self -> h' !! hand p = h !! hand p) as Hsame.
  { intros p Hin. destruct (Hhands p Hin) as [[v Hv] Hne].
    assert (h1 !! hand p = Some v) as Hv1.
    { unfold h1. by rewrite lookup_insert_ne. }
    pose proof (fresh_loc_ne h1 (hand p) v Hv1) as Hne'. fold cards in Hne'.
    unfold h'. rewrite !lookup_insert_ne by done.
    unfold h1. by rewrite lookup_insert_ne. }
  assert ((fun p => cards_of h' (hand p)) <$> players self
          = (fun p => cards_of h (hand p)) <$> players self) as Hhands'.
  { apply Forall_fmap_ext_1, Forall_forall. intros p Hin.
    unfold cards_of. by rewrite Hsame. }
  assert (all_cards (mkGame (players self) cards pile (wild_card self)) h'
          ≡ₚ all_cards self h) as Hperm.
  { unfold all_cards, cards_of. cbn [deck_cards discard_card_pile players wild_card].
    fold pile. rewrite Hdeck', Hpile', Hd, Hp. simpl.
    unfold cards_of in Hhands'. rewrite Hhands'.
    rewrite shuffle_perm. rewrite <- !app_assoc. done. }
  split_and!; try done.
  unfold card_count, cards_of. cbn [deck_cards discard_card_pile players wild_card].
  fold pile. rewrite Hdeck', Hpile', Hd, Hp. simpl.
  assert (forall hh, sum_list ((fun p => length (default [] (hh !! hand p))) <$> players self)
          = sum_list (length <$> ((fun p => cards_of hh (hand p)) <$> players self)))
    as Hsum.
  { intros hh. by rewrite <- list_fmap_compose. }
  rewrite !Hsum, Hhands', shuffle_perm, length_app. simpl. lia.
Qed.
End recycle_facts.

Lemma recycle_preserves_cards_witness :
  (forall l : list Card, reverse l ≡ₚ l)
  /\ empty_deck_heap !! deck_cards table = Some []
  /\ empty_deck_heap !! discard_card_pile table = Some (stock ++ [mkCard 2 9])
  /\ exists self' h',
      recycle reverse table empty_deck_heap = Done self' h'
      /\ h' !! deck_cards self' = Some (reverse stock)
      /\ reverse stock ≡ₚ stock
      /\ h' !! discard_card_pile self' = Some [mkCard 2 9]
      /\ discard_card_pile self' = discard_card_pile table
      /\ players self' = players table
      /\ wild_card self' = wild_card table
      /\ (forall p, p ∈ players table -> h' !! hand p = empty_deck_heap !! hand p)
      /\ all_cards self' h' ≡ₚ all_cards table empty_deck_heap
      /\ card_count self' h' = card_count table empty_deck_heap.
Proof.
  split; [exact reverse_Permutation|]. split; [reflexivity|]. split; [reflexivity|].
  apply (recycle_preserves_cards reverse reverse_Permutation table empty_deck_heap
           stock (mkCard 2 9)).
  - reflexivity.
  - reflexivity.
  - intros p Hin. apply elem_of_cons in Hin as [->|Hin].
    { split; [eexists; reflexivity|discriminate]. }
    apply list_elem_of_singleton in Hin as ->.
    split; [eexists; reflexivity|discriminate].
Defined.

(** A deck draw on an empty deck starts with the recycling step. *)
Lemma deck_draw_on_empty_deck shuffle self player inp h :
  draw_from_discard_pile inp <> "y" ->
  h !! deck_cards self = Some [] ->
  draw_phase shuffle self player inp h
  = (self ← recycle shuffle self;
     drawn_card ← pop_card self;
     if String.eqb (keepOrDicard inp) "y" then
       discardCardFromHand self player (dicard_choice inp);;
       add_card player drawn_card;;
       mret self
     else
       list_append (discard_card_pile self) drawn_card;;
       mret self) h.
Proof.
  intros Hn Hd. unfold draw_phase.
  apply String.eqb_neq in Hn. rewrite Hn.
  rewrite hm_bind_eq. unfold is_empty.
  by rewrite hm_bind_eq, (list_read_eq _ _ _ Hd).
Qed.

(** ** The discard pile is never left empty

    Every way through the draw phase ends by putting a card on the
    discard pile, so the pile the next turn finds, and with it the
    recycling step, has a top card. *)

Lemma hoare_any {A} (m : hm A) :
  hoare (fun _ => True) m (fun _ _ => True) (fun _ => True).
Proof. intros h _. by destruct (m h). Qed.

Lemma append_pile_nonempty self x :
  hoare (fun _ => True) (list_append (discard_card_pile self) x)
        (fun _ => pile_nonempty self) (fun _ => True).
Proof.
  intros h _. unfold list_append, list_read, list_write, pile_nonempty, cards_of.
  simpl. rewrite lookup_insert_eq. simpl.
  by destruct (default [] (h !! discard_card_pile self)).
Qed.

Lemma append_keeps_pile_nonempty self l x :
  hoare (pile_nonempty self) (list_append l x)
        (fun _ => pile_nonempty self) (fun _ => True).
Proof.
  intros h Hne. unfold list_append, list_read, list_write, pile_nonempty, cards_of in *.
  simpl. destruct (decide (l = discard_card_pile self)) as [->|Hl].
  - rewrite lookup_insert_eq. simpl.
    by destruct (default [] (h !! discard_card_pile self)).
  - by rewrite lookup_insert_ne.
Qed.

Lemma discardCardFromHand_pile_nonempty self player input :
  hoare (fun _ => True) (discardCardFromHand self player input)
        (fun _ => pile_nonempty self) (fun _ => True).
Proof.
  unfold discardCardFromHand. eapply hoare_bind; [apply hoare_any|].
  intros c. apply append_pile_nonempty.
Qed.

Lemma draw_phase_pile_nonempty shuffle self player inp :
  hoare (fun _ => True) (draw_phase shuffle self player inp)
        (fun self' h => discard_card_pile self' = discard_card_pile self
                        /\ pile_nonempty self' h)
        (fun _ => True).
Proof.
  assert (forall self0 drawn_card,
    hoare (fun _ => True)
      (discardCardFromHand self0 player (dicard_choice inp);;
       add_card player drawn_card;; mret self0)
      (fun self' h => discard_card_pile self' = discard_card_pile self0
                      /\ pile_nonempty self' h)
      (fun _ => True)) as Hkeep.
  { intros self0 drawn_card.
    eapply hoare_bind; [apply discardCardFromHand_pile_nonempty|]. intros ?.
    eapply hoare_bind; [apply append_keeps_pile_nonempty|]. intros ?.
    by apply hoare_ret. }
  assert (forall self0,
    hoare (fun _ => True)
      (drawn_card ← pop_card self0;
       if String.eqb (keepOrDicard inp) "y" then
         discardCardFromHand self0 player (dicard_choice inp);;
         add_card player drawn_card;; mret self0
       else list_append (discard_card_pile self0) drawn_card;; mret self0)
      (fun self' h => discard_card_pile self' = discard_card_pile self0
                      /\ pile_nonempty self' h)
      (fun _ => True)) as Hdraw.
  { intros self0. eapply hoare_bind; [apply hoare_any|]. intros drawn_card.
    case_match; [apply Hkeep|].
    eapply hoare_bind; [apply append_pile_nonempty|]. intros ?.
    by apply hoare_ret. }
  unfold draw_phase. destruct (String.eqb (draw_from_discard_pile inp) "y").
  - eapply hoare_bind; [apply hoare_any|]. intros drawn_card. apply Hkeep.
  - eapply hoare_bind; [apply hoare_any|]. intros empty.
    eapply (hoare_bind _ _ _
              (fun self0 _ => discard_card_pile self0 = discard_card_pile self)).
    { destruct empty; [|by apply hoare_ret].
      unfold recycle. repeat (eapply hoare_bind; [apply hoare_any|]; intros ?).
      by apply hoare_ret. }
    intros self0 h Heq. specialize (Hdraw self0 h I).
    match goal with |- match ?m with _ => _ end => destruct m as [self1 h1|] end;
      [|done].
    destruct Hdraw as [Hpile ?]. split; [congruence|done].
Qed.

(** ** More on the validators *)

Lemma py_norm_index_is_Some n k :
  is_Some (py_norm_index n k) <-> - Z.of_nat n <= k < Z.of_nat n.
Proof.
  unfold py_norm_index.
  destruct (Z.ltb_spec k 0);
    match goal with
    | |- is_Some (if (?a <? 0) || (?b <=? ?c) then _ else _) <-> _ =>
        destruct (Z.ltb_spec a 0); destruct (Z.leb_spec b c)
    end; simpl; split; intros H'; try lia; try (by eexists);
    by apply is_Some_None in H'.
Qed.

Lemma py_getitem_is_Ok {A} (l : list A) k :
  (exists x, py_getitem l k = Ok x) <-> - Z.of_nat (length l) <= k < Z.of_nat (length l).
Proof.
  rewrite <- py_norm_index_is_Some. unfold py_getitem. split.
  - intros [x Hx]. destruct (py_norm_index (length l) k); [by eexists|done].
  - intros [i Hi]. rewrite Hi. apply py_norm_index_Some in Hi as [Hlt _].
    destruct (lookup_lt_is_Some_2 l i Hlt) as [x ->]. by eexists.
Qed.

Lemma resolve_is_Ok hand cards_ind :
  (exists cards, resolve hand cards_ind = Ok cards)
  <-> Forall (resolvable hand) cards_ind.
Proof.
  unfold resolve, resolvable. induction cards_ind as [|i l IH]; simpl.
  - split; [by constructor|by eexists].
  - rewrite Forall_cons, <- IH. clear IH.
    pose proof (py_getitem_is_Ok hand (i - 1)) as Hi.
    destruct (py_getitem hand (i - 1)) as [c|e]; simpl.
    + assert (1 - Z.of_nat (length hand) <= i <= Z.of_nat (length hand))
        by (destruct Hi as [Hi _]; specialize (Hi (ex_intro _ c eq_refl)); lia).
      destruct (comprehension _ l) as [cs|e]; simpl.
      * split; [intros _; split; [done|by eexists]|by eexists].
      * split; [by intros [? ?]|by intros [_ [? ?]]].
    + split; [by intros [? ?]|].
      intros [Hr _]. destruct Hi as [_ Hi].
      destruct Hi as [? ?]; [lia|done].
Qed.

(** X1.  The validators answer, instead of raising, exactly when the
    selection has fewer than three indices or every index [i] reads a
    card, that is [1 - len(hand) <= i <= len(hand)]; a selection of fewer
    than three indices is answered [[False]] whatever its indices are;
    and the only exception a validator raises is [IndexError]. *)
Theorem validators_answer_iff hand cards_ind wild_card :
  ((exists flag, is_valid_set hand cards_ind wild_card = Ok flag)
   <-> (length cards_ind < 3)%nat \/ Forall (resolvable hand) cards_ind)
  /\ ((exists flag, is_valid_run hand cards_ind wild_card = Ok flag)
      <-> (length cards_ind < 3)%nat \/ Forall (resolvable hand) cards_ind)
  /\ ((length cards_ind < 3)%nat ->
      is_valid_set hand cards_ind wild_card = Ok [false]
      /\ is_valid_run hand cards_ind wild_card = Ok [false])
  /\ (forall e,
        is_valid_set hand cards_ind wild_card = Raise e
        \/ is_valid_run hand cards_ind wild_card = Raise e ->
        e = IndexError).
Proof.
  destruct (Nat.ltb_spec (length cards_ind) 3) as [Hshort|Hlen].
  { destruct (validators_short_selection hand cards_ind wild_card Hshort)
      as [-> ->].
    split_and!; [split; [by left|by eexists]..|done|by intros e [?|?]]. }
  rewrite <- resolve_is_Ok.
  destruct (resolve hand cards_ind) as [cards|e] eqn:Hres.
  - rewrite (is_valid_set_kept _ _ _ _ Hlen Hres),
      (is_valid_run_walk _ _ _ _ Hlen Hres).
    split_and!.
    + split; [intros _; right; by eexists|by eexists].
    + split; [intros _; right; by eexists|case_match; by eexists].
    + lia.
    + intros e [?|He]; [done|]. revert He. by case_match.
  - rewrite (is_valid_set_raise _ _ _ _ Hlen Hres),
      (is_valid_run_raise _ _ _ _ Hlen Hres).
    apply resolve_raises in Hres as ->.
    split_and!.
    + split; [by intros [? ?]|]. intros [?|[? ?]]; [lia|done].
    + split; [by intros [? ?]|]. intros [?|[? ?]]; [lia|done].
    + lia.
    + intros e [[= <-]|[= <-]]; done.
Qed.

Lemma validators_answer_iff_witness :
  (length [7; 1] < 3)%nat
  /\ is_valid_set [spadeJ; diamondJ; heartJ] [7; 1] club8 = Ok [false]
  /\ is_valid_run [spadeJ; diamondJ; heartJ] [7; 1] club8 = Ok [false].
Proof.
  split; [simpl; lia|].
  apply (proj1 (proj2 (proj2 (validators_answer_iff
           [spadeJ; diamondJ; heartJ] [7; 1] club8)))).
  simpl; lia.
Defined.

Lemma py_getitem_fmap {A B} (f : A -> B) (l : list A) k :
  py_getitem (f <$> l) k
  = match py_getitem l k with
    | Ok x => Ok (f x)
    | Raise e => Raise e
    end.
Proof.
  unfold py_getitem. rewrite length_fmap.
  destruct (py_norm_index (length l) k) as [i|]; [|done].
  rewrite list_lookup_fmap. by destruct (l !! i).
Qed.

Lemma resolve_same_ranks hand hand' cards_ind :
  rank <$> hand = rank <$> hand' ->
  match resolve hand cards_ind, resolve hand' cards_ind with
  | Ok cards, Ok cards' => rank <$> cards = rank <$> cards'
  | Raise e, Raise e' => e = e'
  | _, _ => False
  end.
Proof.
  intros Hr. unfold resolve. induction cards_ind as [|i l IH]; simpl; [done|].
  pose proof (py_getitem_fmap rank hand (i - 1)) as H1.
  pose proof (py_getitem_fmap rank hand' (i - 1)) as H2.
  rewrite Hr, H2 in H1. clear H2.
  destruct (py_getitem hand (i - 1)) as [c|e],
    (py_getitem hand' (i - 1)) as [c'|e']; simplify_eq/=; [|done].
  destruct (comprehension _ l) as [cs|e], (comprehension _ l) as [cs'|e'];
    simpl; try done. change (rank c :: (rank <$> cs) = rank c' :: (rank <$> cs')).
  by rewrite H1, IH.
Qed.

Lemma is_wild_same_rank wild_card wild_card' c c' :
  rank wild_card = rank wild_card' -> rank c = rank c' ->
  is_wild wild_card c = is_wild wild_card' c'.
Proof. unfold is_wild. by intros -> ->. Qed.

Lemma set_kept_same_ranks wild_card wild_card' cards cards' :
  rank wild_card = rank wild_card' ->
  rank <$> cards = rank <$> cards' ->
  rank <$> (set_kept wild_card cards).1 = rank <$> (set_kept wild_card' cards').1
  /\ (set_kept wild_card cards).2 = (set_kept wild_card' cards').2.
Proof.
  intros Hw. revert cards'.
  induction cards as [cards IH] using (induction_ltof1 _ length).
  unfold ltof in IH. intros cards' Hr.
  destruct cards as [|c rest], cards' as [|c' rest']; try done.
  rewrite !fmap_cons in Hr. injection Hr as Hc Hrest.
  rewrite !set_kept_cons, (is_wild_same_rank _ _ _ _ Hw Hc).
  destruct (is_wild wild_card' c').
  - destruct rest as [|d rest2], rest' as [|d' rest2']; try done.
    rewrite !fmap_cons in Hrest. injection Hrest as Hd Hrest.
    destruct (IH rest2 ltac:(simpl; lia) rest2' Hrest) as [H1 H2].
    destruct (set_kept wild_card rest2), (set_kept wild_card' rest2').
    cbn [fst snd] in *. rewrite !fmap_cons. split; [by f_equal|lia].
  - destruct (IH rest ltac:(simpl; lia) rest' Hrest) as [H1 H2].
    destruct (set_kept wild_card rest), (set_kept wild_card' rest').
    cbn [fst snd] in *. rewrite !fmap_cons. split; [by f_equal|lia].
Qed.

(** X2.  [is_valid_set] looks at ranks only: two hands that hold the same
    ranks position by position, and two wild cards of the same rank, get
    the same answer for every selection.  It never compares suits, so it
    does not ask the cards of a set to differ in suit. *)
Theorem is_valid_set_ignores_suits hand hand' cards_ind wild_card wild_card' :
  rank <$> hand = rank <$> hand' ->
  rank wild_card = rank wild_card' ->
  is_valid_set hand cards_ind wild_card = is_valid_set hand' cards_ind wild_card'.
Proof.
  intros Hr Hw. destruct (Nat.ltb_spec (length cards_ind) 3) as [Hshort|Hlen].
  { destruct (validators_short_selection hand cards_ind wild_card Hshort) as [-> _].
    by destruct (validators_short_selection hand' cards_ind wild_card' Hshort)
      as [-> _]. }
  pose proof (resolve_same_ranks hand hand' cards_ind Hr) as Hres.
  destruct (resolve hand cards_ind) as [cards|e] eqn:H1,
    (resolve hand' cards_ind) as [cards'|e'] eqn:H2; try done.
  - rewrite (is_valid_set_kept _ _ _ _ Hlen H1), (is_valid_set_kept _ _ _ _ Hlen H2).
    destruct (set_kept_same_ranks wild_card wild_card' cards cards' Hw Hres)
      as [Hk Hn].
    unfold distinct_ranks. by rewrite Hk, Hn.
  - subst e'.
    by rewrite (is_valid_set_raise _ _ _ _ Hlen H1), (is_valid_set_raise _ _ _ _ Hlen H2).
Qed.

Lemma is_valid_set_ignores_suits_witness :
  rank <$> [spadeJ; diamondJ; heartJ] = rank <$> [spadeJ; spadeJ; spadeJ]
  /\ rank club8 = rank spade8
  /\ is_valid_set [spadeJ; diamondJ; heartJ] [1; 2; 3] club8
     = is_valid_set [spadeJ; spadeJ; spadeJ] [1; 2; 3] spade8.
Proof.
  split; [reflexivity|]. split; [reflexivity|].
  apply is_valid_set_ignores_suits; reflexivity.
Defined.

(** *** The order of a run does not matter *)

Lemma comprehension_Permutation {A B} (f : A -> result B) l l' :
  l ≡ₚ l' ->
  match comprehension f l, comprehension f l' with
  | Ok ys, Ok ys' => ys ≡ₚ ys'
  | Raise _, Raise _ => True
  | _, _ => False
  end.
Proof.
  induction 1 as [|x l l' _ IH|x y l|l l' l'' _ IH1 _ IH2]; simpl.
  - done.
  - destruct (f x); simpl; [|done].
    destruct (comprehension f l), (comprehension f l'); simpl; try done.
    by constructor.
  - destruct (f x), (f y); simpl; try done;
      destruct (comprehension f l); simpl; try done. apply Permutation_swap.
  - destruct (comprehension f l), (comprehension f l'), (comprehension f l'');
      try done. by etrans.
Qed.

Lemma suit_rank_le_spec a b :
  suit_rank_le a b = true
  <-> suit a < suit b \/ (suit a = suit b /\ rank a <= rank b).
Proof.
  unfold suit_rank_le.
  rewrite orb_true_iff, andb_true_iff, Z.ltb_lt, Z.eqb_eq, Z.leb_le. done.
Qed.

Lemma suit_rank_le_trans a b c :
  suit_rank_le a b = true -> suit_rank_le b c = true -> suit_rank_le a c = true.
Proof. rewrite !suit_rank_le_spec. lia. Qed.

Lemma suit_rank_le_antisym a b :
  suit_rank_le a b = true -> suit_rank_le b a = true -> a = b.
Proof.
  rewrite !suit_rank_le_spec. destruct a as [sa ra], b as [sb rb]. simpl.
  intros ? ?. f_equal; lia.
Qed.

(** Sorting by [(suit, rank)] sends lists with the same cards to the same
    list: the key is the whole card. *)
Lemma py_sort_suit_rank_Permutation l l' :
  l ≡ₚ l' -> py_sort suit_rank_le l = py_sort suit_rank_le l'.
Proof.
  intros Hp.
  assert (Transitive (fun a b => suit_rank_le a b = true))
    by (intros a b c; apply suit_rank_le_trans).
  assert (AntiSymm eq (fun a b => suit_rank_le a b = true))
    by (intros a b; apply suit_rank_le_antisym).
  apply (Sorted_unique (fun a b => suit_rank_le a b = true)).
  - apply py_sort_Sorted, suit_rank_le_total.
  - apply py_sort_Sorted, suit_rank_le_total.
  - by rewrite !py_sort_perm.
Qed.

(** X3.  [is_valid_run] does not depend on the order in which the indices
    are submitted: it sorts the cards before it walks them. *)
Theorem is_valid_run_order_independent hand cards_ind cards_ind' wild_card :
  cards_ind ≡ₚ cards_ind' ->
  is_valid_run hand cards_ind wild_card = is_valid_run hand cards_ind' wild_card.
Proof.
  intros Hp. pose proof (Permutation_length Hp) as Hl.
  destruct (Nat.ltb_spec (length cards_ind) 3) as [Hshort|Hlen].
  { assert (length cards_ind' < 3)%nat as Hshort' by lia.
    destruct (validators_short_selection hand cards_ind wild_card Hshort) as [_ ->].
    by destruct (validators_short_selection hand cards_ind' wild_card Hshort')
      as [_ ->]. }
  assert (3 <= length cards_ind')%nat as Hlen' by lia.
  pose proof (comprehension_Permutation
                (fun ind => py_getitem hand (ind - 1)) _ _ Hp) as Hres.
  fold (resolve hand cards_ind) (resolve hand cards_ind') in Hres.
  destruct (resolve hand cards_ind) as [cards|e] eqn:H1,
    (resolve hand cards_ind') as [cards'|e'] eqn:H2; try done.
  - rewrite (is_valid_run_walk _ _ _ _ Hlen H1),
      (is_valid_run_walk _ _ _ _ Hlen' H2).
    assert (non_wilds wild_card cards ≡ₚ non_wilds wild_card cards') as Hnw
      by (unfold non_wilds; by rewrite Hres).
    assert (wild_count wild_card cards = wild_count wild_card cards') as ->
      by (unfold wild_count, wilds; by rewrite Hres).
    by rewrite (py_sort_suit_rank_Permutation _ _ Hnw).
  - apply resolve_raises in H1 as Hi, H2 as Hi'. subst e e'.
    by rewrite (is_valid_run_raise _ _ _ _ Hlen H1),
      (is_valid_run_raise _ _ _ _ Hlen' H2).
Qed.

Lemma is_valid_run_order_independent_witness :
  [1; 2; 3] ≡ₚ [3; 1; 2]
  /\ is_valid_run [heart3; spade8; heart5] [1; 2; 3] club8
     = is_valid_run [heart3; spade8; heart5] [3; 1; 2] club8.
Proof.
  assert ([1; 2; 3] ≡ₚ [3; 1; 2]) as Hp.
  { symmetry. apply (@Permutation_cons_app Z [1; 2] [1; 2] [] 3). reflexivity. }
  split; [exact Hp|]. by apply is_valid_run_order_independent.
Defined.

(** *** Runs without wild cards *)

Lemma consecutive_iff ranks :
  consecutive ranks <-> Sorted Z.lt ranks /\ wilds_needed ranks <= 0.
Proof.
  induction ranks as [|r1 rest IH]; [by split; [repeat constructor|]|].
  destruct rest as [|r2 rest].
  { split; [intros _; split; [by repeat constructor|done]|done]. }
  rewrite wilds_needed_cons2.
  change (consecutive (r1 :: r2 :: rest))
    with (r2 = r1 + 1 /\ consecutive (r2 :: rest)).
  rewrite IH. pose proof (wilds_needed_nonneg (r2 :: rest)).
  split.
  - intros (-> & Hs & Hn). split; [constructor; [done|constructor; lia]|].
    destruct (Z.ltb_spec 1 (r1 + 1 - r1)); lia.
  - intros [Hs Hn]. apply Sorted_inv in Hs as [Hs Hhd]. apply HdRel_inv in Hhd.
    destruct (Z.ltb_spec 1 (r2 - r1)); split_and!; try done; lia.
Qed.

Lemma no_wild_non_wilds wild_card cards :
  wild_count wild_card cards = 0%nat -> non_wilds wild_card cards = cards.
Proof.
  unfold wild_count, wilds, non_wilds.
  induction cards as [|c l IH]; [done|]. rewrite !filter_cons.
  destruct (is_wild wild_card c); repeat case_decide; try done; simpl.
  intros Hl. f_equal. by apply IH.
Qed.

(** X4.  A selection of at least three indices that resolves to cards
    none of which is wild is reported as a valid run exactly when the
    cards are of one suit and their ranks, sorted, run up by one from
    card to card (so a king is never followed by an ace); the run is then
    reported as natural. *)
Theorem natural_run_iff_consecutive hand cards_ind wild_card cards :
  (3 <= length cards_ind)%nat ->
  resolve hand cards_ind = Ok cards ->
  wild_count wild_card cards = 0%nat ->
  (isValid (is_valid_run hand cards_ind wild_card)
   <-> single_suit cards /\ consecutive (rank <$> py_sort rank_le cards))
  /\ (isValid (is_valid_run hand cards_ind wild_card) ->
      is_valid_run hand cards_ind wild_card = Ok [true; true]).
Proof.
  intros Hlen Hres Hw. rewrite (is_valid_run_walk _ _ _ _ Hlen Hres).
  pose proof (walk_sorted_iff_run_rule wild_card cards) as Hiff.
  unfold spec_run_rule in Hiff.
  rewrite (no_wild_non_wilds _ _ Hw), Hw in Hiff. rewrite Hw.
  rewrite (no_wild_non_wilds _ _ Hw).
  assert (Sorted Z.le (rank <$> py_sort rank_le cards)) as Hsorted.
  { eapply (Sorted_fmap rank (fun a b => rank_le a b = true));
      [|apply py_sort_Sorted, rank_le_total].
    intros a b. unfold rank_le. apply Z.leb_le. }
  rewrite consecutive_iff.
  destruct (match py_sort suit_rank_le cards with
            | [] => true
            | p :: l => walk_pairs p l (Z.of_nat 0)
            end).
  - destruct Hiff as [Hiff _]. destruct (Hiff eq_refl) as (Hs & Hnd & Hn).
    split; [|done]. split; [intros _|intros _; by eexists].
    split_and!; [done|by apply Sorted_le_NoDup_lt|done].
  - split; [|by intros (flag & [= <-] & ?)].
    split; [by intros (flag & [= <-] & ?)|].
    intros (Hs & Hlt & Hn). destruct Hiff as [_ Hiff].
    assert (false = true); [|done].
    apply Hiff. split_and!; [done|by apply Sorted_lt_NoDup|done].
Qed.

Lemma natural_run_iff_consecutive_witness :
  let hand := [mkCard 0 12; mkCard 0 13; mkCard 0 1] in
  (3 <= length [1; 2; 3])%nat
  /\ resolve hand [1; 2; 3] = Ok hand
  /\ wild_count club8 hand = 0%nat
  /\ (isValid (is_valid_run hand [1; 2; 3] club8)
      <-> single_suit hand /\ consecutive (rank <$> py_sort rank_le hand)).
Proof.
  intros hand. split; [simpl; lia|]. split; [reflexivity|]. split; [reflexivity|].
  apply (natural_run_iff_consecutive hand [1; 2; 3] club8 hand);
    [simpl; lia|reflexivity|reflexivity].
Defined.

(** ** More on the win check *)

Lemma hoare_read l :
  hoare (fun _ => True) (list_read l) (fun v h => v = cards_of h l) (fun _ => True).
Proof. by intros h _. Qed.

Lemma py_getitem_head {A} (x : A) l : py_getitem (x :: l) 0 = Ok x.
Proof. exact (py_getitem_nat (x :: l) 0 x eq_refl). Qed.

Lemma py_getitem_second {A} (x y : A) l : py_getitem (x :: y :: l) 1 = Ok y.
Proof. exact (py_getitem_nat (x :: y :: l) 1 y eq_refl). Qed.

(** X5.  A group the validator turns down changes nothing: the working
    copy and every other list stay as they are, and so do the natural
    flag and the win flag (a set check only records its answer in
    [set_flag]).  When the validator raises, the exception leaves the win
    check with the heap untouched. *)
Theorem rejected_group_changes_nothing self card_ind s h hand :
  h !! player_hand s = Some hand ->
  (forall flag,
     is_valid_set hand card_ind (wild_card self) = Ok flag ->
     flag !! 0%nat = Some false ->
     check_sets self card_ind s h
     = Done (mkLocals (player_hand s) (has_atleast_one_natural s) (win_flag s)
               (Some flag)) h)
  /\ (forall flag,
        is_valid_run hand card_ind (wild_card self) = Ok flag ->
        flag !! 0%nat = Some false ->
        check_runs self card_ind s h = Done s h)
  /\ (forall e,
        is_valid_set hand card_ind (wild_card self) = Raise e ->
        check_sets self card_ind s h = Crash e h)
  /\ (forall e,
        is_valid_run hand card_ind (wild_card self) = Raise e ->
        check_runs self card_ind s h = Crash e h).
Proof.
  intros Hh. split_and!.
  - intros flag Hv Hf. unfold check_sets.
    rewrite hm_bind_eq, (list_read_eq _ _ _ Hh), hm_bind_eq, Hv. simpl.
    destruct flag as [|b flag]; [done|]. injection Hf as ->.
    by rewrite hm_bind_eq, py_getitem_head.
  - intros flag Hv Hf. unfold check_runs.
    rewrite hm_bind_eq, (list_read_eq _ _ _ Hh), hm_bind_eq, Hv. simpl.
    destruct flag as [|b flag]; [done|]. injection Hf as ->.
    by rewrite hm_bind_eq, py_getitem_head.
  - intros e Hv. unfold check_sets.
    by rewrite hm_bind_eq, (list_read_eq _ _ _ Hh), hm_bind_eq, Hv.
  - intros e Hv. unfold check_runs.
    by rewrite hm_bind_eq, (list_read_eq _ _ _ Hh), hm_bind_eq, Hv.
Qed.

Lemma rejected_group_changes_nothing_witness :
  let s := mkLocals 2%nat false false None in
  table_heap !! player_hand s = Some north_hand
  /\ is_valid_run north_hand [1; 4; 7] (wild_card table) = Ok [false]
  /\ [false] !! 0%nat = Some false
  /\ check_runs table [1; 4; 7] s table_heap = Done s table_heap.
Proof.
  intros s. split; [reflexivity|]. split; [reflexivity|]. split; [reflexivity|].
  apply (proj1 (proj2 (rejected_group_changes_nothing
                         table [1; 4; 7] s table_heap north_hand eq_refl))
           [false]); reflexivity.
Defined.

(** *** A win is declared only on an empty working hand *)

Lemma won_check_sets self card_ind s :
  win_flag s = false ->
  hoare (fun _ => True) (check_sets self card_ind s)
    (fun s' h => win_flag s' = true ->
                 cards_of h (player_hand s') = []
                 /\ has_atleast_one_natural s' = true)
    (fun _ => True).
Proof.
  intros Hw. unfold check_sets.
  eapply hoare_bind; [apply hoare_any|]. intros hand.
  eapply hoare_bind; [apply hoare_any|]. intros flag.
  eapply hoare_bind; [apply hoare_any|]. intros valid.
  destruct valid; simpl.
  - eapply hoare_bind; [apply hoare_any|]. intros ?.
    eapply hoare_bind; [apply hoare_any|]. intros natural.
    eapply hoare_bind; [apply hoare_read|]. intros hand'.
    apply hoare_ret. intros h -> Hwin. simpl in *.
    by apply checkForWin_iff in Hwin.
  - apply hoare_ret. intros h _. simpl. by rewrite Hw.
Qed.

Lemma won_check_runs self card_ind s :
  win_flag s = false ->
  hoare (fun _ => True) (check_runs self card_ind s)
    (fun s' h => win_flag s' = true ->
                 cards_of h (player_hand s') = []
                 /\ has_atleast_one_natural s' = true)
    (fun _ => True).
Proof.
  intros Hw. unfold check_runs.
  eapply hoare_bind; [apply hoare_any|]. intros hand.
  eapply hoare_bind; [apply hoare_any|]. intros flag.
  eapply hoare_bind; [apply hoare_any|]. intros valid.
  destruct valid; simpl.
  - eapply hoare_bind; [apply hoare_any|]. intros ?.
    eapply hoare_bind; [apply hoare_any|]. intros flag'.
    eapply hoare_bind; [apply hoare_any|]. intros natural.
    eapply hoare_bind; [apply hoare_read|]. intros hand'.
    apply hoare_ret. intros h -> Hwin. simpl in *.
    by apply checkForWin_iff in Hwin.
  - apply hoare_ret. intros h _. by rewrite Hw.
Qed.

Lemma won_check_round self player inp s :
  win_flag s = false ->
  hoare (fun _ => True) (check_round self player inp s)
    (fun s' h => win_flag s' = true ->
                 cards_of h (player_hand s') = []
                 /\ has_atleast_one_natural s' = true)
    (fun _ => True).
Proof.
  intros Hw. unfold check_round. repeat case_match.
  - by apply won_check_sets.
  - by apply won_check_runs.
  - unfold reset_cards. eapply hoare_bind; [apply hoare_any|]. intros l.
    apply hoare_ret. intros h _. simpl. by rewrite Hw.
  - apply hoare_ret. intros h _. by rewrite Hw.
Qed.

Lemma won_check_loop self player inputs s :
  win_flag s = false ->
  hoare (fun _ => True) (check_loop self player inputs s)
    (fun r h => won r = true ->
                cards_of h (player_hand r.1) = []
                /\ has_atleast_one_natural r.1 = true)
    (fun _ => True).
Proof.
  revert s. induction inputs as [|inp inputs IH]; intros s Hw; simpl.
  - eapply hoare_bind; [apply hoare_any|]. intros hand.
    case_match; apply hoare_ret; intros h _; simpl; by rewrite ?Hw.
  - eapply hoare_bind; [apply hoare_any|]. intros hand.
    case_match; [|apply hoare_ret; intros h _; simpl; by rewrite Hw].
    eapply hoare_bind; [by apply won_check_round|]. intros s'.
    destruct (win_flag s') eqn:Hw'.
    + rewrite orb_true_r. apply hoare_ret. intros h Hq _. by apply Hq.
    + rewrite orb_false_r. case_match.
      * apply hoare_ret. intros h _. simpl. by rewrite Hw'.
      * intros h _. by apply IH.
Qed.

(** X6.  Whatever the player answers, a win check that ends in a win has
    an empty working hand and the natural flag set: [win_flag] is only
    ever set by [checkForWin] on the working hand as it then is. *)
Theorem win_only_on_empty_hand self player set_flag0 inputs h r h' :
  win_check self player set_flag0 inputs h = Done r h' ->
  won r = true ->
  cards_of h' (player_hand r.1) = [] /\ has_atleast_one_natural r.1 = true.
Proof.
  intros Hrun Hwon.
  assert (hoare (fun _ => True) (win_check self player set_flag0 inputs)
    (fun r h => won r = true ->
                cards_of h (player_hand r.1) = []
                /\ has_atleast_one_natural r.1 = true)
    (fun _ => True)) as Hh.
  { unfold win_check. eapply hoare_bind; [apply hoare_any|]. intros l.
    by apply won_check_loop. }
  specialize (Hh h I). rewrite Hrun in Hh. by apply Hh.
Qed.

Lemma win_only_on_empty_hand_witness :
  exists r h',
    win_check table north None north_answers table_heap = Done r h'
    /\ won r = true
    /\ cards_of h' (player_hand r.1) = []
    /\ has_atleast_one_natural r.1 = true.
Proof.
  eexists _, _.
  assert (win_check table north None north_answers table_heap = Done _ _) as Hrun
    by (vm_compute; reflexivity).
  split; [exact Hrun|]. split; [reflexivity|].
  exact (win_only_on_empty_hand _ _ _ _ _ _ _ Hrun eq_refl).
Defined.

Lemma remove_group_eq l card_ind hand h :
  h !! l = Some hand ->
  NoDup card_ind ->
  Forall (fun i => 1 <= i <= Z.of_nat (length hand)) card_ind ->
  remove_group l card_ind h = Done () (<[l := keep_others hand card_ind]> h).
Proof.
  intros Hl Hnd Hr. destruct (sorted_indices card_ind Hnd) as [Hs Hin].
  unfold remove_group, keep_others.
  rewrite (pop_each_keep _ _ 0 hand) by
    (try done; rewrite Forall_forall in Hr; apply Forall_forall;
     intros i Hi; apply Hin, Hr in Hi; lia).
  do 2 f_equal. by apply keep_from_ext.
Qed.

(** X7.  A set check the validator accepts, on distinct indices that each
    name a card of the working hand: the cards at those positions leave
    the working copy and no other list changes, the natural flag is set
    when the validator reported a natural set and kept otherwise, and the
    win flag says whether the working hand is now empty with the natural
    flag set. *)
Theorem accepted_set_round self card_ind s h hand natural :
  h !! player_hand s = Some hand ->
  NoDup card_ind ->
  Forall (fun i => 1 <= i <= Z.of_nat (length hand)) card_ind ->
  is_valid_set hand card_ind (wild_card self) = Ok [true; natural] ->
  check_sets self card_ind s h
  = Done (mkLocals (player_hand s)
            (natural || has_atleast_one_natural s)
            (checkForWin (keep_others hand card_ind)
               (natural || has_atleast_one_natural s))
            (Some [true; natural]))
         (<[player_hand s := keep_others hand card_ind]> h).
Proof.
  intros Hh Hnd Hr Hv. unfold check_sets.
  rewrite hm_bind_eq, (list_read_eq _ _ _ Hh), hm_bind_eq, Hv. simpl.
  rewrite hm_bind_eq, py_getitem_head. simpl.
  rewrite hm_bind_eq, (remove_group_eq _ _ _ _ Hh Hnd Hr).
  rewrite hm_bind_eq, py_getitem_second. simpl.
  rewrite hm_bind_eq. unfold list_read. rewrite lookup_insert_eq. simpl.
  by destruct natural.
Qed.

Lemma accepted_set_round_witness :
  let hand := [spadeJ; heart3; diamondJ; heartJ] in
  let h : heap := {[ 5%nat := hand ]} in
  let s := mkLocals 5%nat false false None in
  h !! player_hand s = Some hand
  /\ NoDup [1; 3; 4]
  /\ Forall (fun i => 1 <= i <= Z.of_nat (length hand)) [1; 3; 4]
  /\ is_valid_set hand [1; 3; 4] (wild_card table) = Ok [true; true]
  /\ check_sets table [1; 3; 4] s h
     = Done (mkLocals 5%nat true false (Some [true; true])) (<[5%nat := [heart3]]> h).
Proof.
  intros hand h s.
  assert (NoDup [1; 3; 4]) as Hnd.
  { apply (bool_decide_unpack _). vm_compute. exact I. }
  assert (Forall (fun i => 1 <= i <= Z.of_nat (length hand)) [1; 3; 4]) as Hr.
  { repeat constructor; simpl; lia. }
  split; [reflexivity|]. split; [exact Hnd|]. split; [exact Hr|].
  split; [reflexivity|].
  exact (accepted_set_round table [1; 3; 4] s h hand true eq_refl Hnd Hr eq_refl).
Defined.

(** ** The cards of a game through the draw phase *)

Lemma card_count_length self h : card_count self h = length (all_cards self h).
Proof.
  unfold card_count, all_cards. rewrite !length_app. simpl.
  assert (forall ls : list (list Card), length (concat ls) = sum_list (length <$> ls))
    as Hc.
  { induction ls as [|x ls IH]; [done|]. simpl. rewrite length_app, IH. done. }
  rewrite Hc, <- list_fmap_compose. unfold compose. lia.
Qed.

Lemma hands_cards_ext ps (h h' : heap) :
  (forall l, l ∈ hand <$> ps -> h' !! l = h !! l) ->
  hands_cards ps h' = hands_cards ps h.
Proof.
  intros Hagree. unfold hands_cards. f_equal.
  apply Forall_fmap_ext_1, Forall_forall. intros p Hp.
  unfold cards_of. rewrite Hagree; [done|]. by apply list_elem_of_fmap_2.
Qed.

(** The hands, seen from the hand [l] of one player: its cards and the
    cards [R] of the others. *)
Lemma hands_cards_view ps l (h : heap) :
  NoDup (hand <$> ps) -> l ∈ hand <$> ps ->
  exists R, forall (h' : heap) H,
    h' !! l = Some H ->
    (forall l', l' ∈ hand <$> ps -> l' <> l -> h' !! l' = h !! l') ->
    hands_cards ps h' ≡ₚ H ++ R.
Proof.
  induction ps as [|q ps IH]; intros Hnd Hin; [by apply elem_of_nil in Hin|].
  rewrite fmap_cons in Hnd, Hin. apply NoDup_cons in Hnd as [Hq Hnd].
  destruct (decide (hand q = l)) as [Heq|Hne].
  - exists (hands_cards ps h). intros h' H Hl Hagree.
    unfold hands_cards. rewrite fmap_cons. simpl.
    fold (hands_cards ps h') (hands_cards ps h).
    unfold cards_of at 1. rewrite Heq, Hl. simpl.
    rewrite (hands_cards_ext ps h h'); [done|].
    intros l' Hl'. apply Hagree; [rewrite fmap_cons; by right|].
    intros ->. by rewrite <- Heq in Hl'.
  - apply elem_of_cons in Hin as [Hin|Hin]; [done|].
    destruct (IH Hnd Hin) as [R HR].
    exists (cards_of h (hand q) ++ R). intros h' H Hl Hagree.
    unfold hands_cards. rewrite fmap_cons. simpl. fold (hands_cards ps h').
    rewrite (HR h' H Hl) by (intros l' Hl' ?; apply Hagree;
                             [rewrite fmap_cons; by right|done]).
    unfold cards_of at 1. rewrite (Hagree (hand q)) by (done || rewrite fmap_cons; left).
    fold (cards_of h (hand q)).
    rewrite !app_assoc. f_equiv. apply Permutation_app_comm.
Qed.

(** The cards of a game, seen from the player at turn. *)
Lemma all_cards_view self player (h : heap) :
  NoDup (game_locs self) -> player ∈ players self ->
  exists R, forall (h' : heap) D P H,
    h' !! deck_cards self = Some D ->
    h' !! discard_card_pile self = Some P ->
    h' !! hand player = Some H ->
    (forall q, q ∈ players self -> hand q <> hand player ->
       h' !! hand q = h !! hand q) ->
    all_cards self h' ≡ₚ D ++ P ++ H ++ R.
Proof.
  unfold game_locs. intros Hnd Hin.
  apply NoDup_cons in Hnd as [_ Hnd]. apply NoDup_cons in Hnd as [_ Hnd].
  destruct (hands_cards_view (players self) (hand player) h Hnd
              (list_elem_of_fmap_2 hand _ _ Hin)) as [R HR].
  exists (R ++ [wild_card self]). intros h' D P H HD HP HH Hagree.
  unfold all_cards. fold (hands_cards (players self) h').
  unfold cards_of at 1 2. rewrite HD, HP. simpl.
  rewrite (HR h' H HH).
  - by rewrite <- !app_assoc.
  - intros l' (q & -> & Hq)%list_elem_of_fmap Hne. by apply Hagree.
Qed.

Lemma game_wf_locs self (h : heap) player :
  game_wf self h -> player ∈ players self ->
  deck_cards self <> discard_card_pile self
  /\ deck_cards self <> hand player
  /\ discard_card_pile self <> hand player
  /\ is_Some (h !! deck_cards self)
  /\ is_Some (h !! discard_card_pile self)
  /\ is_Some (h !! hand player).
Proof.
  intros [Hnd Hall] Hin. unfold game_locs in *.
  pose proof (list_elem_of_fmap_2 hand _ _ Hin) as Hin'.
  apply NoDup_cons in Hnd as [Hd Hnd]. apply NoDup_cons in Hnd as [Hp Hnd].
  rewrite Forall_forall in Hall.
  split_and!.
  - intros Heq. apply Hd. rewrite Heq. left.
  - intros Heq. apply Hd. rewrite Heq. by right.
  - intros Heq. apply Hp. by rewrite Heq.
  - apply Hall. left.
  - apply Hall. right. left.
  - apply Hall. by do 2 right.
Qed.

Lemma game_wf_insert self (h : heap) l v :
  game_wf self h -> game_wf self (<[l := v]> h).
Proof.
  intros [Hnd Hall]. split; [done|].
  eapply Forall_impl; [exact Hall|]. simpl. intros l' Hl'.
  apply lookup_insert_is_Some'. by right.
Qed.

(** From the cells of deck, pile and hand before and after, to what the
    draw phase keeps. *)
Lemma draw_keeps_intro self player (h h' : heap) D P H D' P' H' :
  game_wf self h -> player ∈ players self ->
  h !! deck_cards self = Some D ->
  h !! discard_card_pile self = Some P ->
  h !! hand player = Some H ->
  h' !! deck_cards self = Some D' ->
  h' !! discard_card_pile self = Some P' ->
  h' !! hand player = Some H' ->
  (forall l, l <> deck_cards self -> l <> discard_card_pile self ->
     l <> hand player -> h' !! l = h !! l) ->
  D' ++ P' ++ H' ≡ₚ D ++ P ++ H ->
  length H' = length H ->
  P' <> [] ->
  draw_keeps self player h self h'.
Proof.
  intros Hwf Hin HD HP HH HD' HP' HH' Hframe Hperm Hlen Hne.
  destruct (game_wf_locs _ _ _ Hwf Hin) as (Hdp & Hdh & Hph & _).
  assert (forall q, q ∈ players self -> hand q <> hand player ->
            h' !! hand q = h !! hand q) as Hothers.
  { intros q Hq Hqn. apply Hframe; [| |done].
    - intros Heq. destruct Hwf as [Hnd _]. unfold game_locs in Hnd.
      apply NoDup_cons in Hnd as [Hd _]. apply Hd. rewrite <- Heq.
      right. by apply list_elem_of_fmap_2.
    - intros Heq. destruct Hwf as [Hnd _]. unfold game_locs in Hnd.
      apply NoDup_cons in Hnd as [_ Hnd]. apply NoDup_cons in Hnd as [Hp _].
      apply Hp. rewrite <- Heq. by apply list_elem_of_fmap_2. }
  assert (all_cards self h' ≡ₚ all_cards self h) as Hall.
  { destruct (all_cards_view self player h (proj1 Hwf) Hin) as [R HR].
    rewrite (HR h' D' P' H' HD' HP' HH' Hothers).
    rewrite (HR h D P H HD HP HH) by done.
    rewrite !app_assoc. f_equiv. rewrite <- !app_assoc. done. }
  unfold draw_keeps. split_and!; try done.
  - destruct Hwf as [Hnd Hall']. split; [done|].
    rewrite Forall_forall in Hall'. apply Forall_forall. intros l Hl.
    destruct (decide (l = deck_cards self)) as [->|?]; [by eexists|].
    destruct (decide (l = discard_card_pile self)) as [->|?]; [by eexists|].
    destruct (decide (l = hand player)) as [->|?]; [by eexists|].
    rewrite Hframe by done. by apply Hall'.
  - by rewrite !card_count_length, Hall.
  - unfold cards_of. by rewrite HH', HH.
  - unfold pile_nonempty, cards_of. by rewrite HP'.
Qed.

Lemma py_pop_Permutation {A} (l : list A) k x l' :
  py_pop l k = Ok (x, l') -> l ≡ₚ x :: l' /\ length l = S (length l').
Proof.
  intros (i & Hi & -> & _)%py_pop_inv. split; [by apply delete_Permutation|].
  rewrite length_delete by eauto. apply lookup_lt_Some in Hi. lia.
Qed.

Lemma list_pop_last_empty l (h : heap) :
  h !! l = Some [] -> list_pop_last l h = Crash IndexError h.
Proof. intros H. unfold list_pop_last. by rewrite (list_pop_eq _ _ _ _ H). Qed.

Lemma last_or_empty {A} (l : list A) : l = [] \/ exists l' x, l = l' ++ [x].
Proof.
  destruct l as [|a l] using rev_ind; [by left|right; by eexists _, _].
Qed.

(** The deck draw on a deck that is not empty, step by step. *)
Lemma deck_draw_eq shuffle self player inp (h : heap) D d P cards :
  draw_from_discard_pile inp <> "y" ->
  deck_cards self <> discard_card_pile self ->
  deck_cards self <> hand player ->
  discard_card_pile self <> hand player ->
  h !! deck_cards self = Some (D ++ [d]) ->
  h !! discard_card_pile self = Some P ->
  h !! hand player = Some cards ->
  draw_phase shuffle self player inp h
  = if String.eqb (keepOrDicard inp) "y" then
      match py_pop cards (dicard_choice inp - 1) with
      | Ok (c, cards') =>
          Done self
            (<[hand player := cards' ++ [d]]>
               (<[discard_card_pile self := P ++ [c]]>
                  (<[hand player := cards']>
                     (<[deck_cards self := D]> h))))
      | Raise e => Crash e (<[deck_cards self := D]> h)
      end
    else Done self (<[discard_card_pile self := P ++ [d]]>
                      (<[deck_cards self := D]> h)).
Proof.
  intros Hn Hdp Hdh Hph HD HP HH. unfold draw_phase.
  apply String.eqb_neq in Hn. rewrite Hn.
  rewrite hm_bind_eq. unfold is_empty.
  rewrite hm_bind_eq, (list_read_eq _ _ _ HD). simpl.
  replace (length (D ++ [d]) =? 0)%nat with false
    by (rewrite length_app; simpl; symmetry; apply Nat.eqb_neq; lia).
  rewrite hm_bind_eq. simpl. unfold pop_card.
  rewrite hm_bind_eq, (list_pop_last_eq _ _ _ _ HD).
  destruct (String.eqb (keepOrDicard inp) "y").
  - rewrite hm_bind_eq.
    rewrite (discardCardFromHand_eq self player _ _ cards P);
      [|done|by rewrite lookup_insert_ne|by rewrite lookup_insert_ne].
    destruct (py_pop cards (dicard_choice inp - 1)) as [[c cards']|e]; [|done].
    rewrite hm_bind_eq. unfold add_card.
    rewrite (list_append_eq _ _ _ cards'); [done|].
    rewrite lookup_insert_ne by done. by rewrite lookup_insert_eq.
  - rewrite hm_bind_eq.
    by rewrite (list_append_eq _ _ _ P) by (by rewrite lookup_insert_ne).
Qed.

Lemma draw_keeps_discard_pile shuffle self player inp (h : heap) self' h' :
  game_wf self h -> player ∈ players self ->
  draw_from_discard_pile inp = "y" ->
  draw_phase shuffle self player inp h = Done self' h' ->
  draw_keeps self player h self' h'.
Proof.
  intros Hwf Hin Hy Hrun.
  destruct (game_wf_locs _ _ _ Hwf Hin) as (Hdp & Hdh & Hph & [D HD] & [P HP] & [H HH]).
  pose proof (not_eq_sym Hdp) as Hpd. pose proof (not_eq_sym Hdh) as Hhd.
  pose proof (not_eq_sym Hph) as Hhp.
  destruct (last_or_empty P) as [->|(rest & top & ->)].
  { unfold draw_phase in Hrun. rewrite Hy in Hrun. simpl in Hrun.
    by rewrite hm_bind_eq, (list_pop_last_empty _ _ HP) in Hrun. }
  rewrite (draw_from_discard_pile_eq _ _ _ _ _ _ _ _ Hy Hhp HP HH) in Hrun.
  destruct (py_pop H (dicard_choice inp - 1)) as [[c cards']|e] eqn:Hpop; [|done].
  injection Hrun as <- <-.
  destruct (py_pop_Permutation _ _ _ _ Hpop) as [Hperm Hlen].
  apply (draw_keeps_intro self player h _ D (rest ++ [top]) H
           D (rest ++ [c]) (cards' ++ [top]) Hwf Hin HD HP HH).
  - by rewrite !lookup_insert_ne.
  - rewrite lookup_insert_ne by done. by rewrite lookup_insert_eq.
  - by rewrite lookup_insert_eq.
  - intros l ? ? ?. by rewrite !lookup_insert_ne.
  - rewrite Hperm. f_equiv. rewrite <- !app_assoc. f_equiv.
    change (c :: cards') with ([c] ++ cards').
    rewrite (Permutation_app_comm cards' [top]), !app_assoc. f_equiv.
    apply Permutation_app_comm.
  - rewrite length_app, Hlen. simpl. lia.
  - by destruct rest.
Qed.

Lemma draw_keeps_deck shuffle self player inp (h : heap) D d self' h' :
  game_wf self h -> player ∈ players self ->
  draw_from_discard_pile inp <> "y" ->
  h !! deck_cards self = Some (D ++ [d]) ->
  draw_phase shuffle self player inp h = Done self' h' ->
  draw_keeps self player h self' h'.
Proof.
  intros Hwf Hin Hn HD Hrun.
  destruct (game_wf_locs _ _ _ Hwf Hin) as (Hdp & Hdh & Hph & _ & [P HP] & [H HH]).
  pose proof (not_eq_sym Hdp) as Hpd. pose proof (not_eq_sym Hdh) as Hhd.
  pose proof (not_eq_sym Hph) as Hhp.
  rewrite (deck_draw_eq _ _ _ _ _ _ _ _ _ Hn Hdp Hdh Hph HD HP HH) in Hrun.
  destruct (String.eqb (keepOrDicard inp) "y").
  - destruct (py_pop H (dicard_choice inp - 1)) as [[c cards']|e] eqn:Hpop; [|done].
    injection Hrun as <- <-.
    destruct (py_pop_Permutation _ _ _ _ Hpop) as [Hperm Hlen].
    apply (draw_keeps_intro self player h _ (D ++ [d]) P H
             D (P ++ [c]) (cards' ++ [d]) Hwf Hin HD HP HH).
    + rewrite !lookup_insert_ne by done. by rewrite lookup_insert_eq.
    + rewrite lookup_insert_ne by done. by rewrite lookup_insert_eq.
    + by rewrite lookup_insert_eq.
    + intros l ? ? ?. by rewrite !lookup_insert_ne.
    + rewrite Hperm, <- !app_assoc. f_equiv.
      change (c :: cards') with ([c] ++ cards').
      rewrite (Permutation_app_comm cards' [d]).
      rewrite (app_assoc [c] [d]), (Permutation_app_comm [c] [d]).
      rewrite <- !app_assoc.
      rewrite (app_assoc P [d]), (Permutation_app_comm P [d]).
      by rewrite <- !app_assoc.
    + rewrite length_app, Hlen. simpl. lia.
    + by destruct P.
  - injection Hrun as <- <-.
    apply (draw_keeps_intro self player h _ (D ++ [d]) P H
             D (P ++ [d]) H Hwf Hin HD HP HH).
    + rewrite lookup_insert_ne by done. by rewrite lookup_insert_eq.
    + by rewrite lookup_insert_eq.
    + by rewrite !lookup_insert_ne.
    + intros l ? ? ?. by rewrite !lookup_insert_ne.
    + rewrite <- !app_assoc. f_equiv. rewrite !app_assoc. f_equiv.
      apply Permutation_app_comm.
    + done.
    + by destruct P.
Qed.

(** A deck draw on a deck with cards goes straight to the draw. *)
Lemma deck_draw_on_nonempty_deck shuffle self player inp (h : heap) D d :
  draw_from_discard_pile inp <> "y" ->
  h !! deck_cards self = Some (D ++ [d]) ->
  draw_phase shuffle self player inp h
  = (drawn_card ← pop_card self;
     if String.eqb (keepOrDicard inp) "y" then
       discardCardFromHand self player (dicard_choice inp);;
       add_card player drawn_card;;
       mret self
     else
       list_append (discard_card_pile self) drawn_card;;
       mret self) h.
Proof.
  intros Hn Hd. unfold draw_phase.
  apply String.eqb_neq in Hn. rewrite Hn.
  rewrite hm_bind_eq. unfold is_empty.
  rewrite hm_bind_eq, (list_read_eq _ _ _ Hd). simpl.
  replace (length (D ++ [d]) =? 0)%nat with false
    by (rewrite length_app; simpl; symmetry; apply Nat.eqb_neq; lia).
  by rewrite hm_bind_eq.
Qed.

Section draw_facts.
Variable shuffle : list Card -> list Card.
Hypothesis shuffle_perm : forall l, shuffle l ≡ₚ l.

(** The recycling step on a game whose lists are separate objects. *)
Lemma recycle_spec self (h : heap) rest top :
  game_wf self h ->
  h !! deck_cards self = Some [] ->
  h !! discard_card_pile self = Some (rest ++ [top]) ->
  exists self1 h1,
    recycle shuffle self h = Done self1 h1
    /\ game_wf self1 h1
    /\ players self1 = players self
    /\ wild_card self1 = wild_card self
    /\ discard_card_pile self1 = discard_card_pile self
    /\ h1 !! deck_cards self1 = Some (shuffle rest)
    /\ h1 !! discard_card_pile self1 = Some [top]
    /\ (forall p, p ∈ players self -> h1 !! hand p = h !! hand p)
    /\ all_cards self1 h1 ≡ₚ all_cards self h.
Proof.
  intros Hwf Hd Hp. eexists _, _. split; [by apply recycle_eq|].
  set (pile := discard_card_pile self) in *.
  set (h1 := <[pile := rest]> h).
  set (cards := fresh (dom h1)).
  assert (forall l v, h !! l = Some v -> cards <> l) as Hfresh.
  { intros l v Hl. destruct (decide (l = pile)) as [->|Hne].
    - apply (fresh_loc_ne h1 pile rest). apply lookup_insert_eq.
    - apply (fresh_loc_ne h1 l v). unfold h1. by rewrite lookup_insert_ne. }
  set (h' := <[pile := [top]]> _).
  destruct Hwf as [Hnd Hall]. unfold game_locs in Hnd, Hall. fold pile in Hnd, Hall.
  apply NoDup_cons in Hnd as [Hdeck Hnd].
  pose proof Hnd as Hnd'. apply NoDup_cons in Hnd' as [Hpile Hhands].
  rewrite Forall_forall in Hall.
  assert (cards <> pile) as Hcp by (by eapply Hfresh).
  assert (h' !! cards = Some (shuffle rest)) as Hdeck'.
  { unfold h'. rewrite !lookup_insert_ne by done. apply lookup_insert_eq. }
  assert (h' !! pile = Some [top]) as Hpile' by apply lookup_insert_eq.
  assert (forall p, p ∈ players self -> h' !! hand p = h !! hand p) as Hsame.
  { intros p Hin. pose proof (list_elem_of_fmap_2 hand _ _ Hin) as Hin'.
    destruct (Hall (hand p)) as [v Hv]; [by do 2 right|].
    assert (hand p <> pile) by (intros Heq; apply Hpile; by rewrite <- Heq).
    pose proof (Hfresh _ _ Hv).
    unfold h'. rewrite !lookup_insert_ne by done.
    unfold h1. by rewrite lookup_insert_ne. }
  cbn [players wild_card discard_card_pile deck_cards]. fold pile.
  split_and!; try done.
  - split.
    + unfold game_locs. cbn [players discard_card_pile deck_cards].
      apply NoDup_cons. split; [|done].
      intros Hin. destruct (Hall cards) as [v Hv]; [by right|].
      by apply (Hfresh _ _ Hv).
    + unfold game_locs. cbn [players discard_card_pile deck_cards].
      apply Forall_forall. intros l [->|[->|Hl]%elem_of_cons]%elem_of_cons.
      * by eexists.
      * by eexists.
      * apply list_elem_of_fmap in Hl as (p & -> & Hp'). rewrite Hsame by done.
        apply Hall. do 2 right. by apply list_elem_of_fmap_2.
  - unfold all_cards, cards_of.
    cbn [deck_cards discard_card_pile players wild_card].
    fold pile. rewrite Hdeck', Hpile', Hd, Hp. simpl.
    assert ((fun p => default [] (h' !! hand p)) <$> players self
            = (fun p => default [] (h !! hand p)) <$> players self) as ->.
    { apply Forall_fmap_ext_1, Forall_forall. intros p Hin. by rewrite Hsame. }
    rewrite shuffle_perm. by rewrite <- !app_assoc.
Qed.

Lemma draw_phase_draw_keeps self player inp (h : heap) self' h' :
  game_wf self h ->
  player ∈ players self ->
  draw_phase shuffle self player inp h = Done self' h' ->
  draw_keeps self player h self' h'.
Proof.
  intros Hwf Hin Hrun.
  destruct (decide (draw_from_discard_pile inp = "y")) as [Hy|Hn].
  { by eapply draw_keeps_discard_pile. }
  destruct (game_wf_locs _ _ _ Hwf Hin) as (_ & _ & _ & [D HD] & [P HP] & _).
  destruct (last_or_empty D) as [->|(D' & d & ->)].
  2:{ by eapply draw_keeps_deck. }
  rewrite (deck_draw_on_empty_deck _ _ _ _ _ Hn HD), hm_bind_eq in Hrun.
  destruct (last_or_empty P) as [->|(rest & top & ->)].
  { unfold recycle in Hrun.
    by rewrite hm_bind_eq, (list_pop_last_empty _ _ HP) in Hrun. }
  destruct (recycle_spec self h rest top Hwf HD HP)
    as (self1 & h1 & Hrec & Hwf1 & Hps & Hw & Hpile & Hdeck1 & Hpile1 & Hhands & Hall).
  rewrite Hrec in Hrun.
  destruct (last_or_empty (shuffle rest)) as [Hnil|(D1 & d1 & HD1)].
  { rewrite Hnil in Hdeck1. unfold pop_card in Hrun.
    by rewrite hm_bind_eq, (list_pop_last_empty _ _ Hdeck1) in Hrun. }
  rewrite HD1 in Hdeck1.
  rewrite <- (deck_draw_on_nonempty_deck shuffle self1 player inp h1 D1 d1 Hn Hdeck1)
    in Hrun.
  assert (player ∈ players self1) as Hin1 by (by rewrite Hps).
  pose proof (draw_keeps_deck shuffle self1 player inp h1 D1 d1 self' h'
                Hwf1 Hin1 Hn Hdeck1 Hrun)
    as (Hwf' & Hps' & Hw' & Hpile' & Hall' & _ & Hlen' & Hothers' & Hne').
  unfold draw_keeps. split_and!; try done; try congruence.
  - by rewrite Hall'.
  - by rewrite !card_count_length, Hall', Hall.
  - rewrite Hlen'. unfold cards_of. by rewrite Hhands.
  - intros q Hq Hqn. rewrite Hothers' by (by rewrite ?Hps). by apply Hhands.
Qed.

(** X8.  For a shuffle that permutes and a game whose deck, discard pile
    and hands are separate lists, every draw phase that finishes (draw
    from the pile, draw from the deck and keep, draw and discard, with or
    without recycling) keeps the cards of the game: deck, pile, hands and
    wild card hold the same cards as before, [|Deck| + |DiscardPile| +
    sum of |Hands| + 1] is unchanged, the hand of the player at turn has
    as many cards as before and the other hands are untouched, the pile
    is not empty, and the lists are still separate objects. *)
Theorem draw_phase_keeps_cards self player inp (h : heap) self' h' :
  game_wf self h ->
  player ∈ players self ->
  draw_phase shuffle self player inp h = Done self' h' ->
  draw_keeps self player h self' h'.
Proof. apply draw_phase_draw_keeps. Qed.
End draw_facts.

Lemma draw_phase_keeps_cards_witness :
  let inp := mkDrawInput "n" "y" 2 in
  exists self' h',
    (forall l : list Card, reverse l ≡ₚ l)
    /\ game_wf table empty_deck_heap
    /\ north ∈ players table
    /\ draw_phase reverse table north inp empty_deck_heap = Done self' h'
    /\ draw_keeps table north empty_deck_heap self' h'.
Proof.
  intros inp. eexists _, _.
  assert (draw_phase reverse table north inp empty_deck_heap = Done _ _) as Hrun
    by (vm_compute; reflexivity).
  assert (game_wf table empty_deck_heap) as Hwf.
  { split.
    - apply (bool_decide_unpack _). vm_compute. exact I.
    - repeat constructor; eexists; reflexivity. }
  assert (north ∈ players table) as Hin by left.
  split; [exact reverse_Permutation|]. split; [exact Hwf|]. split; [exact Hin|].
  split; [exact Hrun|].
  exact (draw_phase_keeps_cards reverse reverse_Permutation _ _ _ _ _ _ Hwf Hin Hrun).
Defined.

(** ** Rearranging the hand *)

Lemma Sorted_impl {A} (R R' : relation A) l :
  (forall a b, R a b -> R' a b) -> Sorted R l -> Sorted R' l.
Proof.
  intros HR. induction 1 as [|x l Hl IH Hx]; constructor; [done|].
  destruct Hx; constructor. by apply HR.
Qed.

Section py_sort_reverse_facts.
Context {A : Type} (le : A -> A -> bool).

(** Elements with the same key keep their order: the sort is stable. *)
Lemma insert_sorted_filter (P : A -> Prop) `{!forall x, Decision (P x)} x l :
  (forall y, P x -> P y -> le x y = true) ->
  filter P (insert_sorted le x l) = filter P (x :: l).
Proof.
  intros HP. induction l as [|y l IH]; [done|].
  cbn [insert_sorted]. destruct (le x y) eqn:Hxy; [done|].
  rewrite filter_cons, IH, !filter_cons.
  destruct (decide (P y)), (decide (P x)); try done.
  by rewrite HP in Hxy.
Qed.

Lemma py_sort_filter (P : A -> Prop) `{!forall x, Decision (P x)} l :
  (forall x y, P x -> P y -> le x y = true) ->
  filter P (py_sort le l) = filter P l.
Proof.
  intros HP. induction l as [|x l IH]; [done|].
  change (py_sort le (x :: l)) with (insert_sorted le x (py_sort le l)).
  rewrite insert_sorted_filter by (intros y; apply HP).
  by rewrite !filter_cons, IH.
Qed.

Lemma py_sort_reverse_filter (P : A -> Prop) `{!forall x, Decision (P x)} l :
  (forall x y, P x -> P y -> le x y = true) ->
  filter P (py_sort_reverse le l) = filter P l.
Proof.
  intros HP. unfold py_sort_reverse.
  by rewrite filter_reverse, py_sort_filter, filter_reverse, reverse_involutive.
Qed.

Lemma py_sort_reverse_perm l : py_sort_reverse le l ≡ₚ l.
Proof.
  unfold py_sort_reverse.
  by rewrite reverse_Permutation, py_sort_perm, reverse_Permutation.
Qed.

Lemma py_sort_reverse_Sorted l :
  (forall a b, le a b = false -> le b a = true) ->
  Sorted (fun a b => le b a = true) (py_sort_reverse le l).
Proof.
  intros Htot. unfold py_sort_reverse.
  apply (Sorted_reverse (fun a b => le a b = true)). by apply py_sort_Sorted.
Qed.
End py_sort_reverse_facts.

Lemma list_sort_reverse_eq le l (h : heap) v :
  h !! l = Some v ->
  list_sort_reverse le l h = Done () (<[l := py_sort_reverse le v]> h).
Proof.
  intros H. unfold list_sort_reverse.
  by rewrite hm_bind_eq, (list_read_eq _ _ _ H).
Qed.

(** X9.  Choice 1 of the rearrange menu sorts the hand by rank, highest
    first: the hand holds the same cards, no card is followed by one of a
    higher rank, and the cards of one rank stay in the order they had. *)
Theorem sort_by_rank_descending_stable player inp (h : heap) v :
  h !! hand player = Some v ->
  sort_by inp = 1 ->
  exists v',
    rearrange_round player inp h = Done () (<[hand player := v']> h)
    /\ v' ≡ₚ v
    /\ Sorted (fun a b => rank b <= rank a) v'
    /\ forall r, filter (fun c => rank c = r) v' = filter (fun c => rank c = r) v.
Proof.
  intros Hh Hs. exists (py_sort_reverse rank_le v). split_and!.
  - unfold rearrange_round. rewrite Hs. simpl. by apply list_sort_reverse_eq.
  - apply py_sort_reverse_perm.
  - eapply Sorted_impl; [|apply py_sort_reverse_Sorted, rank_le_total].
    intros a b. unfold rank_le. apply Z.leb_le.
  - intros r. apply py_sort_reverse_filter.
    intros x y Hx Hy. unfold rank_le. apply Z.leb_le. lia.
Qed.

Lemma sort_by_rank_descending_stable_witness :
  let h : heap := {[ 2%nat := [heart3; spadeJ; heart5; diamondJ] ]} in
  exists v',
    rearrange_round north (mkRearrangeInput 1 0 0) h
    = Done () (<[hand north := v']> h)
    /\ v' ≡ₚ [heart3; spadeJ; heart5; diamondJ]
    /\ Sorted (fun a b => rank b <= rank a) v'
    /\ forall r, filter (fun c => rank c = r) v'
                 = filter (fun c => rank c = r) [heart3; spadeJ; heart5; diamondJ].
Proof.
  intros h.
  apply (sort_by_rank_descending_stable north (mkRearrangeInput 1 0 0) h);
    reflexivity.
Defined.

(** X10.  Choice 2 of the rearrange menu sorts the hand by suit and, in
    a suit, by rank, highest first: the hand holds the same cards, every
    card is followed by one of a lower suit or of the same suit and a
    rank not higher, and the order the choice leaves depends on the cards
    of the hand only, not on the order they were in. *)
Theorem sort_by_suit_and_rank_descending player inp (h : heap) v :
  h !! hand player = Some v ->
  sort_by inp = 2 ->
  exists v',
    rearrange_round player inp h = Done () (<[hand player := v']> h)
    /\ v' ≡ₚ v
    /\ Sorted (fun a b => suit b < suit a \/ (suit b = suit a /\ rank b <= rank a)) v'
    /\ forall u (h2 : heap), u ≡ₚ v -> h2 !! hand player = Some u ->
         rearrange_round player inp h2 = Done () (<[hand player := v']> h2).
Proof.
  intros Hh Hs. exists (py_sort_reverse suit_rank_le v).
  assert (forall h0 : heap, forall u, h0 !! hand player = Some u ->
            rearrange_round player inp h0
            = Done () (<[hand player := py_sort_reverse suit_rank_le u]> h0)) as Hrun.
  { intros h0 u Hu. unfold rearrange_round. rewrite Hs. simpl.
    by apply list_sort_reverse_eq. }
  split_and!.
  - by apply Hrun.
  - apply py_sort_reverse_perm.
  - eapply Sorted_impl; [|apply py_sort_reverse_Sorted, suit_rank_le_total].
    intros a b. apply suit_rank_le_spec.
  - intros u h2 Hu Hh2. rewrite (Hrun _ _ Hh2). do 2 f_equal.
    unfold py_sort_reverse. f_equal. apply py_sort_suit_rank_Permutation.
    by rewrite !reverse_Permutation.
Qed.

Lemma sort_by_suit_and_rank_descending_witness :
  let h : heap := {[ 2%nat := [heart3; spadeJ; heart5; diamondJ] ]} in
  exists v',
    rearrange_round north (mkRearrangeInput 2 0 0) h
    = Done () (<[hand north := v']> h)
    /\ v' ≡ₚ [heart3; spadeJ; heart5; diamondJ]
    /\ Sorted (fun a b => suit b < suit a \/ (suit b = suit a /\ rank b <= rank a)) v'
    /\ forall u (h2 : heap), u ≡ₚ [heart3; spadeJ; heart5; diamondJ] ->
         h2 !! hand north = Some u ->
         rearrange_round north (mkRearrangeInput 2 0 0) h2
         = Done () (<[hand north := v']> h2).
Proof.
  intros h.
  apply (sort_by_suit_and_rank_descending north (mkRearrangeInput 2 0 0) h);
    reflexivity.
Defined.

(** *** Swapping two cards *)

Lemma resolvable_norm_index hand ind :
  resolvable hand ind <-> is_Some (py_norm_index (length hand) (ind - 1)).
Proof. rewrite py_norm_index_is_Some. unfold resolvable. lia. Qed.

Lemma py_getitem_norm {A} (l : list A) k i :
  py_norm_index (length l) k = Some i ->
  exists x, l !! i = Some x /\ py_getitem l k = Ok x.
Proof.
  intros Hi. pose proof (py_norm_index_Some _ _ _ Hi) as [Hlt _].
  destruct (lookup_lt_is_Some_2 l i Hlt) as [x Hx]. exists x. split; [done|].
  unfold py_getitem. by rewrite Hi, Hx.
Qed.

Lemma py_getitem_norm_None {A} (l : list A) k :
  py_norm_index (length l) k = None -> py_getitem l k = Raise IndexError.
Proof. intros Hi. unfold py_getitem. by rewrite Hi. Qed.

Lemma list_setitem_eq l k x (h : heap) v i :
  h !! l = Some v ->
  py_norm_index (length v) k = Some i ->
  list_setitem l k x h = Done () (<[l := <[i := x]> v]> h).
Proof.
  intros H Hi. unfold list_setitem.
  rewrite hm_bind_eq, (list_read_eq _ _ _ H), hm_bind_eq.
  unfold py_setitem. by rewrite Hi.
Qed.

(** A swap inside the hand: both cards are read, then both are written. *)
Lemma swap_card_eq player k1 k2 (h : heap) v i j c1 c2 :
  h !! hand player = Some v ->
  py_norm_index (length v) k1 = Some i ->
  py_norm_index (length v) k2 = Some j ->
  v !! i = Some c1 -> v !! j = Some c2 ->
  swap_card player k1 k2 h
  = Done () (<[hand player := <[j := c1]> (<[i := c2]> v)]> h).
Proof.
  intros H Hi Hj Hc1 Hc2. unfold swap_card.
  destruct (py_getitem_norm v k1 i Hi) as (c1' & Hc1' & Hg1).
  destruct (py_getitem_norm v k2 j Hj) as (c2' & Hc2' & Hg2).
  assert (c1' = c1) as -> by congruence.
  assert (c2' = c2) as -> by congruence.
  rewrite hm_bind_eq, (list_getitem_eq _ _ _ _ H), Hg2.
  rewrite hm_bind_eq, (list_getitem_eq _ _ _ _ H), Hg1.
  rewrite hm_bind_eq, (list_setitem_eq _ _ _ _ _ i H Hi).
  rewrite (list_setitem_eq _ _ _ _ (<[i:=c2]> v) j).
  - by rewrite insert_insert_eq.
  - apply lookup_insert_eq.
  - by rewrite length_insert.
Qed.

(** A swap with an index outside the hand raises before anything is
    written. *)
Lemma swap_card_raises player k1 k2 (h : heap) v :
  h !! hand player = Some v ->
  py_norm_index (length v) k1 = None \/ py_norm_index (length v) k2 = None ->
  swap_card player k1 k2 h = Crash IndexError h.
Proof.
  intros H Hnone. unfold swap_card.
  rewrite hm_bind_eq, (list_getitem_eq _ _ _ _ H).
  destruct (py_norm_index (length v) k2) as [j|] eqn:Hj.
  - destruct (py_getitem_norm v k2 j Hj) as (c2 & _ & ->).
    rewrite hm_bind_eq, (list_getitem_eq _ _ _ _ H).
    destruct Hnone as [Hn|Hn]; [|done]. by rewrite (py_getitem_norm_None _ _ Hn).
  - by rewrite (py_getitem_norm_None _ _ Hj).
Qed.

Lemma swap_round_eq player inp :
  sort_by inp = 3 ->
  rearrange_round player inp
  = swap_card player (card1_ind inp - 1) (card2_ind inp - 1).
Proof. intros Hs. unfold rearrange_round. by rewrite Hs. Qed.

(** X11.  Choice 3 of the rearrange menu, on the two numbers typed: when
    both name a card of the hand (a number from [1 - len(hand)] to
    [len(hand)]; 0 and negative numbers count from the end), the two
    cards change places and every other card stays where it is; when one
    of them does not, [IndexError] is raised and the hand is as it
    was. *)
Theorem swap_exchanges_or_raises player inp (h : heap) v :
  h !! hand player = Some v ->
  sort_by inp = 3 ->
  (resolvable v (card1_ind inp) /\ resolvable v (card2_ind inp) ->
   exists v',
     rearrange_round player inp h = Done () (<[hand player := v']> h)
     /\ length v' = length v
     /\ py_getitem v' (card1_ind inp - 1) = py_getitem v (card2_ind inp - 1)
     /\ py_getitem v' (card2_ind inp - 1) = py_getitem v (card1_ind inp - 1)
     /\ forall n : nat,
          py_norm_index (length v) (card1_ind inp - 1) <> Some n ->
          py_norm_index (length v) (card2_ind inp - 1) <> Some n ->
          v' !! n = v !! n)
  /\ (~ (resolvable v (card1_ind inp) /\ resolvable v (card2_ind inp)) ->
      rearrange_round player inp h = Crash IndexError h).
Proof.
  intros Hh Hs. rewrite (swap_round_eq _ _ Hs), !resolvable_norm_index. split.
  - intros [[i Hi] [j Hj]].
    destruct (py_getitem_norm v _ i Hi) as (c1 & Hc1 & Hg1).
    destruct (py_getitem_norm v _ j Hj) as (c2 & Hc2 & Hg2).
    pose proof (lookup_lt_Some _ _ _ Hc1) as Hil.
    pose proof (lookup_lt_Some _ _ _ Hc2) as Hjl.
    exists (<[j := c1]> (<[i := c2]> v)). split_and!.
    + by apply swap_card_eq.
    + by rewrite !length_insert.
    + rewrite Hg2. unfold py_getitem. rewrite !length_insert, Hi.
      destruct (decide (i = j)) as [->|Hne].
      * rewrite list_lookup_insert_eq by (by rewrite length_insert).
        by simplify_eq.
      * rewrite list_lookup_insert_ne by done.
        by rewrite list_lookup_insert_eq.
    + rewrite Hg1. unfold py_getitem. rewrite !length_insert, Hj.
      by rewrite list_lookup_insert_eq by (by rewrite length_insert).
    + intros n Hn1 Hn2. rewrite Hi in Hn1. rewrite Hj in Hn2.
      rewrite !list_lookup_insert_ne; [done| |]; congruence.
  - intros Hnot. apply (swap_card_raises _ _ _ _ v Hh).
    destruct (py_norm_index (length v) (card1_ind inp - 1)); [|by left].
    destruct (py_norm_index (length v) (card2_ind inp - 1)); [|by right].
    exfalso. apply Hnot. by split.
Qed.

Lemma swap_exchanges_or_raises_witness :
  let h : heap := {[ 2%nat := [heart3; spadeJ; heart5; diamondJ] ]} in
  rearrange_round north (mkRearrangeInput 3 0 2) h
  = Done () (<[2%nat := [heart3; diamondJ; heart5; spadeJ]]> h)
  /\ rearrange_round north (mkRearrangeInput 3 1 5) h = Crash IndexError h.
Proof.
  intros h.
  pose proof (swap_exchanges_or_raises north (mkRearrangeInput 3 0 2) h _
                eq_refl eq_refl) as [Hswap _].
  pose proof (swap_exchanges_or_raises north (mkRearrangeInput 3 1 5) h _
                eq_refl eq_refl) as [_ Hraise].
  split.
  - destruct Hswap as (v' & Hrun & _); [unfold resolvable; simpl; lia|].
    rewrite Hrun. vm_compute in Hrun. by simplify_eq.
  - apply Hraise. unfold resolvable. simpl. lia.
Defined.

(** X12.  The same swap done twice gives back the hand as it was. *)
Theorem swap_twice_restores player inp (h : heap) v h' :
  h !! hand player = Some v ->
  sort_by inp = 3 ->
  rearrange_round player inp h = Done () h' ->
  rearrange_round player inp h' = Done () h.
Proof.
  intros Hh Hs. rewrite (swap_round_eq _ _ Hs).
  destruct (py_norm_index (length v) (card1_ind inp - 1)) as [i|] eqn:Hi;
    [|by rewrite (swap_card_raises _ _ _ _ v Hh) by (by left)].
  destruct (py_norm_index (length v) (card2_ind inp - 1)) as [j|] eqn:Hj;
    [|by rewrite (swap_card_raises _ _ _ _ v Hh) by (by right)].
  destruct (py_getitem_norm v _ i Hi) as (c1 & Hc1 & _).
  destruct (py_getitem_norm v _ j Hj) as (c2 & Hc2 & _).
  pose proof (lookup_lt_Some _ _ _ Hc1) as Hil.
  pose proof (lookup_lt_Some _ _ _ Hc2) as Hjl.
  rewrite (swap_card_eq _ _ _ _ v i j c1 c2) by done.
  intros [= <-].
  set (v' := <[j := c1]> (<[i := c2]> v)).
  assert (length v' = length v) as Hlen by (unfold v'; by rewrite !length_insert).
  assert (v' !! j = Some c1) as Hj'.
  { unfold v'. by rewrite list_lookup_insert_eq by (by rewrite length_insert). }
  assert (v' !! i = Some (if decide (i = j) then c1 else c2)) as Hi'.
  { unfold v'. case_decide as Hij.
    - subst j. by rewrite list_lookup_insert_eq by (by rewrite length_insert).
    - rewrite list_lookup_insert_ne by done. by rewrite list_lookup_insert_eq. }
  rewrite (swap_card_eq _ _ _ _ v' i j _ _ (lookup_insert_eq _ _ _))
    by (by rewrite ?Hlen).
  rewrite insert_insert_eq.
  assert (<[j := if decide (i = j) then c1 else c2]>
            (<[i := c1]> v') = v) as ->.
  { unfold v'. case_decide as Hij.
    - subst j. rewrite !list_insert_insert_eq. by apply list_insert_id.
    - rewrite (list_insert_insert_ne _ i j) by done.
      rewrite !list_insert_insert_eq, (list_insert_id v i c1) by done.
      by apply list_insert_id. }
  by rewrite insert_id.
Qed.

Lemma swap_twice_restores_witness :
  let h : heap := {[ 2%nat := [heart3; spadeJ; heart5; diamondJ] ]} in
  let h' : heap := {[ 2%nat := [heart3; diamondJ; heart5; spadeJ] ]} in
  rearrange_round north (mkRearrangeInput 3 0 2) h' = Done () h.
Proof.
  intros h h'.
  apply (swap_twice_restores north (mkRearrangeInput 3 0 2) h
           [heart3; spadeJ; heart5; diamondJ] h'); reflexivity.
Defined.

(** *** The rearrange phase as a whole *)

Lemma rearrange_round_cases player inp (h : heap) v :
  h !! hand player = Some v ->
  (exists v', v' ≡ₚ v
     /\ rearrange_round player inp h = Done () (<[hand player := v']> h))
  \/ rearrange_round player inp h = Crash IndexError h.
Proof.
  intros Hh. unfold rearrange_round.
  destruct (sort_by inp =? 1); [|destruct (sort_by inp =? 2);
    [|destruct (sort_by inp =? 3)]].
  - left. eexists. split; [|by apply list_sort_reverse_eq].
    apply py_sort_reverse_perm.
  - left. eexists. split; [|by apply list_sort_reverse_eq].
    apply py_sort_reverse_perm.
  - destruct (py_norm_index (length v) (card1_ind inp - 1)) as [i|] eqn:Hi;
      [|right; apply (swap_card_raises _ _ _ _ v Hh); by left].
    destruct (py_norm_index (length v) (card2_ind inp - 1)) as [j|] eqn:Hj;
      [|right; apply (swap_card_raises _ _ _ _ v Hh); by right].
    destruct (py_getitem_norm v _ i Hi) as (c1 & Hc1 & _).
    destruct (py_getitem_norm v _ j Hj) as (c2 & Hc2 & _).
    left. eexists. split; [|by eapply swap_card_eq].
    by apply Permutation_insert_swap.
  - left. exists v. split; [done|]. simpl. by rewrite insert_id.
Qed.

Lemma rearrange_loop_keeps player inputs (h : heap) v :
  h !! hand player = Some v ->
  exists v', v' ≡ₚ v
    /\ final_heap (rearrange_loop player inputs h) = <[hand player := v']> h.
Proof.
  revert h v. induction inputs as [|inp inputs IH]; intros h v Hh.
  - exists v. split; [done|]. simpl. by rewrite insert_id.
  - cbn [rearrange_loop]. rewrite hm_bind_eq.
    destruct (rearrange_round_cases player inp h v Hh) as [(v1 & Hp & ->)| ->].
    + destruct (negb _).
      * by exists v1.
      * destruct (IH (<[hand player := v1]> h) v1 (lookup_insert_eq _ _ _))
          as (v' & Hp' & ->).
        exists v'. split; [by rewrite Hp'|]. by rewrite insert_insert_eq.
    + exists v. split; [done|]. simpl. by rewrite insert_id.
Qed.

(** X13.  Whatever is typed during the rearrange phase (sorts, swaps in
    and out of range, leaving the menu), and whether the phase ends,
    waits for more input or raises, the hand of the player holds at the
    end the same cards as before, in some order, and no other list is
    touched. *)
Theorem rearrange_keeps_cards player rearrange_flag inputs (h : heap) v :
  h !! hand player = Some v ->
  exists v', v' ≡ₚ v
    /\ final_heap (rearrange player rearrange_flag inputs h)
       = <[hand player := v']> h.
Proof.
  intros Hh. unfold rearrange. destruct (String.eqb _ _).
  - by apply rearrange_loop_keeps.
  - exists v. split; [done|]. simpl. by rewrite insert_id.
Qed.

Lemma rearrange_keeps_cards_witness :
  let h : heap := {[ 2%nat := [heart3; spadeJ; heart5; diamondJ] ]} in
  exists v', v' ≡ₚ [heart3; spadeJ; heart5; diamondJ]
    /\ final_heap (rearrange north "y"
                     [mkRearrangeInput 1 0 0; mkRearrangeInput 3 1 9] h)
       = <[hand north := v']> h.
Proof.
  intros h. by apply (rearrange_keeps_cards north "y" _ h).
Defined.

(** ** Dealing *)

(** One card dealt: the top card of the deck goes to the end of the hand
    of [player]. *)
Lemma deal_one self player (h : heap) D c H :
  game_wf self h -> player ∈ players self ->
  h !! deck_cards self = Some (D ++ [c]) ->
  h !! hand player = Some H ->
  (card ← pop_card self; add_card player card) h
  = Done () (<[hand player := H ++ [c]]> (<[deck_cards self := D]> h))
  /\ game_wf self (<[hand player := H ++ [c]]> (<[deck_cards self := D]> h))
  /\ all_cards self (<[hand player := H ++ [c]]> (<[deck_cards self := D]> h))
     ≡ₚ all_cards self h.
Proof.
  intros Hwf Hin HD HH.
  destruct (game_wf_locs _ _ _ Hwf Hin) as (Hdp & Hdh & Hph & _ & [P HP] & _).
  split_and!.
  - unfold pop_card, add_card.
    rewrite hm_bind_eq, (list_pop_last_eq _ _ _ _ HD).
    apply list_append_eq. by rewrite lookup_insert_ne.
  - by do 2 apply game_wf_insert.
  - destruct (all_cards_view self player h (proj1 Hwf) Hin) as [R HR].
    rewrite (HR _ D P (H ++ [c])).
    + rewrite (HR h (D ++ [c]) P H) by done.
      rewrite <- !app_assoc. simpl. by rewrite <- !Permutation_middle.
    + rewrite lookup_insert_ne by (by apply not_eq_sym).
      apply lookup_insert_eq.
    + rewrite !lookup_insert_ne by (by apply not_eq_sym). done.
    + apply lookup_insert_eq.
    + intros q Hq Hne.
      destruct (game_wf_locs _ _ _ Hwf Hq) as (_ & Hdq & _).
      by rewrite !lookup_insert_ne by (by apply not_eq_sym).
Qed.

(** One round of the deal over the players [ps] still to be served:
    [cs] are the cards in the order they are drawn. *)
Lemma deal_round_spec self ps (h : heap) D cs :
  game_wf self h ->
  (forall p, p ∈ ps -> p ∈ players self) ->
  NoDup (hand <$> ps) ->
  h !! deck_cards self = Some (D ++ reverse cs) ->
  length cs = length ps ->
  exists h' : heap,
    deal_round self ps h = Done () h'
    /\ game_wf self h'
    /\ h' !! deck_cards self = Some D
    /\ all_cards self h' ≡ₚ all_cards self h
    /\ (forall i p c, ps !! i = Some p -> cs !! i = Some c ->
          h' !! hand p = Some (cards_of h (hand p) ++ [c]))
    /\ (forall l, l <> deck_cards self -> l ∉ hand <$> ps -> h' !! l = h !! l).
Proof.
  revert h cs. induction ps as [|p ps IH]; intros h cs Hwf Hsub Hnd HD Hlen.
  - destruct cs; [|done]. rewrite reverse_nil, app_nil_r in HD.
    exists h. split_and!; try done.
  - destruct cs as [|c cs]; [done|].
    rewrite reverse_cons, app_assoc in HD.
    rewrite fmap_cons in Hnd. apply NoDup_cons in Hnd as [Hp Hnd].
    assert (p ∈ players self) as Hin by (apply Hsub; left).
    destruct (game_wf_locs _ _ _ Hwf Hin) as (_ & Hdh & _ & _ & _ & [H HH]).
    destruct (deal_one self p h _ c H Hwf Hin HD HH) as (Hrun & Hwf1 & Hall1).
    set (h1 := <[hand p := H ++ [c]]> (<[deck_cards self := D ++ reverse cs]> h))
      in *.
    assert (h1 !! deck_cards self = Some (D ++ reverse cs)) as HD1.
    { unfold h1. rewrite lookup_insert_ne by (by apply not_eq_sym).
      apply lookup_insert_eq. }
    destruct (IH h1 cs Hwf1) as (h' & Hrun' & Hwf' & HD' & Hall' & Hcards & Hframe);
      [intros q Hq; apply Hsub; by right|done|done|simpl in Hlen; lia|].
    exists h'. split_and!; try done.
    + cbn [deal_round]. rewrite hm_bind_eq.
      unfold pop_card, add_card in *. rewrite hm_bind_eq in Hrun.
      destruct (list_pop_last (deck_cards self) h) as [card h0|e h0]; [|done].
      rewrite hm_bind_eq, Hrun. exact Hrun'.
    + by rewrite Hall'.
    + intros i q c' Hq Hc'. destruct i as [|i]; simpl in Hq, Hc'.
      * simplify_eq. rewrite Hframe by (done || by apply not_eq_sym).
        unfold h1, cards_of. rewrite HH. apply lookup_insert_eq.
      * rewrite (Hcards i q c' Hq Hc'). do 2 f_equal.
        assert (hand q <> hand p) as Hne.
        { intros Heq. apply Hp. rewrite <- Heq.
          by eapply list_elem_of_fmap_2, list_elem_of_lookup_2. }
        assert (q ∈ players self) as Hqin
          by (apply Hsub; right; by eapply list_elem_of_lookup_2).
        destruct (game_wf_locs _ _ _ Hwf Hqin) as (_ & Hdq & _).
        unfold cards_of, h1.
        by rewrite !lookup_insert_ne by (by apply not_eq_sym).
    + intros l Hld Hl. rewrite fmap_cons in Hl.
      apply not_elem_of_cons in Hl as [Hlp Hl].
      rewrite Hframe by done. unfold h1.
      by rewrite !lookup_insert_ne by (by apply not_eq_sym).
Qed.

(** A round on a deck with fewer cards than players to serve raises. *)
Lemma deal_round_short self ps (h : heap) D :
  game_wf self h ->
  (forall p, p ∈ ps -> p ∈ players self) ->
  h !! deck_cards self = Some D ->
  (length D < length ps)%nat ->
  exists h' : heap, deal_round self ps h = Crash IndexError h'.
Proof.
  revert h D. induction ps as [|p ps IH]; intros h D Hwf Hsub HD Hlen.
  - simpl in Hlen. lia.
  - cbn [deal_round]. rewrite hm_bind_eq.
    destruct (last_or_empty D) as [->|(D' & c & ->)].
    + exists h. unfold pop_card. by rewrite (list_pop_last_empty _ _ HD).
    + assert (p ∈ players self) as Hin by (apply Hsub; left).
      destruct (game_wf_locs _ _ _ Hwf Hin) as (_ & Hdh & _ & _ & _ & [H HH]).
      destruct (deal_one self p h _ c H Hwf Hin HD HH) as (Hrun & Hwf1 & _).
      unfold pop_card, add_card in *. rewrite hm_bind_eq in Hrun.
      destruct (list_pop_last (deck_cards self) h) as [card h0|e h0]; [|done].
      rewrite hm_bind_eq, Hrun.
      apply (IH _ D'); [done|intros q Hq; apply Hsub; by right| |].
      * rewrite lookup_insert_ne by (by apply not_eq_sym).
        apply lookup_insert_eq.
      * rewrite length_app in Hlen. simpl in Hlen. lia.
Qed.

Lemma game_wf_hands self (h : heap) : game_wf self h -> NoDup (hand <$> players self).
Proof.
  intros [Hnd _]. unfold game_locs in Hnd.
  apply NoDup_cons in Hnd as [_ Hnd]. by apply NoDup_cons in Hnd as [_ Hnd].
Qed.

(** The rounds of the deal: [rounds] are the cards of each round in the
    order they are drawn. *)
Lemma deal_rounds_spec self rounds (h : heap) D :
  game_wf self h ->
  Forall (fun r => length r = length (players self)) rounds ->
  h !! deck_cards self = Some (D ++ reverse (concat rounds)) ->
  exists h' : heap,
    deal_rounds self (length rounds) h = Done () h'
    /\ game_wf self h'
    /\ h' !! deck_cards self = Some D
    /\ all_cards self h' ≡ₚ all_cards self h
    /\ (forall i p, players self !! i = Some p ->
          h' !! hand p
          = Some (cards_of h (hand p) ++ omap (fun r => r !! i) rounds))
    /\ (forall l, l <> deck_cards self -> l ∉ hand <$> players self ->
          h' !! l = h !! l).
Proof.
  revert h. induction rounds as [|r rounds IH]; intros h Hwf Hlen HD.
  - simpl in HD. rewrite reverse_nil, app_nil_r in HD.
    exists h. split_and!; try done.
    intros i p Hp. simpl. rewrite app_nil_r.
    assert (p ∈ players self) as Hin by (by eapply list_elem_of_lookup_2).
    destruct (game_wf_locs _ _ _ Hwf Hin) as (_ & _ & _ & _ & _ & [H HH]).
    unfold cards_of. by rewrite HH.
  - apply Forall_cons in Hlen as [Hr Hlen].
    simpl in HD. rewrite reverse_app, app_assoc in HD.
    destruct (deal_round_spec self (players self) h
                (D ++ reverse (concat rounds)) r Hwf)
      as (h1 & Hrun1 & Hwf1 & HD1 & Hall1 & Hcards1 & Hframe1);
      [done|by eapply game_wf_hands|done|done|].
    destruct (IH h1 Hwf1 Hlen HD1)
      as (h' & Hrun' & Hwf' & HD' & Hall' & Hcards' & Hframe').
    exists h'. split_and!; try done.
    + cbn [length deal_rounds]. rewrite hm_bind_eq, Hrun1. exact Hrun'.
    + by rewrite Hall'.
    + intros i p Hp. rewrite (Hcards' i p Hp).
      destruct (lookup_lt_is_Some_2 r i) as [c Hc];
        [rewrite Hr; by eapply lookup_lt_Some|].
      cbn [omap list_omap]. rewrite Hc.
      unfold cards_of at 1. rewrite (Hcards1 i p c Hp Hc). simpl.
      by rewrite <- app_assoc.
    + intros l Hld Hl. by rewrite Hframe', Hframe1.
Qed.

(** A deck cut into what stays and the rounds that are dealt. *)
Lemma deck_rounds {A} (l : list A) n p :
  (n * p <= length l)%nat ->
  exists D rounds,
    l = D ++ reverse (concat rounds)
    /\ length rounds = n
    /\ Forall (fun r => length r = p) rounds
    /\ (length D + n * p = length l)%nat.
Proof.
  revert l. induction n as [|n IH]; intros l Hlen.
  - exists l, []. split_and!; try done.
    simpl. by rewrite reverse_nil, app_nil_r.
  - set (k := (length l - p)%nat).
    destruct (IH (take k l)) as (D & rounds & HD & Hn & Hall & HlenD).
    { rewrite length_take. simpl in Hlen. lia. }
    exists D, (reverse (drop k l) :: rounds). split_and!.
    + simpl. rewrite reverse_app, reverse_involutive, app_assoc, <- HD.
      by rewrite take_drop.
    + simpl. by rewrite Hn.
    + constructor; [|done]. rewrite length_reverse, length_drop.
      simpl in Hlen. lia.
    + rewrite length_take in HlenD. simpl in Hlen |- *. lia.
Qed.

Lemma deal_rounds_short self n (h : heap) D :
  game_wf self h ->
  h !! deck_cards self = Some D ->
  (length D < n * length (players self))%nat ->
  exists h' : heap, deal_rounds self n h = Crash IndexError h'.
Proof.
  revert h D. induction n as [|n IH]; intros h D Hwf HD Hlen.
  - simpl in Hlen. lia.
  - cbn [deal_rounds]. rewrite hm_bind_eq.
    destruct (decide (length D < length (players self))%nat) as [Hlt|Hge].
    + destruct (deal_round_short self (players self) h D Hwf) as [h' ->];
        [done|done|done|]. by exists h'.
    + destruct (deck_rounds D 1 (length (players self)))
        as (D' & rounds & -> & Hn & Hall & HlenD); [lia|].
      destruct rounds as [|r [|? ?]]; try done.
      apply Forall_cons in Hall as [Hr _].
      simpl in HD. rewrite app_nil_r in HD.
      destruct (deal_round_spec self (players self) h D' r Hwf)
        as (h1 & -> & Hwf1 & HD1 & _);
        [done|by eapply game_wf_hands|done|done|].
      apply (IH h1 D' Hwf1 HD1).
      rewrite length_app in Hlen. simpl in Hlen.
      rewrite app_nil_r, length_reverse, Hr in Hlen. lia.
Qed.

Lemma omap_lookup_length {A} (rounds : list (list A)) p i :
  Forall (fun r => length r = p) rounds -> (i < p)%nat ->
  length (omap (fun r => r !! i) rounds) = length rounds.
Proof.
  intros Hall Hlt. induction Hall as [|r rounds Hr _ IH]; [done|].
  destruct (lookup_lt_is_Some_2 r i) as [c Hc]; [by rewrite Hr|].
  cbn [omap list_omap]. rewrite Hc. simpl. by rewrite IH.
Qed.

(** The deal on a deck with enough cards, by the number of cards. *)
Lemma deal_rounds_enough self n (h : heap) D :
  game_wf self h ->
  h !! deck_cards self = Some D ->
  (n * length (players self) <= length D)%nat ->
  exists h' : heap,
    deal_rounds self n h = Done () h'
    /\ game_wf self h'
    /\ all_cards self h' ≡ₚ all_cards self h
    /\ (length (cards_of h' (deck_cards self)) + n * length (players self)
        = length D)%nat
    /\ (forall p, p ∈ players self ->
          length (cards_of h' (hand p)) = (length (cards_of h (hand p)) + n)%nat)
    /\ (forall l, l <> deck_cards self -> l ∉ hand <$> players self ->
          h' !! l = h !! l).
Proof.
  intros Hwf HD Hlen.
  destruct (deck_rounds D _ _ Hlen) as (D' & rounds & -> & Hn & Hall & HlenD).
  destruct (deal_rounds_spec self rounds h D' Hwf Hall HD)
    as (h' & Hrun & Hwf' & HD' & Hperm & Hcards & Hframe).
  exists h'. rewrite <- Hn at 1. split_and!; try done.
  - unfold cards_of. rewrite HD'. simpl. lia.
  - intros p (i & Hi)%list_elem_of_lookup_1.
    unfold cards_of at 1. rewrite (Hcards i p Hi). simpl.
    rewrite length_app. f_equal. rewrite <- Hn.
    apply (omap_lookup_length _ (length (players self))); [done|].
    by eapply lookup_lt_Some.
Qed.

(** X14.  [deal_intial_card] deals round robin from the top of the deck:
    when the deck holds, above the cards [D], the cards of [n_cards]
    rounds of one card per player, the deal finishes, the deck is left
    with [D], the player at seat [i] has got, at the end of the hand and
    in the order of the rounds, the [i]-th card drawn in each round, the
    cards of the game are the same as before, and no other list is
    touched. *)
Theorem deal_round_robin self n_cards rounds (h : heap) D :
  game_wf self h ->
  Forall (fun r => length r = length (players self)) rounds ->
  h !! deck_cards self = Some (D ++ reverse (concat rounds)) ->
  Z.to_nat n_cards = length rounds ->
  exists h' : heap,
    deal_intial_card self n_cards h = Done () h'
    /\ game_wf self h'
    /\ h' !! deck_cards self = Some D
    /\ all_cards self h' ≡ₚ all_cards self h
    /\ (forall i p, players self !! i = Some p ->
          h' !! hand p
          = Some (cards_of h (hand p) ++ omap (fun r => r !! i) rounds))
    /\ (forall l, l <> deck_cards self -> l ∉ hand <$> players self ->
          h' !! l = h !! l).
Proof.
  intros Hwf Hall HD Hn. unfold deal_intial_card. rewrite Hn.
  by apply deal_rounds_spec.
Qed.

(** X15.  [deal_intial_card] finishes exactly when the deck holds
    [n_cards] cards for every player: then every hand has [n_cards]
    cards more and the deck that many fewer for each player; with fewer
    cards in the deck the deal raises [IndexError]. *)
Theorem deal_needs_enough_cards self n_cards (h : heap) D :
  game_wf self h ->
  h !! deck_cards self = Some D ->
  ((Z.to_nat n_cards * length (players self) <= length D)%nat ->
   exists h' : heap,
     deal_intial_card self n_cards h = Done () h'
     /\ (length (cards_of h' (deck_cards self))
         + Z.to_nat n_cards * length (players self) = length D)%nat
     /\ forall p, p ∈ players self ->
          length (cards_of h' (hand p))
          = (length (cards_of h (hand p)) + Z.to_nat n_cards)%nat)
  /\ ((length D < Z.to_nat n_cards * length (players self))%nat ->
      exists h' : heap, deal_intial_card self n_cards h = Crash IndexError h').
Proof.
  intros Hwf HD. split; intros Hlen.
  - destruct (deal_rounds_enough self _ h D Hwf HD Hlen)
      as (h' & Hrun & _ & _ & Hdeck & Hhands & _).
    by exists h'.
  - by apply (deal_rounds_short self _ h D).
Qed.

Lemma deal_round_robin_witness :
  let h : heap := {[ 0%nat := [heart3; heart5; spadeJ; diamondJ; heartJ];
                     1%nat := [joker]; 2%nat := []; 3%nat := [] ]} in
  exists h' : heap,
    deal_intial_card table 2 h = Done () h'
    /\ game_wf table h'
    /\ h' !! deck_cards table = Some [heart3]
    /\ all_cards table h' ≡ₚ all_cards table h
    /\ (forall i p, players table !! i = Some p ->
          h' !! hand p
          = Some (cards_of h (hand p)
                  ++ omap (fun r => r !! i) [[heartJ; diamondJ]; [spadeJ; heart5]]))
    /\ (forall l, l <> deck_cards table -> l ∉ hand <$> players table ->
          h' !! l = h !! l).
Proof.
  intros h.
  apply (deal_round_robin table 2 [[heartJ; diamondJ]; [spadeJ; heart5]] h [heart3]).
  - split.
    + apply (bool_decide_unpack _). vm_compute. exact I.
    + repeat constructor; eexists; reflexivity.
  - by repeat constructor.
  - reflexivity.
  - reflexivity.
Defined.

Lemma deal_needs_enough_cards_witness :
  let h : heap := {[ 0%nat := [heart3; heart5; spadeJ; diamondJ; heartJ];
                     1%nat := [joker]; 2%nat := []; 3%nat := [] ]} in
  (exists h' : heap,
     deal_intial_card table 2 h = Done () h'
     /\ (length (cards_of h' (deck_cards table)) + 2 * 2 = 5)%nat
     /\ forall p, p ∈ players table ->
          length (cards_of h' (hand p)) = (length (cards_of h (hand p)) + 2)%nat)
  /\ (exists h' : heap, deal_intial_card table 3 h = Crash IndexError h').
Proof.
  intros h.
  assert (game_wf table h) as Hwf.
  { split.
    - apply (bool_decide_unpack _). vm_compute. exact I.
    - repeat constructor; eexists; reflexivity. }
  split.
  - apply (proj1 (deal_needs_enough_cards table 2 h _ Hwf eq_refl)). simpl. lia.
  - apply (proj2 (deal_needs_enough_cards table 3 h _ Hwf eq_refl)). simpl. lia.
Defined.

(** ** Setting up a game *)

Lemma new_players_spec names (h : heap) :
  exists ps (h' : heap),
    new_players names h = Done ps h'
    /\ name <$> ps = names
    /\ NoDup (hand <$> ps)
    /\ (forall l, l ∈ hand <$> ps -> h !! l = None /\ h' !! l = Some [])
    /\ (forall l, l ∉ hand <$> ps -> h' !! l = h !! l).
Proof.
  revert h. induction names as [|n names IH]; intros h.
  - exists [], h. split_and!; try done; [constructor|].
    intros l Hl. by apply elem_of_nil in Hl.
  - set (l0 := fresh (dom h)).
    destruct (IH (<[l0 := []]> h)) as (ps & h' & Hrun & Hnames & Hnd & Hnew & Hold).
    assert (l0 ∉ hand <$> ps) as Hl0.
    { intros Hin. destruct (Hnew l0 Hin) as [Hnone _].
      by rewrite lookup_insert_eq in Hnone. }
    exists (mkPlayer l0 n :: ps), h'. split_and!.
    + cbn [new_players]. rewrite hm_bind_eq. unfold list_new. fold l0.
      by rewrite hm_bind_eq, Hrun.
    + by rewrite fmap_cons, Hnames.
    + rewrite fmap_cons. by apply NoDup_cons.
    + intros l. rewrite fmap_cons. intros [->|Hl]%elem_of_cons.
      * simpl. split; [apply not_elem_of_dom, is_fresh|].
        rewrite (Hold l0 Hl0). apply lookup_insert_eq.
      * destruct (Hnew l Hl) as [Hnone Hsome]. split; [|done].
        destruct (decide (l = l0)) as [->|Hne]; [done|].
        by rewrite lookup_insert_ne in Hnone.
    + intros l. rewrite fmap_cons. intros [Hne Hl]%not_elem_of_cons.
      simpl in Hne. rewrite (Hold l Hl). by rewrite lookup_insert_ne.
Qed.

Lemma hands_cards_empty ps (h : heap) :
  (forall l, l ∈ hand <$> ps -> h !! l = Some []) -> hands_cards ps h = [].
Proof.
  induction ps as [|p ps IH]; intros Hall; [done|].
  unfold hands_cards. rewrite fmap_cons. simpl. fold (hands_cards ps h).
  unfold cards_of. rewrite (Hall (hand p)) by (rewrite fmap_cons; left).
  simpl. apply IH. intros l Hl. apply Hall. rewrite fmap_cons. by right.
Qed.

(** A game is the same game for another seating order. *)
Lemma game_wf_seating self self' (h : heap) :
  players self' ≡ₚ players self ->
  deck_cards self' = deck_cards self ->
  discard_card_pile self' = discard_card_pile self ->
  game_wf self h -> game_wf self' h.
Proof.
  intros Hp Hd Hpile [Hnd Hall].
  assert (game_locs self' ≡ₚ game_locs self) as Hlocs.
  { unfold game_locs. by rewrite Hd, Hpile, Hp. }
  split; by rewrite Hlocs.
Qed.

Lemma all_cards_seating self self' (h : heap) :
  players self' ≡ₚ players self ->
  deck_cards self' = deck_cards self ->
  discard_card_pile self' = discard_card_pile self ->
  wild_card self' = wild_card self ->
  all_cards self' h ≡ₚ all_cards self h.
Proof.
  intros Hp Hd Hpile Hw. unfold all_cards. by rewrite Hd, Hpile, Hw, Hp.
Qed.

Lemma new_deck_length : length new_deck = 53%nat.
Proof. reflexivity. Qed.

Lemma Deck_init_eq shuffle (h : heap) :
  Deck_init shuffle h
  = Done (fresh (dom h))
         (<[fresh (dom h) := shuffle new_deck]> (<[fresh (dom h) := new_deck]> h)).
Proof.
  unfold Deck_init. rewrite hm_bind_eq. unfold list_new.
  rewrite hm_bind_eq, (list_read_eq _ _ new_deck) by apply lookup_insert_eq.
  done.
Qed.

Section setup_facts.
Variable shuffle : list Card -> list Card.
Variable shuffle_players : list Player -> list Player.
Hypothesis shuffle_perm : forall l, shuffle l ≡ₚ l.
Hypothesis shuffle_players_perm : forall l, shuffle_players l ≡ₚ l.

(** The game [RummyGame.__init__] makes. *)
Lemma RummyGame_init_spec names (h : heap) :
  exists self (h' : heap),
    RummyGame_init shuffle names h = Done self h'
    /\ game_wf self h'
    /\ name <$> players self = names
    /\ (forall p, p ∈ players self -> h' !! hand p = Some [])
    /\ length (cards_of h' (discard_card_pile self)) = 1%nat
    /\ length (cards_of h' (deck_cards self)) = 51%nat
    /\ all_cards self h' ≡ₚ new_deck
    /\ (forall l, is_Some (h !! l) ->
          (l ∉ game_locs self) /\ h' !! l = h !! l).
Proof.
  destruct (new_players_spec names h) as (ps & h1 & Hrun & Hnames & Hnd & Hnew & Hold).
  set (cards := fresh (dom h1)).
  set (h2 := <[cards := shuffle new_deck]> (<[cards := new_deck]> h1)).
  set (pile := fresh (dom h2)).
  pose proof (Permutation_length (shuffle_perm new_deck)) as Hlen.
  rewrite new_deck_length in Hlen.
  destruct (last_or_empty (shuffle new_deck)) as [Hnil|(s1 & c1 & Hs1)];
    [by rewrite Hnil in Hlen|].
  destruct (last_or_empty s1) as [->|(s2 & w & ->)];
    [by rewrite Hs1 in Hlen|].
  assert (h2 !! cards = Some ((s2 ++ [w]) ++ [c1])) as Hc2.
  { unfold h2. rewrite <- Hs1. apply lookup_insert_eq. }
  assert (cards <> pile) as Hcp.
  { apply not_eq_sym. by apply (fresh_loc_ne h2 cards _ Hc2). }
  assert (forall l, l ∈ hand <$> ps -> l <> cards /\ l <> pile) as Hps.
  { intros l Hl. destruct (Hnew l Hl) as [_ Hl1]. split.
    - apply not_eq_sym. by apply (fresh_loc_ne h1 l _ Hl1).
    - apply not_eq_sym. apply (fresh_loc_ne h2 l []).
      unfold h2. rewrite !lookup_insert_ne; [done| |];
        apply (fresh_loc_ne h1 l _ Hl1). }
  set (h6 := <[cards := s2]>
               (<[pile := [c1]]>
                  (<[cards := s2 ++ [w]]> (<[pile := []]> h2)))).
  assert (h6 !! cards = Some s2) as H6c by apply lookup_insert_eq.
  assert (h6 !! pile = Some [c1]) as H6p.
  { unfold h6. rewrite lookup_insert_ne by done. apply lookup_insert_eq. }
  assert (forall l, l <> cards -> l <> pile -> h6 !! l = h1 !! l) as H6o.
  { intros l Hlc Hlp. unfold h6, h2.
    by rewrite !lookup_insert_ne by (by apply not_eq_sym). }
  exists (mkGame ps cards pile w), h6.
  cbn [players deck_cards discard_card_pile wild_card]. split_and!.
  - unfold RummyGame_init. rewrite hm_bind_eq, Hrun.
    rewrite hm_bind_eq, Deck_init_eq. fold cards h2.
    rewrite hm_bind_eq. unfold list_new. fold pile.
    rewrite hm_bind_eq.
    rewrite (list_pop_last_eq cards _ (s2 ++ [w]) c1)
      by (by rewrite lookup_insert_ne by (by apply not_eq_sym)).
    rewrite hm_bind_eq.
    rewrite (list_append_eq pile c1 _ [])
      by (rewrite lookup_insert_ne by done; apply lookup_insert_eq).
    rewrite hm_bind_eq.
    rewrite (list_pop_last_eq cards _ s2 w)
      by (rewrite lookup_insert_ne by (by apply not_eq_sym);
          apply lookup_insert_eq).
    done.
  - split.
    + unfold game_locs. cbn [players deck_cards discard_card_pile].
      apply NoDup_cons. split.
      { intros [Heq|Hin]%elem_of_cons; [done|]. by destruct (Hps _ Hin). }
      apply NoDup_cons. split; [|done].
      intros Hin. by destruct (Hps _ Hin).
    + unfold game_locs. cbn [players deck_cards discard_card_pile].
      apply Forall_forall. intros l [->|[->|Hl]%elem_of_cons]%elem_of_cons.
      * by eexists.
      * by eexists.
      * destruct (Hps _ Hl). destruct (Hnew l Hl) as [_ Hl1].
        rewrite H6o by done. by eexists.
  - done.
  - intros p Hp. pose proof (list_elem_of_fmap_2 hand _ _ Hp) as Hl.
    destruct (Hps _ Hl). destruct (Hnew _ Hl) as [_ Hl1]. by rewrite H6o.
  - unfold cards_of. by rewrite H6p.
  - unfold cards_of. rewrite H6c. simpl.
    rewrite Hs1, !length_app in Hlen. simpl in Hlen. lia.
  - unfold all_cards. cbn [players deck_cards discard_card_pile wild_card].
    fold (hands_cards ps h6). rewrite hands_cards_empty.
    + unfold cards_of. rewrite H6c, H6p. simpl.
      rewrite <- (shuffle_perm new_deck), Hs1, <- !app_assoc. simpl.
      f_equiv. apply Permutation_swap.
    + intros l Hl. destruct (Hps _ Hl). destruct (Hnew _ Hl) as [_ Hl1].
      by rewrite H6o.
  - intros l [v Hv].
    assert (l ∉ hand <$> ps) as Hl.
    { intros Hin. destruct (Hnew l Hin) as [Hnone _]. congruence. }
    assert (h1 !! l = Some v) as Hl1 by (by rewrite Hold).
    assert (l <> cards) as Hlc.
    { apply not_eq_sym. by apply (fresh_loc_ne h1 l _ Hl1). }
    assert (l <> pile) as Hlp.
    { apply not_eq_sym. apply (fresh_loc_ne h2 l v).
      unfold h2. by rewrite !lookup_insert_ne by (by apply not_eq_sym). }
    split.
    + unfold game_locs. cbn [players deck_cards discard_card_pile].
      by repeat (apply not_elem_of_cons; split; [done|]).
    + by rewrite H6o, Hold.
Qed.

(** The start of [play] on a game with ten cards in the deck for every
    player. *)
Lemma play_start_spec self (h : heap) :
  game_wf self h ->
  (10 * length (players self) <= length (cards_of h (deck_cards self)))%nat ->
  exists self' (h' : heap),
    play_start shuffle_players self h = Done self' h'
    /\ game_wf self' h'
    /\ players self' ≡ₚ players self
    /\ deck_cards self' = deck_cards self
    /\ discard_card_pile self' = discard_card_pile self
    /\ wild_card self' = wild_card self
    /\ all_cards self' h' ≡ₚ all_cards self h
    /\ (length (cards_of h' (deck_cards self)) + 10 * length (players self)
        = length (cards_of h (deck_cards self)))%nat
    /\ (forall p, p ∈ players self ->
          length (cards_of h' (hand p)) = (length (cards_of h (hand p)) + 10)%nat)
    /\ (forall l, l <> deck_cards self -> l ∉ hand <$> players self ->
          h' !! l = h !! l).
Proof.
  intros Hwf Hlen.
  set (self' := mkGame (shuffle_players (players self)) (deck_cards self)
                       (discard_card_pile self) (wild_card self)).
  assert (players self' ≡ₚ players self) as Hp by apply shuffle_players_perm.
  assert (game_wf self' h) as Hwf'
    by (by apply (game_wf_seating self self' h Hp)).
  destruct Hwf as [Hnd Hall].
  assert (is_Some (h !! deck_cards self)) as [D HD].
  { rewrite Forall_forall in Hall. apply Hall. left. }
  destruct (deal_rounds_enough self' 10 h D Hwf' HD)
    as (h' & Hrun & Hwf'' & Hperm & Hdeck & Hhands & Hframe).
  { rewrite Hp. unfold cards_of in Hlen. by rewrite HD in Hlen. }
  exists self', h'. split_and!; try done.
  - unfold play_start. fold self'. unfold deal_intial_card.
    change (Z.to_nat 10) with 10%nat. by rewrite hm_bind_eq, Hrun.
  - rewrite Hperm. by apply all_cards_seating.
  - rewrite Hp in Hdeck. unfold cards_of at 2. by rewrite HD.
  - intros p Hin. apply Hhands. by rewrite Hp.
  - intros l Hl Hlh. apply Hframe; [done|]. by rewrite Hp.
Qed.

Lemma setup_spec names (h : heap) :
  ((length names <= 5)%nat ->
   exists self (h' : heap),
     setup shuffle shuffle_players names h = Done self h'
     /\ game_wf self h'
     /\ name <$> players self ≡ₚ names
     /\ (forall p, p ∈ players self -> length (cards_of h' (hand p)) = 10%nat)
     /\ length (cards_of h' (discard_card_pile self)) = 1%nat
     /\ (length (cards_of h' (deck_cards self)) + 10 * length names = 51)%nat
     /\ all_cards self h' ≡ₚ new_deck
     /\ card_count self h' = 53%nat
     /\ (forall l, is_Some (h !! l) -> h' !! l = h !! l))
  /\ ((5 < length names)%nat ->
      exists h' : heap,
        setup shuffle shuffle_players names h = Crash IndexError h').
Proof.
  destruct (RummyGame_init_spec names h)
    as (self0 & h0 & Hinit & Hwf0 & Hnames & Hempty & Hpile & Hdeck & Hall & Hold).
  assert (length (players self0) = length names) as Hn
    by (by rewrite <- Hnames, length_fmap).
  split; intros Hlen.
  - destruct (play_start_spec self0 h0 Hwf0)
      as (self & h' & Hrun & Hwf & Hp & Hd & Hpl & Hw & Hperm & Hdk & Hhands & Hframe);
      [lia|].
    exists self, h'. split_and!.
    + unfold setup. by rewrite hm_bind_eq, Hinit.
    + done.
    + by rewrite Hp, Hnames.
    + intros p Hin. rewrite Hp in Hin. rewrite (Hhands p Hin).
      unfold cards_of. by rewrite (Hempty p Hin).
    + rewrite Hpl. unfold cards_of. rewrite Hframe; [done| |].
      * destruct Hwf0 as [Hnd _]. unfold game_locs in Hnd.
        apply NoDup_cons in Hnd as [Hnd _]. intros Heq. apply Hnd.
        rewrite <- Heq. left.
      * destruct Hwf0 as [Hnd _]. unfold game_locs in Hnd.
        apply NoDup_cons in Hnd as [_ Hnd]. by apply NoDup_cons in Hnd as [Hnd _].
    + rewrite Hd. lia.
    + by rewrite Hperm.
    + by rewrite card_count_length, Hperm, Hall.
    + intros l Hl. destruct (Hold l Hl) as [Hnew <-].
      unfold game_locs in Hnew.
      apply not_elem_of_cons in Hnew as [? [? ?]%not_elem_of_cons].
      by apply Hframe.
  - set (self' := mkGame (shuffle_players (players self0)) (deck_cards self0)
                         (discard_card_pile self0) (wild_card self0)).
    assert (players self' ≡ₚ players self0) as Hp by apply shuffle_players_perm.
    assert (game_wf self' h0) as Hwf'
      by (by apply (game_wf_seating self0 self' h0 Hp)).
    assert (is_Some (h0 !! deck_cards self0)) as [D HD].
    { destruct Hwf0 as [_ Hall0]. rewrite Forall_forall in Hall0.
      apply Hall0. left. }
    unfold cards_of in Hdeck. rewrite HD in Hdeck. simpl in Hdeck.
    destruct (deal_rounds_short self' 10 h0 D Hwf' HD) as [h' Hrun].
    { rewrite Hp. lia. }
    exists h'. unfold setup. rewrite hm_bind_eq, Hinit.
    unfold play_start. fold self'. unfold deal_intial_card.
    change (Z.to_nat 10) with 10%nat. by rewrite hm_bind_eq, Hrun.
Qed.

(** X16.  For shuffles that permute, the set-up of a game (the game is
    made from the names, the seating order is shuffled and ten cards are
    dealt to each player) finishes for up to five names: every name has
    a seat, every player holds ten cards, one card lies on the discard
    pile, one is turned up as wild card, the deck holds the rest, the
    cards of the game are the 53 cards of a new deck, deck, pile and
    hands are separate lists, and no list that existed before is
    touched.  With six names or more the deal runs out of cards and
    [IndexError] is raised. *)
Theorem setup_deals_ten_each names (h : heap) :
  ((length names <= 5)%nat ->
   exists self (h' : heap),
     setup shuffle shuffle_players names h = Done self h'
     /\ game_wf self h'
     /\ name <$> players self ≡ₚ names
     /\ (forall p, p ∈ players self -> length (cards_of h' (hand p)) = 10%nat)
     /\ length (cards_of h' (discard_card_pile self)) = 1%nat
     /\ (length (cards_of h' (deck_cards self)) + 10 * length names = 51)%nat
     /\ all_cards self h' ≡ₚ new_deck
     /\ card_count self h' = 53%nat
     /\ (forall l, is_Some (h !! l) -> h' !! l = h !! l))
  /\ ((5 < length names)%nat ->
      exists h' : heap,
        setup shuffle shuffle_players names h = Crash IndexError h').
Proof. apply setup_spec. Qed.
End setup_facts.

Lemma setup_deals_ten_each_witness :
  (exists self (h' : heap),
     setup reverse reverse ["North"; "South"] ∅ = Done self h'
     /\ game_wf self h'
     /\ name <$> players self ≡ₚ ["North"; "South"]
     /\ (forall p, p ∈ players self -> length (cards_of h' (hand p)) = 10%nat)
     /\ length (cards_of h' (discard_card_pile self)) = 1%nat
     /\ (length (cards_of h' (deck_cards self)) + 10 * 2 = 51)%nat
     /\ all_cards self h' ≡ₚ new_deck
     /\ card_count self h' = 53%nat
     /\ (forall l, is_Some ((∅ : heap) !! l) -> h' !! l = (∅ : heap) !! l))
  /\ (exists h' : heap,
        setup reverse reverse ["a"; "b"; "c"; "d"; "e"; "f"] ∅
        = Crash IndexError h').
Proof.
  split.
  - apply (proj1 (setup_deals_ten_each reverse reverse reverse_Permutation
                    reverse_Permutation ["North"; "South"] ∅)).
    simpl. lia.
  - apply (proj2 (setup_deals_ten_each reverse reverse reverse_Permutation
                    reverse_Permutation ["a"; "b"; "c"; "d"; "e"; "f"] ∅)).
    simpl. lia.
Defined.

(** ** Reading the player names *)

Lemma read_names_spec n inputs acc k names pr :
  read_names n inputs acc k = (names, pr) ->
  NoDup acc -> k = Z.of_nat (length acc) ->
  NoDup names
  /\ (exists new, names = acc ++ new /\ new `sublist_of` inputs)
  /\ (pr = LoopLeft -> Z.of_nat (length names) = Z.max n k)
  /\ (pr = AwaitingInput -> Z.of_nat (length names) < n).
Proof.
  revert acc k. induction inputs as [|x inputs IH]; intros acc k Hrun Hnd Hk;
    cbn [read_names] in Hrun;
    destruct (Z.ltb_spec k n) as [Hlt|Hge].
  - simplify_eq. split_and!; [done| |done|lia].
    exists []. by rewrite app_nil_r.
  - simplify_eq. split_and!; [done| |lia|done].
    exists []. by rewrite app_nil_r.
  - case_bool_decide as Hin.
    + destruct (IH _ _ Hrun Hnd Hk) as (Hnd' & (new & -> & Hsub) & Hleft & Hwait).
      split_and!; [done| |done|done].
      exists new. split; [done|]. by apply sublist_cons.
    + destruct (IH _ _ Hrun) as (Hnd' & (new & -> & Hsub) & Hleft & Hwait).
      * apply NoDup_app. split_and!; [done| |apply NoDup_singleton].
        intros y Hy ->%list_elem_of_singleton. done.
      * rewrite length_app. simpl. lia.
      * split_and!; [done| |intros Hpr; rewrite (Hleft Hpr); lia|done].
        exists (x :: new). split; [by rewrite <- app_assoc|].
        by apply sublist_skip.
  - simplify_eq. split_and!; [done| |lia|done].
    exists []. split; [by rewrite app_nil_r|]. apply sublist_nil_l.
Qed.

(** X17.  The names [__main__] reads for [n_player] players are taken
    from what is typed in the order it is typed, no name is taken
    twice, and the loop is left with exactly [n_player] names; while
    there are fewer it asks for more. *)
Theorem read_names_distinct n_player inputs names pr :
  0 <= n_player ->
  read_names n_player inputs [] 0 = (names, pr) ->
  NoDup names
  /\ names `sublist_of` inputs
  /\ (pr = LoopLeft -> Z.of_nat (length names) = n_player)
  /\ (pr = AwaitingInput -> Z.of_nat (length names) < n_player).
Proof.
  intros Hn Hrun.
  destruct (read_names_spec _ _ _ _ _ _ Hrun) as (Hnd & (new & -> & Hsub) & Hl & Hw);
    [constructor|done|].
  split_and!; [done|done| |done].
  intros Hpr. rewrite (Hl Hpr). lia.
Qed.

Lemma read_names_distinct_witness :
  NoDup ["North"; "South"]
  /\ ["North"; "South"] `sublist_of` ["North"; "North"; "South"; "East"]
  /\ (LoopLeft = LoopLeft -> Z.of_nat (length ["North"; "South"]) = 2)
  /\ (LoopLeft = AwaitingInput -> Z.of_nat (length ["North"; "South"]) < 2).
Proof.
  apply (read_names_distinct 2 ["North"; "North"; "South"; "East"]);
    [lia|reflexivity].
Defined.

(** ** The turns of a game *)

Lemma table_ok_ext self (h h' : heap) :
  (forall l, l ∈ game_locs self -> h' !! l = h !! l) ->
  table_ok self h -> table_ok self h'.
Proof.
  intros Hsame ([Hnd Hall] & Hcards & Hten & Hpile).
  assert (forall l, l ∈ game_locs self -> cards_of h' l = cards_of h l) as Hc.
  { intros l Hl. unfold cards_of. by rewrite Hsame. }
  unfold table_ok, game_wf, pile_nonempty. split_and!.
  - done.
  - rewrite Forall_forall in Hall. apply Forall_forall. intros l Hl.
    rewrite Hsame by done. by apply Hall.
  - rewrite <- Hcards.
    assert (all_cards self h' = all_cards self h) as ->; [|done].
    unfold all_cards.
    rewrite (Hc (deck_cards self)) by (unfold game_locs; left).
    rewrite (Hc (discard_card_pile self)) by (unfold game_locs; right; left).
    do 4 f_equal. apply Forall_fmap_ext_1, Forall_forall. intros p Hp.
    apply Hc. unfold game_locs. do 2 right. by apply list_elem_of_fmap_2.
  - intros p Hp. rewrite Hc; [by apply Hten|].
    unfold game_locs. do 2 right. by apply list_elem_of_fmap_2.
  - rewrite Hc; [done|]. unfold game_locs. right. left.
Qed.

Lemma table_ok_draw self player (h : heap) self' h' :
  table_ok self h -> player ∈ players self ->
  draw_keeps self player h self' h' -> table_ok self' h'.
Proof.
  intros (Hwf & Hcards & Hten & Hpile) Hin
         (Hwf' & Hps & Hw & Hpl & Hall & _ & Hlen & Hothers & Hne).
  unfold table_ok. split_and!; [done|by rewrite Hall| |done].
  intros q Hq. rewrite Hps in Hq.
  destruct (decide (hand q = hand player)) as [Heq|Hneq].
  - rewrite Heq, Hlen. by apply Hten.
  - unfold cards_of. rewrite Hothers by done. by apply Hten.
Qed.

Lemma table_ok_rearranged self player (h : heap) v v' :
  table_ok self h -> player ∈ players self ->
  h !! hand player = Some v -> v' ≡ₚ v ->
  table_ok self (<[hand player := v']> h).
Proof.
  intros (Hwf & Hcards & Hten & Hpile) Hin Hv Hperm.
  destruct (game_wf_locs _ _ _ Hwf Hin) as (Hdp & Hdh & Hph & [D HD] & [P HP] & _).
  unfold table_ok. split_and!.
  - by apply game_wf_insert.
  - rewrite <- Hcards.
    destruct (all_cards_view self player h (proj1 Hwf) Hin) as [R HR].
    rewrite (HR _ D P v').
    + rewrite (HR h D P v) by done. by rewrite Hperm.
    + by rewrite lookup_insert_ne by (by apply not_eq_sym).
    + by rewrite lookup_insert_ne by (by apply not_eq_sym).
    + apply lookup_insert_eq.
    + intros q Hq Hne. by rewrite lookup_insert_ne by (by apply not_eq_sym).
  - intros q Hq. specialize (Hten q Hq). unfold cards_of in *.
    destruct (decide (hand q = hand player)) as [Heq|Hneq].
    + rewrite Heq in *. rewrite lookup_insert_eq. rewrite Hv in Hten.
      simpl in *. by rewrite Hperm.
    + by rewrite lookup_insert_ne by (by apply not_eq_sym).
  - unfold pile_nonempty, cards_of in *.
    by rewrite lookup_insert_ne by (by apply not_eq_sym).
Qed.

Section play_facts.
Variable shuffle : list Card -> list Card.
Variable shuffle_players : list Player -> list Player.
Hypothesis shuffle_perm : forall l, shuffle l ≡ₚ l.
Hypothesis shuffle_players_perm : forall l, shuffle_players l ≡ₚ l.

(** A turn that ends leaves the table in order. *)
Lemma turn_keeps_table self player sf inp (h : heap) self' sf' e h' :
  table_ok self h -> player ∈ players self ->
  turn shuffle self player sf inp h = Done (self', sf', e) h' ->
  table_ok self' h'
  /\ players self' = players self /\ wild_card self' = wild_card self.
Proof.
  intros Hok Hin. unfold turn.
  pose proof Hok as (Hwf & _).
  destruct (game_wf_locs _ _ _ Hwf Hin) as (_ & _ & _ & _ & [P HP] & _).
  rewrite hm_bind_eq, (list_getitem_eq _ _ _ _ HP).
  destruct (py_getitem P (-1)) as [top|]; [|done].
  rewrite hm_bind_eq.
  destruct (draw_phase shuffle self player (draw_answers inp) h)
    as [self1 h1|] eqn:Hdraw; [|done].
  pose proof (draw_phase_draw_keeps shuffle shuffle_perm _ _ _ _ _ _ Hwf Hin Hdraw)
    as Hkeeps.
  pose proof (table_ok_draw _ _ _ _ _ Hok Hin Hkeeps) as Hok1.
  destruct Hkeeps as (Hwf1 & Hps & Hw & _).
  assert (player ∈ players self1) as Hin1 by (by rewrite Hps).
  destruct (game_wf_locs _ _ _ Hwf1 Hin1) as (_ & _ & _ & _ & _ & [v Hv]).
  assert (exists v', v' ≡ₚ v
            /\ final_heap (rearrange player (rearrange_flag inp)
                             (rearrange_answers inp) h1)
               = <[hand player := v']> h1) as (v' & Hperm & Hfinal).
  { unfold rearrange. destruct (String.eqb _ _).
    - by apply rearrange_loop_keeps.
    - exists v. split; [done|]. simpl. by rewrite insert_id. }
  pose proof (table_ok_rearranged _ _ _ _ _ Hok1 Hin1 Hv Hperm) as Hok2.
  rewrite hm_bind_eq.
  destruct (rearrange player (rearrange_flag inp) (rearrange_answers inp) h1)
    as [p h2|]; [|done].
  simpl in Hfinal. subst h2.
  destruct p; [|by intros [= <- <- <- <-]].
  destruct (String.eqb (check_for_win inp) "y"); [|by intros [= <- <- <- <-]].
  rewrite hm_bind_eq.
  set (h2 := <[hand player := v']> h1) in *.
  assert (forall h3 : heap,
            final_heap (win_check self1 player sf (check_answers inp) h2) = h3 ->
            table_ok self1 h3) as Hcheck.
  { intros h3 Hh3. apply (table_ok_ext self1 h2); [|done].
    intros l Hl. destruct Hok2 as ([_ Hall] & _).
    rewrite Forall_forall in Hall. destruct (Hall l Hl) as [cards Hcards].
    rewrite Hcards.
    pose proof (kept_win_check l cards self1 player sf (check_answers inp)
                  h2 Hcards) as Hkept.
    destruct (win_check self1 player sf (check_answers inp) h2);
      simpl in Hh3; by subst h3. }
  destruct (win_check self1 player sf (check_answers inp) h2) as [r h3|];
    [|done].
  specialize (Hcheck h3 eq_refl).
  destruct (snd r); by intros [= <- <- <- <-].
Qed.

Lemma turns_keep self todo sf inputs (h : heap) self' e h' :
  table_ok self h ->
  (forall p, p ∈ todo -> p ∈ players self) ->
  turns shuffle self todo sf inputs h = Done (self', e) h' ->
  table_ok self' h'
  /\ players self' = players self /\ wild_card self' = wild_card self.
Proof.
  revert self todo sf h.
  induction inputs as [|inp inputs IH]; intros self todo sf h Hok Hsub;
    cbn [turns];
    set (ps := match todo with [] => players self | _ :: _ => todo end);
    (assert (forall p, p ∈ ps -> p ∈ players self) as Hps
       by (unfold ps; destruct todo; [done|exact Hsub]));
    destruct ps as [|player todo']; try (by intros [= <- <- <-]).
  rewrite hm_bind_eq.
  destruct (turn shuffle self player sf inp h) as [[[self1 sf1] e1] h1|] eqn:Hturn;
    [|done].
  destruct (turn_keeps_table _ _ _ _ _ _ _ _ _ Hok (Hps _ (list_elem_of_here _ _)) Hturn)
    as (Hok1 & Hps1 & Hw1).
  destruct e1; try (by intros [= <- <- <-]).
  intros Hrun. apply IH in Hrun as (Hok' & Hps' & Hw'); [|done|].
  - split_and!; [done|congruence|congruence].
  - intros p Hp. rewrite Hps1. apply Hps. by right.
Qed.

(** X18.  For a shuffle that permutes, any number of turns played at a
    table in order, whatever is typed in them, leave (unless one raises)
    the table in order: the game still has the 53 cards of the deck,
    every player holds ten cards, a card lies on the discard pile for
    the next turn, the deck, the pile and the hands are separate lists,
    and the players and the wild card are the same. *)
Theorem turns_keep_table self todo sf inputs (h : heap) self' e h' :
  table_ok self h ->
  (forall p, p ∈ todo -> p ∈ players self) ->
  turns shuffle self todo sf inputs h = Done (self', e) h' ->
  table_ok self' h'
  /\ players self' = players self /\ wild_card self' = wild_card self.
Proof. apply turns_keep. Qed.

(** X19.  A game started by [__main__]: for a number of players that is
    accepted and the names read for it, for shuffles that permute, and
    whatever is typed in the turns, the game (unless a turn raises) has
    as many players as asked for, with different names, and is played
    with the 53 cards, ten in every hand. *)
Theorem game_of_main n_player typed names inputs (h : heap) self' e h' :
  player_count_ok n_player = true ->
  read_names n_player typed [] 0 = (names, LoopLeft) ->
  game shuffle shuffle_players names inputs h = Done (self', e) h' ->
  table_ok self' h'
  /\ Z.of_nat (length (players self')) = n_player
  /\ NoDup (name <$> players self')
  /\ name <$> players self' ≡ₚ names.
Proof.
  intros Hn Hnames. unfold player_count_ok in Hn.
  apply andb_true_iff in Hn as [Hlo%Z.ltb_lt Hhi%Z.leb_le].
  destruct (read_names_spec _ _ _ _ _ _ Hnames) as (Hnd & _ & Hlen & _);
    [constructor|done|].
  specialize (Hlen eq_refl).
  destruct (setup_spec shuffle shuffle_players shuffle_perm shuffle_players_perm
              names h) as [Hsetup _].
  destruct Hsetup
    as (self & h1 & Hrun & Hwf & Hps & Hten & Hpile & _ & Hall & _); [lia|].
  unfold game, play. unfold setup in Hrun.
  rewrite hm_bind_eq in Hrun. rewrite hm_bind_eq.
  destruct (RummyGame_init shuffle names h) as [self0 h0|]; [|done].
  rewrite hm_bind_eq, Hrun. intros Hturns.
  apply turns_keep in Hturns as (Hok & Hps' & _).
  - rewrite Hps'. split_and!; [done| |by rewrite Hps|done].
    rewrite <- (length_fmap name), Hps. lia.
  - unfold table_ok, pile_nonempty. split_and!; [done|done|done|].
    intros Hnil. by rewrite Hnil in Hpile.
  - intros p Hp. by apply elem_of_nil in Hp.
Qed.
End play_facts.

Lemma table_heap_ok : table_ok table table_heap.
Proof.
  split_and!.
  - split.
    + apply (bool_decide_unpack _). vm_compute. exact I.
    + repeat constructor; eexists; reflexivity.
  - apply table_is_full_deck.
  - intros p [->|[->|Hp]%elem_of_cons]%elem_of_cons; [done|done|].
    by apply elem_of_nil in Hp.
  - unfold pile_nonempty. vm_compute. discriminate.
Qed.

Lemma turns_keep_table_witness :
  let inputs := [mkTurnInput (mkDrawInput "n" "n" 0) "y"
                             [mkRearrangeInput 1 0 0; mkRearrangeInput 0 0 0]
                             "n" [];
                 mkTurnInput (mkDrawInput "y" "" 3) "n" []
                             "y" [mkCheckInput 0 []]] in
  exists self' e h',
    turns reverse table [] None inputs table_heap = Done (self', e) h'
    /\ table_ok self' h'
    /\ players self' = players table /\ wild_card self' = wild_card table.
Proof.
  intros inputs. eexists _, _, _.
  assert (turns reverse table [] None inputs table_heap = Done _ _) as Hrun
    by (vm_compute; reflexivity).
  split; [exact Hrun|].
  eapply (turns_keep_table reverse reverse_Permutation table [] None inputs
            table_heap _ _ _ table_heap_ok); [|exact Hrun].
  intros p Hp. by apply elem_of_nil in Hp.
Defined.

Lemma game_of_main_witness :
  let inputs := [mkTurnInput (mkDrawInput "n" "n" 0) "n" [] "n" []] in
  exists self' e h',
    game reverse reverse ["North"; "South"] inputs ∅ = Done (self', e) h'
    /\ table_ok self' h'
    /\ Z.of_nat (length (players self')) = 2
    /\ NoDup (name <$> players self')
    /\ name <$> players self' ≡ₚ ["North"; "South"].
Proof.
  intros inputs. eexists _, _, _.
  assert (game reverse reverse ["North"; "South"] inputs ∅ = Done _ _) as Hrun
    by (vm_compute; reflexivity).
  split; [exact Hrun|].
  eapply (game_of_main reverse reverse reverse_Permutation reverse_Permutation
            2 ["North"; "North"; "South"] ["North"; "South"] inputs ∅ _ _ _);
    [reflexivity|reflexivity|exact Hrun].
Defined.

(** ** Printing a card *)

Lemma py_getitem_Ok_or_IndexError {A} (l : list A) k :
  (exists x, py_getitem l k = Ok x
             /\ - Z.of_nat (length l) <= k < Z.of_nat (length l))
  \/ (py_getitem l k = Raise IndexError
      /\ ~ (- Z.of_nat (length l) <= k < Z.of_nat (length l))).
Proof.
  pose proof (py_getitem_is_Ok l k) as Hiff.
  destruct (py_getitem l k) as [x|e] eqn:Hg.
  - left. exists x. split; [done|]. apply Hiff. by eexists.
  - right. rewrite (py_getitem_raises _ _ _ Hg). split; [done|].
    intros Hr. apply Hiff in Hr as [x Hx]. done.
Qed.

(** X20.  [Card.__str__] gives a string exactly for the ranks from -15
    to 14 and, but for rank 14, the suits from -5 to 4 (negative numbers
    count from the end of the two lists of names); for every other card
    it raises [IndexError].  A card of rank 14 prints as [Joker]
    whatever its suit. *)
Theorem Card_str_defined self :
  ((exists s, Card_str self = Ok s)
   <-> -15 <= rank self < 15 /\ (rank self = 14 \/ -5 <= suit self < 5))
  /\ (forall e, Card_str self = Raise e -> e = IndexError)
  /\ (rank self = 14 -> Card_str self = Ok "Joker").
Proof.
  unfold Card_str. destruct (Z.eqb_spec (rank self) 14) as [Hj|Hj].
  - rewrite Hj. split_and!; [|done|done].
    split; [intros _; lia|intros _; by eexists].
  - destruct (py_getitem_Ok_or_IndexError rank_list (rank self))
      as [(r & -> & Hr)|[-> Hr]];
      destruct (py_getitem_Ok_or_IndexError suit_list (suit self))
        as [(s & -> & Hs)|[-> Hs]];
      simpl in *; (split_and!; [|by intros e [= <-]|done]);
      (split; [intros [? ?]; try done; lia|intros [? [?|?]]; try done; try lia]).
    by eexists.
Qed.

Lemma Card_str_defined_witness :
  Card_str joker = Ok "Joker"
  /\ (exists s, Card_str spadeJ = Ok s)
  /\ Card_str (mkCard 5 2) = Raise IndexError.
Proof.
  split_and!.
  - apply (proj2 (proj2 (Card_str_defined joker))). reflexivity.
  - apply (proj1 (Card_str_defined spadeJ)). simpl. lia.
  - destruct (Card_str (mkCard 5 2)) as [s|e] eqn:Hs.
    + assert (exists s, Card_str (mkCard 5 2) = Ok s) as Hex by (by eexists).
      apply (proj1 (Card_str_defined (mkCard 5 2))) in Hex. simpl in Hex. lia.
    + f_equal. by apply (proj1 (proj2 (Card_str_defined (mkCard 5 2)))).
Defined.

Lemma new_deck_prints c : c ∈ new_deck -> exists s, Card_str c = Ok s.
Proof.
  intros Hc.
  assert (forallb (fun c =>
            match Card_str c with Ok _ => true | Raise _ => false end)
            new_deck = true) as Hall by (vm_compute; reflexivity).
  rewrite forallb_forall in Hall. apply list_elem_of_In, Hall in Hc.
  destruct (Card_str c); [by eexists|done].
Qed.

(** X21.  Every card of the deck [Deck.__init__] makes can be printed,
    and no two of them print alike. *)
Theorem new_deck_prints_distinct c1 c2 :
  c1 ∈ new_deck -> c2 ∈ new_deck ->
  (exists s, Card_str c1 = Ok s)
  /\ (Card_str c1 = Card_str c2 -> c1 = c2).
Proof.
  intros H1 H2. split; [by apply new_deck_prints|].
  assert (forallb (fun c =>
            forallb (fun c' =>
              implb (bool_decide (Card_str c = Card_str c'))
                    (bool_decide (c = c'))) new_deck) new_deck = true)
    as Hall by (vm_compute; reflexivity).
  rewrite forallb_forall in Hall.
  apply list_elem_of_In, Hall in H1.
  rewrite forallb_forall in H1. apply list_elem_of_In, H1 in H2.
  intros Heq. rewrite (bool_decide_eq_true_2 _ Heq) in H2.
  by apply bool_decide_eq_true_1 in H2.
Qed.

Lemma new_deck_prints_distinct_witness :
  (exists s, Card_str spadeJ = Ok s)
  /\ (Card_str spadeJ = Card_str joker -> spadeJ = joker).
Proof.
  apply (new_deck_prints_distinct spadeJ joker);
    apply (bool_decide_unpack _); vm_compute; exact I.
Defined.

(** ** When the draw phase raises *)





Section draw_outcome.
Variable shuffle : list Card -> list Card.
Hypothesis shuffle_perm : forall l, shuffle l ≡ₚ l.


End draw_outcome.


(** ** What a turn prints *)

Lemma elem_of_concat {A} (x : A) (ls : list (list A)) :
  x ∈ concat ls <-> exists l, x ∈ l /\ l ∈ ls.
Proof.
  induction ls as [|l ls IH]; simpl.
  - split; [by intros ?%elem_of_nil|]. by intros (l & _ & ?%elem_of_nil).
  - rewrite elem_of_app, IH. split.
    + intros [Hx|(l' & Hx & Hl')]; [exists l; split; [done|left]|].
      exists l'. split; [done|by right].
    + intros (l' & Hx & [->|Hl']%elem_of_cons); [by left|].
      right. by exists l'.
Qed.

Lemma comprehension_is_Ok {A B} (f : A -> result B) l :
  Forall (fun x => exists y, f x = Ok y) l ->
  exists ys, comprehension f l = Ok ys.
Proof.
  induction 1 as [|x l [y Hy] _ [ys IH]]; [by eexists|].
  simpl. rewrite Hy. simpl. rewrite IH. by eexists.
Qed.

(** X23.  At a table in order everything a turn prints can be printed:
    every card of the game (in the deck, on the pile, in a hand, or
    turned up as wild card) has a string, and [Player.__str__] returns,
    without touching a list, for every player. *)
Theorem table_can_be_printed self (h : heap) :
  table_ok self h ->
  (forall c, c ∈ all_cards self h -> exists s, Card_str c = Ok s)
  /\ (forall p, p ∈ players self -> exists s, Player_str p h = Done s h).
Proof.
  intros (Hwf & Hcards & Hten & _).
  assert (forall c, c ∈ all_cards self h -> exists s, Card_str c = Ok s) as Hprint.
  { intros c Hc. rewrite Hcards in Hc. by apply new_deck_prints. }
  split; [exact Hprint|].
  intros p Hp.
  destruct (game_wf_locs _ _ _ Hwf Hp) as (_ & _ & _ & _ & _ & [cards HH]).
  unfold Player_str. rewrite hm_bind_eq, (list_read_eq _ _ _ HH).
  destruct (negb (length cards =? 0)%nat); [|by eexists].
  destruct (comprehension_is_Ok Card_str cards) as [strs Hstrs].
  - apply Forall_forall. intros c Hc. apply Hprint.
    unfold all_cards. rewrite !elem_of_app. right. right. left.
    apply elem_of_concat. exists cards. split; [done|].
    apply list_elem_of_fmap. exists p. unfold cards_of. by rewrite HH.
  - rewrite hm_bind_eq, Hstrs. by eexists.
Qed.

Lemma table_can_be_printed_witness :
  (forall c, c ∈ all_cards table table_heap -> exists s, Card_str c = Ok s)
  /\ (forall p, p ∈ players table -> exists s, Player_str p table_heap = Done s table_heap).
Proof. exact (table_can_be_printed table table_heap table_heap_ok). Defined.
